(** * Audit report pipeline of [frontend/lib/audit.ts]

    A shallow embedding of the finding-normalisation, grouping, enrichment,
    rendering and validation stages of the audit pipeline, followed by the
    properties established (or refuted) for them.

    JavaScript strings are sequences of UTF-16 code units; they are modelled
    as lists of [N].  Numbers that the pipeline prints (line numbers) are
    integers and are modelled as [Z]. *)

From Stdlib Require Import List NArith ZArith String Ascii Bool Lia.
From Stdlib Require Import DecimalString DecimalZ DecimalPos.
Import ListNotations.

Set Implicit Arguments.

(* ------------------------------------------------------------------ *)
(** ** JavaScript strings *)

Definition codeunit := N.
Definition jsstring := list codeunit.

(** ASCII literal of the source, one code unit per character. *)
Definition lit (s : string) : jsstring := map N_of_ascii (list_ascii_of_string s).

Fixpoint str_eqb (a b : jsstring) : bool :=
  match a, b with
  | [], [] => true
  | x :: a', y :: b' => N.eqb x y && str_eqb a' b'
  | _, _ => false
  end.

(** [s.startsWith(p)] *)
Fixpoint startsWith (p s : jsstring) : bool :=
  match p with
  | [] => true
  | c :: p' =>
      match s with
      | [] => false
      | d :: s' => N.eqb c d && startsWith p' s'
      end
  end.

(** [s.includes(needle)] *)
Fixpoint includes (s needle : jsstring) : bool :=
  startsWith needle s
  || match s with
     | [] => false
     | _ :: s' => includes s' needle
     end.

(** [parts.join(sep)] *)
Fixpoint join (sep : jsstring) (parts : list jsstring) : jsstring :=
  match parts with
  | [] => []
  | x :: rest =>
      match rest with
      | [] => x
      | _ :: _ => x ++ sep ++ join sep rest
      end
  end.

(** Truthiness of a string: non-empty. *)
Definition truthy (s : jsstring) : bool :=
  match s with [] => false | _ :: _ => true end.

(** Template-literal printing of an integer number. *)
Definition numberToString (z : Z) : jsstring :=
  lit (NilZero.string_of_int (Z.to_int z)).

Definition NL : jsstring := [10%N].

(* ------------------------------------------------------------------ *)
(** ** Regular expressions

    A backtracking matcher for the fragment of ECMAScript regular
    expressions used by the pipeline.  [BolM] and [EolM] are [^] and [$]
    under the [m] flag. *)

Definition isLineTerminator (c : codeunit) : bool :=
  (c =? 10)%N || (c =? 13)%N || (c =? 8232)%N || (c =? 8233)%N.

(** [\s] *)
Definition isWhiteSpace (c : codeunit) : bool :=
  ((9 <=? c)%N && (c <=? 13)%N)
  || (c =? 32)%N || (c =? 160)%N || (c =? 5760)%N
  || ((8192 <=? c)%N && (c <=? 8202)%N)
  || (c =? 8232)%N || (c =? 8233)%N || (c =? 8239)%N || (c =? 8287)%N
  || (c =? 12288)%N || (c =? 65279)%N.

(** [\w] *)
Definition isWordChar (c : codeunit) : bool :=
  ((48 <=? c)%N && (c <=? 57)%N)
  || ((65 <=? c)%N && (c <=? 90)%N)
  || (c =? 95)%N
  || ((97 <=? c)%N && (c <=? 122)%N).

(** [.] *)
Definition isDot (c : codeunit) : bool := negb (isLineTerminator c).

Inductive regex : Type :=
| Lit (c : codeunit)
| Class (p : codeunit -> bool)
| BolM
| EolM
| Eps
| Seq (r1 r2 : regex)
| Star (greedy : bool) (r : regex).

(** Sequence of literal characters. *)
Fixpoint Lits (s : jsstring) : regex :=
  match s with
  | [] => Eps
  | c :: s' => Seq (Lit c) (Lits s')
  end.

Definition Plus (greedy : bool) (r : regex) : regex := Seq r (Star greedy r).

(** A match state is the code unit before the current position (if any)
    and the rest of the input. *)
Definition mstate : Type := option codeunit * jsstring.

Fixpoint rmatch (r : regex) (prev : option codeunit) (s : jsstring)
    (k : option codeunit -> jsstring -> option mstate) : option mstate :=
  match r with
  | Lit c =>
      match s with
      | d :: s' => if N.eqb c d then k (Some d) s' else None
      | [] => None
      end
  | Class p =>
      match s with
      | d :: s' => if p d then k (Some d) s' else None
      | [] => None
      end
  | BolM =>
      match prev with
      | None => k prev s
      | Some c => if isLineTerminator c then k prev s else None
      end
  | EolM =>
      match s with
      | [] => k prev s
      | c :: _ => if isLineTerminator c then k prev s else None
      end
  | Eps => k prev s
  | Seq r1 r2 => rmatch r1 prev s (fun p s' => rmatch r2 p s' k)
  | Star greedy r' =>
      (fix loop (fuel : nat) (prev : option codeunit) (s : jsstring) : option mstate :=
         match fuel with
         | O => k prev s
         | S fuel' =>
             let more _ :=
               rmatch r' prev s
                 (fun p s' =>
                    if (List.length s' <? List.length s)%nat
                    then loop fuel' p s' else None) in
             if greedy then
               match more tt with
               | Some m => Some m
               | None => k prev s
               end
             else
               match k prev s with
               | Some m => Some m
               | None => more tt
               end
         end) (S (List.length s)) prev s
  end.

(** One attempt at the current position (a sticky [exec]). *)
Definition execAt (r : regex) (prev : option codeunit) (s : jsstring) : option mstate :=
  rmatch r prev s (fun p s' => Some (p, s')).

(** [re.test(s)] for a regex without the [g] flag. *)
Fixpoint searchFrom (r : regex) (prev : option codeunit) (s : jsstring) : bool :=
  match execAt r prev s with
  | Some _ => true
  | None =>
      match s with
      | [] => false
      | c :: s' => searchFrom r (Some c) s'
      end
  end.

Definition test (r : regex) (s : jsstring) : bool := searchFrom r None s.

(** [(s.match(re) || []).length] for a regex with the [g] flag. *)
Fixpoint countFrom (fuel : nat) (r : regex) (prev : option codeunit) (s : jsstring) : nat :=
  match fuel with
  | O => 0
  | S fuel' =>
      match execAt r prev s with
      | Some (prev', s') =>
          if (List.length s' <? List.length s)%nat
          then S (countFrom fuel' r prev' s')
          else
            match s with
            | [] => 1
            | c :: s1 => S (countFrom fuel' r (Some c) s1)
            end
      | None =>
          match s with
          | [] => 0
          | c :: s1 => countFrom fuel' r (Some c) s1
          end
      end
  end.

Definition matchCount (r : regex) (s : jsstring) : nat :=
  countFrom (S (List.length s)) r None s.

(** [s.split(re)]: [piece] is the text since the end of the last separator
    (reversed), [atP] tells whether the current position is that end. *)
Fixpoint splitLoop (fuel : nat) (r : regex) (piece : jsstring) (atP : bool)
    (prev : option codeunit) (s : jsstring) : list jsstring :=
  match fuel with
  | O => [rev piece ++ s]
  | S fuel' =>
      match s with
      | [] => [rev piece]
      | c :: s1 =>
          match execAt r prev s with
          | Some (prev', s') =>
              if atP && (List.length s' =? List.length s)%nat
              then splitLoop fuel' r (c :: piece) false (Some c) s1
              else rev piece :: splitLoop fuel' r [] true prev' s'
          | None => splitLoop fuel' r (c :: piece) false (Some c) s1
          end
      end
  end.

Definition split (r : regex) (s : jsstring) : list jsstring :=
  match s with
  | [] => match execAt r None [] with Some _ => [] | None => [[]] end
  | _ :: _ => splitLoop (2 * List.length s + 2) r [] true None s
  end.

(* ------------------------------------------------------------------ *)
(** ** Data model *)

(** [line] is [number | null]; the numbers are the integers of the
    [lines] array of the analyser. *)
Record Location : Type := mkLocation {
  file : jsstring;
  line : option Z;
  element : jsstring
}.

Record Facts : Type := mkFacts {
  writesAfterCall : bool;
  mentionsDelegatecall : bool;
  mentionsLowLevelCall : bool;
  exactStylePhrase : bool;
  mentionsZeroCheck : bool
}.

Record SWCMeta : Type := mkSWCMeta {
  swc_id : option jsstring;
  swc_title : jsstring;
  swc_remediation : jsstring;
  swc_references : list jsstring
}.

Record NormalizedIssue : Type := mkIssue {
  check : jsstring;
  title : jsstring;
  impact : jsstring;
  confidence : jsstring;
  description : jsstring;
  locations : list Location;
  facts : Facts;
  swc : option SWCMeta
}.

Definition set_locations (it : NormalizedIssue) (locs : list Location) : NormalizedIssue :=
  mkIssue (check it) (title it) (impact it) (confidence it) (description it)
          locs (facts it) (swc it).

(* ------------------------------------------------------------------ *)
(** ** Helpers: grouping and locations *)

(** A [Set<string>], by membership. *)
Definition Set_has (seen : list jsstring) (k : jsstring) : bool :=
  existsb (str_eqb k) seen.

Definition Set_add (seen : list jsstring) (k : jsstring) : list jsstring :=
  if Set_has seen k then seen else seen ++ [k].

(** The key [`${l.file}:${l.line ?? ""}:${l.element}`]. *)
Definition locationKey (l : Location) : jsstring :=
  file l ++ lit ":"
  ++ match line l with Some n => numberToString n | None => [] end
  ++ lit ":" ++ element l.

(** [uniqueLocations]: the [filter] with the set [seen] of the keys met so
    far. *)
Fixpoint uniqueLocationsFrom (seen : list jsstring) (locs : list Location) : list Location :=
  match locs with
  | [] => []
  | l :: rest =>
      let k := locationKey l in
      if Set_has seen k then uniqueLocationsFrom seen rest
      else l :: uniqueLocationsFrom (Set_add seen k) rest
  end.

Definition uniqueLocations (locs : list Location) : list Location :=
  uniqueLocationsFrom [] locs.

(** A [Map<string, V>] in insertion order. *)
Fixpoint Map_get (V : Type) (m : list (jsstring * V)) (k : jsstring) : option V :=
  match m with
  | [] => None
  | (k', v) :: m' => if str_eqb k k' then Some v else Map_get m' k
  end.

Fixpoint Map_set (V : Type) (m : list (jsstring * V)) (k : jsstring) (v : V) : list (jsstring * V) :=
  match m with
  | [] => [(k, v)]
  | (k', v') :: m' =>
      if str_eqb k k' then (k', v) :: m' else (k', v') :: Map_set m' k v
  end.

Definition Map_values (V : Type) (m : list (jsstring * V)) : list V := map snd m.

Definition missingZeroCheck : jsstring := lit "missing-zero-check".

(** [it.locations.find((l) => l.element)?.element ?? ""] *)
Definition firstNamedElement (locs : list Location) : jsstring :=
  match find (fun l => truthy (element l)) locs with
  | Some l => element l
  | None => []
  end.

(** The key [`${it.check}@@${elem}`]. *)
Definition groupKey (it : NormalizedIssue) : jsstring :=
  check it ++ lit "@@" ++ firstNamedElement (locations it).

(** [groupByCheckAndElement]: the state of the loop is the map [grouped]
    and the array [passthrough]; the entry of a known key is updated in
    place, a new key is appended. *)
Definition groupState : Type :=
  (list (jsstring * NormalizedIssue) * list NormalizedIssue)%type.

Definition groupStep (st : groupState) (it : NormalizedIssue) : groupState :=
  let (grouped, passthrough) := st in
  if str_eqb (check it) missingZeroCheck then
    let key := groupKey it in
    match Map_get grouped key with
    | Some existing =>
        (Map_set grouped key
           (set_locations existing
              (uniqueLocations (locations existing ++ locations it))),
         passthrough)
    | None =>
        (Map_set grouped key (set_locations it (uniqueLocations (locations it))),
         passthrough)
    end
  else (grouped, passthrough ++ [it]).

Definition groupByCheckAndElement (items : list NormalizedIssue) : list NormalizedIssue :=
  let (grouped, passthrough) := fold_left groupStep items ([], []) in
  passthrough ++ Map_values grouped.

(** [formatLocations]: one row per location whose key was not met before. *)
Fixpoint formatLocationsFrom (seen : list jsstring) (locs : list Location) : list jsstring :=
  match locs with
  | [] => []
  | l :: rest =>
      let key := locationKey l in
      if Set_has seen key then formatLocationsFrom seen rest
      else
        let linePart :=
          match line l with
          | Some n => lit ":" ++ numberToString n
          | None => []
          end in
        let elemPart :=
          if truthy (element l) then lit " (element: " ++ element l ++ lit ")" else [] in
        (lit "  - " ++ file l ++ linePart ++ elemPart)
          :: formatLocationsFrom (Set_add seen key) rest
  end.

Definition formatLocations (locs : list Location) : list jsstring :=
  formatLocationsFrom [] locs.

(* ------------------------------------------------------------------ *)
(** ** Exceptions *)

Inductive exn : Type :=
| TypeError
| SyntaxError (msg : jsstring)
| NetworkError (msg : jsstring).

Inductive result (A : Type) : Type :=
| Ok (a : A)
| Throw (e : exn).

Arguments Ok {A} a.
Arguments Throw {A} e.

Definition bind (A B : Type) (m : result A) (f : A -> result B) : result B :=
  match m with
  | Ok a => f a
  | Throw e => Throw e
  end.

Notation "x <- m ;; k" := (bind m (fun x => k))
  (at level 61, m at next level, right associativity).

(* ------------------------------------------------------------------ *)
(** ** The SWC registry (package [swc-registry]) *)

Record SWCRelationships : Type := mkSWCRelationships {
  Category : option jsstring;
  References : option (list jsstring)
}.

Inductive RelationshipsField : Type :=
| RelString (s : jsstring)
| RelObject (r : SWCRelationships).

Record EntryContent : Type := mkEntryContent {
  content_Title : jsstring;
  content_Relationships : option RelationshipsField;
  content_Description : jsstring;
  content_Remediation : jsstring
}.

Record SWCEntry : Type := mkSWCEntry {
  markdown : jsstring;
  content : EntryContent
}.

Record EntryData : Type := mkEntryData {
  Id : jsstring;
  entry_markdown : jsstring;
  Title : jsstring;
  Relationships : option RelationshipsField;
  Description : jsstring;
  Remediation : jsstring
}.

(** [case s of] over string literals. *)
Definition eqlit (a : jsstring) (s : string) : bool := str_eqb a (lit s).

(** The four severities, in the fixed order of the report. *)
Inductive Impact : Type := High | Medium | Low | Informational.

Definition impactName (sev : Impact) : jsstring :=
  match sev with
  | High => lit "High"
  | Medium => lit "Medium"
  | Low => lit "Low"
  | Informational => lit "Informational"
  end.

Definition order : list Impact := [High; Medium; Low; Informational].

(** Property names that every object literal inherits from
    [Object.prototype]; reading one of them never gives [undefined]. *)
Definition objectPrototypeNames : list jsstring :=
  map lit
    ["constructor"; "__proto__"; "hasOwnProperty"; "isPrototypeOf";
     "propertyIsEnumerable"; "toLocaleString"; "toString"; "valueOf";
     "__defineGetter__"; "__defineSetter__"; "__lookupGetter__";
     "__lookupSetter__"]%string.

Definition objectPrototypeHas (k : jsstring) : bool :=
  existsb (str_eqb k) objectPrototypeNames.

(** Raw detector records of the Slither report. *)
Record SourceMapping : Type := mkSourceMapping {
  filename_relative : option jsstring;
  lines : option (list Z)
}.

Record DetectorElement : Type := mkDetectorElement {
  name : option jsstring;
  source_mapping : option SourceMapping
}.

Record DetectorResult : Type := mkDetectorResult {
  d_check : jsstring;
  d_impact : jsstring;
  d_confidence : jsstring;
  d_description : jsstring;
  elements : option (list DetectorElement)
}.

(** Argument of [normalizeIssue]. *)
Record IssueInput : Type := mkIssueInput {
  in_check : jsstring;
  in_impact : jsstring;
  in_confidence : jsstring;
  in_description : option jsstring;
  in_locations : list Location;
  in_facts : option Facts;
  in_swc : option SWCMeta
}.

(** Outcome of the single call to the candidate generator:
    [await fetch(...)] followed by [await aiRes.json()]. *)
Record OllamaResponse : Type := mkOllamaResponse {
  response : option jsstring;
  error : option jsstring
}.

Inductive BodyOutcome : Type :=
| JsonRejects (e : exn)
| JsonResolves (data : OllamaResponse).

Inductive GeneratorOutcome : Type :=
| FetchRejects (e : exn)
| FetchNeverSettles
| FetchResolves (body : BodyOutcome).

(** What a caller of [runAudit] observes, together with the content
    written to [audit-summary.md] (if any). *)
Inductive Outcome : Type :=
| Returned (md : jsstring) (written : option jsstring)
| Threw (e : exn)
| NeverSettles.

Section Pipeline.

(** [String.prototype.toLowerCase], a primitive of the runtime. *)
Variable toLowerCase : jsstring -> jsstring.

(** The registry [swc-registry/lib/swc-definition.json], by identifier. *)
Variable swcData : jsstring -> option SWCEntry.

Definition getSWCEntry (id : jsstring) : option EntryData :=
  match swcData id with
  | None => None
  | Some entry =>
      Some (mkEntryData id (markdown entry)
              (content_Title (content entry))
              (content_Relationships (content entry))
              (content_Description (content entry))
              (content_Remediation (content entry)))
  end.

Definition getReferences (entry : EntryData) : list jsstring :=
  match Relationships entry with
  | Some (RelObject r) =>
      match References r with
      | Some refs => refs
      | None => []
      end
  | _ => []
  end.

(** *** SWC enrichment.  [None] stands for both [null] and [undefined]:
    callers only test the result for truthiness. *)

Definition enrichWithSWCByDescription (description : option jsstring) : option EntryData :=
  match description with
  | None => None
  | Some d =>
      if negb (truthy d) then None
      else
        let lower := toLowerCase d in
        if includes lower (lit "integer overflow") || includes lower (lit "underflow")
        then getSWCEntry (lit "SWC-101")
        else if includes lower (lit "tx.origin") then getSWCEntry (lit "SWC-115")
        else None
  end.

Definition enrichWithSWC (check : jsstring) (description : option jsstring) : option EntryData :=
  if eqlit check "controlled-delegatecall" then getSWCEntry (lit "SWC-112")
  else if eqlit check "reentrancy-no-eth" then getSWCEntry (lit "SWC-107")
  else if eqlit check "reentrancy-benign" then getSWCEntry (lit "SWC-107")
  else if eqlit check "low-level-calls" then getSWCEntry (lit "SWC-104")
  else if eqlit check "missing-zero-check" then None
  else enrichWithSWCByDescription description.

Definition deriveFacts (desc : option jsstring) : Facts :=
  let d := toLowerCase (match desc with Some s => s | None => [] end) in
  {| writesAfterCall := includes d (lit "state variables written after the call");
     mentionsDelegatecall := includes d (lit "delegatecall");
     mentionsLowLevelCall := includes d (lit " call(") || includes d (lit ".call(");
     exactStylePhrase := includes d (lit "not in mixedcase");
     mentionsZeroCheck := includes d (lit "lacks a zero-check") || includes d (lit "zero-check") |}.

Definition friendlyTitle (check : jsstring) : jsstring :=
  if eqlit check "controlled-delegatecall" then lit "Controlled Delegatecall"
  else if eqlit check "reentrancy-no-eth" then lit "Reentrancy (no ETH)"
  else if eqlit check "reentrancy-benign" then lit "Reentrancy (benign)"
  else if eqlit check "missing-zero-check" then lit "Missing zero-check (address)"
  else if eqlit check "low-level-calls" then lit "Low-level calls"
  else if eqlit check "naming-convention" then lit "Naming convention"
  else check.

Definition normalizeIssue (issue : IssueInput) : NormalizedIssue :=
  {| check := in_check issue;
     title := friendlyTitle (in_check issue);
     impact := in_impact issue;
     confidence := in_confidence issue;
     description := match in_description issue with Some d => d | None => [] end;
     locations := in_locations issue;
     facts := match in_facts issue with
              | Some f => f
              | None => deriveFacts (in_description issue)
              end;
     swc := in_swc issue |}.

(* ------------------------------------------------------------------ *)
(** *** Deterministic renderer *)

(** [byImpact]: the own properties of the object literal, in insertion
    order.  A key that is not an own property is looked up on
    [Object.prototype]. *)
Definition byImpactInit : list (jsstring * list NormalizedIssue) :=
  [(impactName High, []); (impactName Medium, []);
   (impactName Low, []); (impactName Informational, [])].

(** [(byImpact[it.impact] ?? (byImpact[it.impact] = [])).push(it)];
    an inherited property is not nullish and has no [push]. *)
Definition byImpactPush (byImpact : list (jsstring * list NormalizedIssue))
    (it : NormalizedIssue) : result (list (jsstring * list NormalizedIssue)) :=
  match Map_get byImpact (impact it) with
  | Some bucket => Ok (Map_set byImpact (impact it) (bucket ++ [it]))
  | None =>
      if objectPrototypeHas (impact it) then Throw TypeError
      else Ok (Map_set byImpact (impact it) [it])
  end.

Fixpoint byImpactFill (byImpact : list (jsstring * list NormalizedIssue))
    (items : list NormalizedIssue) : result (list (jsstring * list NormalizedIssue)) :=
  match items with
  | [] => Ok byImpact
  | it :: rest =>
      b <- byImpactPush byImpact it ;;
      byImpactFill b rest
  end.

(** [byImpact[sev] ?? []] for one of the four severities. *)
Definition bucketOf (byImpact : list (jsstring * list NormalizedIssue)) (sev : Impact)
    : list NormalizedIssue :=
  match Map_get byImpact (impactName sev) with
  | Some bucket => bucket
  | None => []
  end.

Definition riskOf (it : NormalizedIssue) : jsstring :=
  if eqlit (check it) "controlled-delegatecall" then
    lit "Uses `delegatecall` to an input-controlled target, executing code in the caller"
    ++ [8217%N] ++ lit "s context."
  else if eqlit (check it) "reentrancy-no-eth" then
    lit "External call occurs before a state write, enabling reentrancy before effects are applied. A state variable is written after an external call."
  else if eqlit (check it) "reentrancy-benign" then
    lit "External call followed by a state write (marked benign by Slither for this context). A state variable is written after an external call."
  else if eqlit (check it) "missing-zero-check" then
    lit "Target address parameter lacks a `!= address(0)` validation."
  else if eqlit (check it) "low-level-calls" then
    lit "Uses low-level calls (`call`/`delegatecall`) that bypass type safety and can fail silently."
  else if eqlit (check it) "naming-convention" then
    lit "Variable is not in mixedCase."
  else if truthy (description it) then description it
  else lit "See description.".

Definition remediationOf (it : NormalizedIssue) : jsstring :=
  if eqlit (check it) "controlled-delegatecall" then
    lit "Avoid `delegatecall` to untrusted targets; restrict to immutable/whitelisted addresses or replace with interface calls."
  else if eqlit (check it) "reentrancy-no-eth" then
    lit "Apply Checks" ++ [8211%N] ++ lit "Effects" ++ [8211%N]
    ++ lit "Interactions and/or a reentrancy guard; validate/limit the callee."
  else if eqlit (check it) "reentrancy-benign" then
    lit "Prefer CEI or a guard if the function can be externally triggered."
  else if eqlit (check it) "missing-zero-check" then
    lit "Validate non-zero addresses and check `success` for low-level calls."
  else if eqlit (check it) "low-level-calls" then
    lit "Prefer typed interface calls; if using low-level calls, check `success` and handle returned data."
  else if eqlit (check it) "naming-convention" then
    lit "Rename variables to mixedCase (e.g., `sVariable`, `sOtherVar`)."
  else lit "Follow best practices for this category.".

(** [/\w+\s*\(.*\)/] *)
Definition functionishRegex : regex :=
  Seq (Plus true (Class isWordChar))
    (Seq (Star true (Class isWhiteSpace))
       (Seq (Lit 40%N) (Seq (Star true (Class isDot)) (Lit 41%N)))).

Definition functionChecks : list jsstring :=
  map lit ["controlled-delegatecall"; "reentrancy-no-eth";
           "reentrancy-benign"; "low-level-calls"]%string.

(** [locs.find((l) => l.line != null)?.line ?? null] *)
Definition firstLine (locs : list Location) : option Z :=
  match find (fun l => match line l with Some _ => true | None => false end) locs with
  | Some l => line l
  | None => None
  end.

Definition headerLinesOf (it : NormalizedIssue) : list jsstring :=
  let locs := locations it in
  let main := nth_error locs 0 in
  let elem :=
    let e := firstNamedElement locs in
    if truthy e then e else lit "N/A" in
  let isFunctionish :=
    test functionishRegex elem || existsb (str_eqb (check it)) functionChecks in
  let label := if isFunctionish then lit "Function" else lit "Element" in
  let line := firstLine locs in
  let contract :=
    lit "- Contract: "
    ++ match main with Some l => file l | None => lit "(unknown file)" end in
  let locList := formatLocations locs in
  if (1 <? List.length locList)%nat then
    [contract] ++ [lit "- Locations:"] ++ locList
  else
    [contract]
    ++ [lit "- " ++ label ++ lit ": `" ++ elem ++ lit "`"
        ++ match line with
           | Some n => if Z.eqb n 0 then [] else lit " (line " ++ numberToString n ++ lit ")"
           | None => []
           end].

Definition swcLinesOf (it : NormalizedIssue) : jsstring :=
  match swc it with
  | Some s =>
      join NL
        (filter truthy
           [lit "- **SWC:** "
            ++ match swc_id s with
               | Some i => if truthy i then i ++ lit ": " else []
               | None => []
               end
            ++ swc_title s;
            if truthy (swc_remediation s)
            then lit "- **SWC Remediation:** " ++ swc_remediation s else [];
            match swc_references s with
            | [] => []
            | _ :: _ =>
                lit "- **References:**" ++ NL
                ++ join NL (map (fun r => lit "  - " ++ r) (swc_references s))
            end])
  | None => []
  end.

Definition renderOne (it : NormalizedIssue) : jsstring :=
  join NL
    ([lit "## " ++ friendlyTitle (check it)]
     ++ headerLinesOf it
     ++ [lit "- Confidence: " ++ confidence it;
         lit "- Issue: " ++ riskOf it;
         lit "- Recommendation: " ++ remediationOf it;
         swcLinesOf it;
         []]).

Definition sectionOf (byImpact : list (jsstring * list NormalizedIssue)) (sev : Impact)
    : jsstring :=
  let body := join NL (map renderOne (bucketOf byImpact sev)) in
  lit "# " ++ impactName sev ++ lit " Impact Findings" ++ NL ++ NL ++ body.

Definition noVulnerabilities (address : jsstring) : jsstring :=
  [9989%N] ++ lit " No vulnerabilities found by Slither for " ++ address ++ lit ".".

Definition renderMarkdownDeterministic (address : jsstring) (items : list NormalizedIssue)
    : result jsstring :=
  byImpact <- byImpactFill byImpactInit items ;;
  let sections :=
    join NL
      (map (sectionOf byImpact)
         (filter (fun sev => negb (Nat.eqb (List.length (bucketOf byImpact sev)) 0)) order)) in
  Ok (if truthy sections then sections else noVulnerabilities address).

(* ------------------------------------------------------------------ *)
(** *** Validation utilities *)

(** The accumulator of [countsByImpact].  An impact that names an inherited
    property is given a string value that is never read back as a count;
    it leaves the numeric entries untouched. *)
Definition countsInit : list (jsstring * nat) :=
  [(impactName High, 0); (impactName Medium, 0);
   (impactName Low, 0); (impactName Informational, 0)].

Definition countsStep (acc : list (jsstring * nat)) (imp : jsstring) : list (jsstring * nat) :=
  match Map_get acc imp with
  | Some n => Map_set acc imp (n + 1)
  | None => if objectPrototypeHas imp then acc else Map_set acc imp (0 + 1)
  end.

Definition countsByImpact (items : list jsstring) : Impact -> nat :=
  let acc := fold_left countsStep items countsInit in
  fun sev => match Map_get acc (impactName sev) with Some n => n | None => 0 end.

(** [new RegExp(`^# ${sev} Impact Findings\\s*$`, "m")] *)
Definition headingRegex (sev : Impact) : regex :=
  Seq BolM
    (Seq (Lits (lit "# " ++ impactName sev ++ lit " Impact Findings"))
       (Seq (Star true (Class isWhiteSpace)) EolM)).

(** [/^## /gm] and [/^### /gm] *)
Definition h2Regex : regex := Seq BolM (Lits (lit "## ")).
Definition h3Regex : regex := Seq BolM (Lits (lit "### ")).

Definition parseCountsFromMarkdown (md : jsstring) : Impact -> nat :=
  fun sev =>
    let section := nth 1 (split (headingRegex sev) md) [] in
    let count2 := matchCount h2Regex section in
    let count3 := matchCount h3Regex section in
    Nat.max count2 count3.

(** [/\]\(#.+?\)/] *)
Definition anchorRegex : regex :=
  Seq (Lits (lit "](#")) (Seq (Plus false (Class isDot)) (Lit 41%N)).

Definition containsForbiddenAnchors (md : jsstring) : bool := test anchorRegex md.

Definition writesAfterCallSentence : jsstring :=
  lit "A state variable is written after an external call.".

Definition missingWritesAfterCallSentence (md : jsstring) (items : list NormalizedIssue) : bool :=
  let needs := existsb (fun i => writesAfterCall (facts i)) items in
  if negb needs then false
  else negb (includes md writesAfterCallSentence).

Definition validateOrFallback (md : jsstring) (enrichedIssues : list NormalizedIssue) : bool :=
  let expected := countsByImpact (map impact enrichedIssues) in
  let seen := parseCountsFromMarkdown md in
  let countsOk := forallb (fun sev => Nat.eqb (expected sev) (seen sev)) order in
  let anchorsOk := negb (containsForbiddenAnchors md) in
  let writesOk := negb (missingWritesAfterCallSentence md enrichedIssues) in
  countsOk && anchorsOk && writesOk.

(* ------------------------------------------------------------------ *)
(** *** Orchestrator

    [runAudit] from the parsed Slither report onwards.  Fetching the
    sources and running the analyser come before and are not modelled.
    [rendererEnv] is [process.env.AUDIT_RENDERER]; [generator] is the
    outcome of the one call to the candidate generator (the prompt it is
    sent is not modelled). *)

Definition locationOfElement (e : DetectorElement) : Location :=
  {| file := match source_mapping e with
             | Some sm => match filename_relative sm with Some f => f | None => [] end
             | None => []
             end;
     line := match source_mapping e with
             | Some sm => match lines sm with Some ls => nth_error ls 0 | None => None end
             | None => None
             end;
     element := match name e with Some n => n | None => [] end |}.

Definition issueOfDetector (d : DetectorResult) : IssueInput :=
  {| in_check := d_check d;
     in_impact := d_impact d;
     in_confidence := d_confidence d;
     in_description := Some (d_description d);
     in_locations := map locationOfElement
                       (match elements d with Some es => es | None => [] end);
     in_facts := Some (deriveFacts (Some (d_description d)));
     in_swc := None |}.

Definition enrichIssue (issue : IssueInput) : NormalizedIssue :=
  let swcEntry := enrichWithSWC (in_check issue) (in_description issue) in
  normalizeIssue
    {| in_check := in_check issue;
       in_impact := in_impact issue;
       in_confidence := in_confidence issue;
       in_description := in_description issue;
       in_locations := in_locations issue;
       in_facts := in_facts issue;
       in_swc := match swcEntry with
                 | Some e =>
                     Some {| swc_id := Some (Id e);
                             swc_title := Title e;
                             swc_remediation := Remediation e;
                             swc_references := getReferences e |}
                 | None => None
                 end |}.

Definition enrichedIssuesOf (detectors : option (list DetectorResult)) : list NormalizedIssue :=
  groupByCheckAndElement
    (map enrichIssue
       (map issueOfDetector (match detectors with Some ds => ds | None => [] end))).

Definition noVulnerabilitiesForContract (address : jsstring) : jsstring :=
  [9989%N] ++ lit " No vulnerabilities found by Slither for this contract ("
  ++ address ++ lit ").".

(** Write [md] to [audit-summary.md] and return it. *)
Definition writeAndReturn (md : result jsstring) : Outcome :=
  match md with
  | Ok text => Returned text (Some text)
  | Throw e => Threw e
  end.

Definition runAudit (rendererEnv : option jsstring) (address : jsstring)
    (detectors : option (list DetectorResult)) (generator : GeneratorOutcome) : Outcome :=
  let issues := map issueOfDetector (match detectors with Some ds => ds | None => [] end) in
  if Nat.eqb (List.length issues) 0 then
    Returned (noVulnerabilitiesForContract address) None
  else
    let enrichedIssues := groupByCheckAndElement (map enrichIssue issues) in
    if match rendererEnv with Some v => eqlit v "deterministic" | None => false end then
      writeAndReturn (renderMarkdownDeterministic address enrichedIssues)
    else
      match generator with
      | FetchRejects e => Threw e
      | FetchNeverSettles => NeverSettles
      | FetchResolves (JsonRejects e) => Threw e
      | FetchResolves (JsonResolves data) =>
          let md := match response data with Some r => r | None => [] end in
          if negb (validateOrFallback md enrichedIssues)
          then writeAndReturn (renderMarkdownDeterministic address enrichedIssues)
          else writeAndReturn (Ok md)
      end.

End Pipeline.

(* ------------------------------------------------------------------ *)
(** ** Reading a report back, in the words of the specification

    The definitions of this part do not embed code: they fix what "the
    sub-headings under a severity's section" of a Markdown text are, so
    that the renderer and the validator can be measured against it.  A
    section starts after the severity's top-level heading line and ends
    before the next top-level heading line; a sub-heading is a line that
    starts with [## ] or [### ]. *)

Fixpoint splitLines (s : jsstring) : list jsstring :=
  match s with
  | [] => [[]]
  | c :: s' =>
      if isLineTerminator c then [] :: splitLines s'
      else
        match splitLines s' with
        | l :: ls => (c :: l) :: ls
        | [] => [[c]]
        end
  end.

Definition severityHeading (sev : Impact) : jsstring :=
  lit "# " ++ impactName sev ++ lit " Impact Findings".

Definition isSeverityHeadingLine (sev : Impact) (l : jsstring) : bool :=
  startsWith (severityHeading sev) l
  && forallb isWhiteSpace (skipn (List.length (severityHeading sev)) l).

Definition isTopLevelHeadingLine (l : jsstring) : bool := startsWith (lit "# ") l.

Definition isSubHeadingLine (l : jsstring) : bool :=
  startsWith (lit "## ") l || startsWith (lit "### ") l.

Fixpoint afterHeading (sev : Impact) (ls : list jsstring) : option (list jsstring) :=
  match ls with
  | [] => None
  | l :: rest => if isSeverityHeadingLine sev l then Some rest else afterHeading sev rest
  end.

Fixpoint untilTopLevel (ls : list jsstring) : list jsstring :=
  match ls with
  | [] => []
  | l :: rest => if isTopLevelHeadingLine l then [] else l :: untilTopLevel rest
  end.

Definition sectionLines (sev : Impact) (md : jsstring) : list jsstring :=
  match afterHeading sev (splitLines md) with
  | Some rest => untilTopLevel rest
  | None => []
  end.

Definition subheadingsUnder (sev : Impact) (md : jsstring) : nat :=
  List.length (filter isSubHeadingLine (sectionLines sev md)).

Definition hasSeverityHeading (sev : Impact) (md : jsstring) : bool :=
  existsb (isSeverityHeadingLine sev) (splitLines md).

(** Number of findings of a severity in a finding set. *)
Definition findingsOf (sev : Impact) (items : list NormalizedIssue) : list NormalizedIssue :=
  filter (fun it => str_eqb (impact it) (impactName sev)) items.

(** [toLowerCase] on strings of ASCII code units. *)
Definition toLowerCaseAscii (s : jsstring) : jsstring :=
  map (fun c => if ((65 <=? c)%N && (c <=? 90)%N)%bool then (c + 32)%N else c) s.

(** A registry without entries. *)
Definition emptyRegistry : jsstring -> option SWCEntry := fun _ => None.

(** The check identifiers with an entry in the [switch] of
    [enrichWithSWC]. *)
Definition inIdentifierTable (check : jsstring) : bool :=
  eqlit check "controlled-delegatecall"
  || eqlit check "reentrancy-no-eth"
  || eqlit check "reentrancy-benign"
  || eqlit check "low-level-calls"
  || eqlit check "missing-zero-check".

(** An impact that is one of the four severities. *)
Definition recognised (imp : jsstring) : bool :=
  existsb (fun sev => str_eqb imp (impactName sev)) order.

(** A line that does not start with [#]. *)
Definition plain (l : jsstring) : bool := negb (startsWith (lit "#") l).

(** A code unit that neither breaks the line nor is [#]. *)
Definition plainChar (c : codeunit) : bool :=
  negb (isLineTerminator c) && negb (N.eqb c 35).

(** A text none of whose lines starts with [#]. *)
Definition linesPlain (s : jsstring) : bool := forallb plain (splitLines s).

Definition plainLocation (l : Location) : bool :=
  linesPlain (file l) && linesPlain (element l).

(** A finding in whose texts no line starts with [#]. *)
Definition plainIssue (it : NormalizedIssue) : bool :=
  linesPlain (check it) && linesPlain (confidence it) && linesPlain (description it)
  && forallb plainLocation (locations it)
  && match swc it with
     | Some s =>
         match swc_id s with Some i => linesPlain i | None => true end
         && linesPlain (swc_title s) && linesPlain (swc_remediation s)
         && forallb linesPlain (swc_references s)
     | None => true
     end.

(* ------------------------------------------------------------------ *)
(** ** The report of the renderer, part by part

    The renderer joins parts with line feeds; a part is one line, or
    several when a text of the finding has line breaks. *)

Definition swcParts (it : NormalizedIssue) : list jsstring :=
  match swc it with
  | Some s =>
      [lit "- **SWC:** "
       ++ match swc_id s with
          | Some i => if truthy i then i ++ lit ": " else []
          | None => []
          end
       ++ swc_title s]
      ++ (if truthy (swc_remediation s)
          then [lit "- **SWC Remediation:** " ++ swc_remediation s] else [])
      ++ match swc_references s with
         | [] => []
         | _ :: _ =>
             lit "- **References:**"
               :: map (fun r => lit "  - " ++ r) (swc_references s)
         end
  | None => [[]]
  end.

Definition blockTail (it : NormalizedIssue) : list jsstring :=
  headerLinesOf it
  ++ [lit "- Confidence: " ++ confidence it;
      lit "- Issue: " ++ riskOf it;
      lit "- Recommendation: " ++ remediationOf it]
  ++ swcParts it ++ [[]].

Definition blockParts (it : NormalizedIssue) : list jsstring :=
  (lit "## " ++ friendlyTitle (check it)) :: blockTail it.

Definition sectionParts (sev : Impact) (items : list NormalizedIssue) : list jsstring :=
  match findingsOf sev items with
  | [] => []
  | _ :: _ =>
      severityHeading sev :: [] :: List.concat (map blockParts (findingsOf sev items))
  end.

Definition reportParts (items : list NormalizedIssue) (sevs : list Impact) : list jsstring :=
  List.concat (map (fun sev => sectionParts sev items) sevs).

(** The lines of a list of parts. *)
Definition linesOf (parts : list jsstring) : list jsstring :=
  List.concat (map splitLines parts).

(** The text of the report when no bucket lookup throws. *)
Definition reportText (address : jsstring) (items : list NormalizedIssue) : jsstring :=
  let sections :=
    join NL
      (map (fun sev =>
              severityHeading sev ++ NL ++ NL
              ++ join NL (map renderOne (findingsOf sev items)))
         (filter (fun sev => negb (Nat.eqb (List.length (findingsOf sev items)) 0)) order)) in
  if truthy sections then sections else noVulnerabilities address.

(** A text without colon. *)
Definition colonFree (s : jsstring) : bool := forallb (fun c => negb (N.eqb c 58)) s.

(** The printed line of a location, as it enters the key. *)
Definition lineText (l : Location) : jsstring :=
  match line l with Some n => numberToString n | None => [] end.

(* ------------------------------------------------------------------ *)
(** ** The grouper, in the words of the specification *)

(** The checks the grouper merges. *)
Definition eligible (it : NormalizedIssue) : bool := str_eqb (check it) missingZeroCheck.

(** Element name of the first location ("" without location). *)
Definition firstLocationElement (locs : list Location) : jsstring :=
  match locs with
  | l :: _ => element l
  | [] => []
  end.

(** [primarySymbol locs s]: [s] is the element name of the first location
    of [locs] whose element name is not empty, and the empty string when
    there is none. *)
Inductive primarySymbol : list Location -> jsstring -> Prop :=
| primary_none : primarySymbol [] []
| primary_here l rest : element l <> [] -> primarySymbol (l :: rest) (element l)
| primary_skip l rest s :
    element l = [] -> primarySymbol rest s -> primarySymbol (l :: rest) s.

(** The findings that open a group: those whose key no earlier finding of
    the list has. *)
Fixpoint firstInstancesFrom (seen : list jsstring) (items : list NormalizedIssue)
    : list NormalizedIssue :=
  match items with
  | [] => []
  | it :: rest =>
      if Set_has seen (groupKey it) then firstInstancesFrom seen rest
      else it :: firstInstancesFrom (seen ++ [groupKey it]) rest
  end.

Definition firstInstances (items : list NormalizedIssue) : list NormalizedIssue :=
  firstInstancesFrom [] items.

Definition sameGroup (a b : NormalizedIssue) : bool := str_eqb (groupKey b) (groupKey a).

(** The first instance [it] of a key, with the union of the locations of
    all the instances of its key among [candidates]. *)
Definition mergeGroup (candidates : list NormalizedIssue) (it : NormalizedIssue)
    : NormalizedIssue :=
  set_locations it
    (uniqueLocations
       (List.concat (map locations (filter (sameGroup it) candidates)))).

(** One merged finding per key, in the order in which the keys first
    appear. *)
Definition mergedGroups (items : list NormalizedIssue) : list NormalizedIssue :=
  let candidates := filter eligible items in
  map (mergeGroup candidates) (firstInstances candidates).

(** The loop of the grouper on the eligible findings alone. *)
Definition groupMapStep (grouped : list (jsstring * NormalizedIssue)) (it : NormalizedIssue)
    : list (jsstring * NormalizedIssue) :=
  match Map_get grouped (groupKey it) with
  | Some existing =>
      Map_set grouped (groupKey it)
        (set_locations existing
           (uniqueLocations (locations existing ++ locations it)))
  | None =>
      Map_set grouped (groupKey it) (set_locations it (uniqueLocations (locations it)))
  end.

(* ------------------------------------------------------------------ *)
(** ** Sample findings and candidates *)

Definition noFacts : Facts := mkFacts false false false false false.
Definition writeFacts : Facts := mkFacts true false false false false.

Definition sampleIssue (check impact : string) (locs : list Location) (f : Facts)
    : NormalizedIssue :=
  mkIssue (lit check) (lit check) (lit impact) (lit "Medium") (lit "see the report")
          locs f None.

Definition reentrancyIssue : NormalizedIssue :=
  sampleIssue "reentrancy-no-eth" "Medium"
    [mkLocation (lit "src/Vault.sol") (Some 18%Z) (lit "withdraw()")] writeFacts.

Definition namingIssue : NormalizedIssue :=
  sampleIssue "naming-convention" "Low"
    [mkLocation (lit "src/Vault.sol") (Some 5%Z) (lit "s_total")] noFacts.

Definition candidateWithSentence : jsstring :=
  lit "# Medium Impact Findings" ++ NL ++ NL ++ lit "## Reentrancy (no ETH)" ++ NL
  ++ lit "A state variable is written after an external call." ++ NL.

Definition candidateWithoutSentence : jsstring :=
  lit "# Medium Impact Findings" ++ NL ++ NL ++ lit "## Reentrancy (no ETH)" ++ NL
  ++ lit "A state variable is written after the call." ++ NL.

Definition zeroCheckUnnamedFirst : NormalizedIssue :=
  sampleIssue "missing-zero-check" "Low"
    [mkLocation (lit "src/Vault.sol") (Some 3%Z) [];
     mkLocation (lit "src/Vault.sol") (Some 7%Z) (lit "owner")] noFacts.

Definition zeroCheckOwner : NormalizedIssue :=
  sampleIssue "missing-zero-check" "Low"
    [mkLocation (lit "src/Vault.sol") (Some 12%Z) (lit "owner")] noFacts.

Definition zeroCheckLate : NormalizedIssue :=
  sampleIssue "missing-zero-check" "Low"
    [mkLocation (lit "src/Vault.sol") (Some 30%Z) (lit "owner")] noFacts.

(** Two locations that differ in file and element and have the same key
    [lib:::]. *)
Definition colonInFile : Location := mkLocation (lit "lib:") None [].
Definition colonInElement : Location := mkLocation (lit "lib") None (lit ":").

Definition zeroCheckColon : NormalizedIssue :=
  sampleIssue "missing-zero-check" "Low" [colonInFile; colonInElement] noFacts.

Definition zeroCheckUnnamed : NormalizedIssue :=
  sampleIssue "missing-zero-check" "Low"
    [mkLocation (lit "src/Vault.sol") (Some 4%Z) []] noFacts.

Definition constructorIssue : NormalizedIssue :=
  sampleIssue "unused-return" "constructor"
    [mkLocation (lit "src/Vault.sol") (Some 9%Z) (lit "sweep()")] noFacts.

Definition highIssueA : NormalizedIssue :=
  sampleIssue "controlled-delegatecall" "High"
    [mkLocation (lit "src/Vault.sol") (Some 8%Z) (lit "forward(address)")] noFacts.

Definition highIssueB : NormalizedIssue :=
  sampleIssue "arbitrary-send-eth" "High"
    [mkLocation (lit "src/Vault.sol") (Some 40%Z) (lit "drain()")] noFacts.

Definition mediumIssue : NormalizedIssue :=
  sampleIssue "unused-return" "Medium"
    [mkLocation (lit "src/Vault.sol") (Some 9%Z) (lit "sweep()")] noFacts.

(** A candidate with one sub-heading under High and one under Medium. *)
Definition candidateOneHigh : jsstring :=
  lit "# High Impact Findings" ++ NL ++ NL
  ++ lit "## Controlled Delegatecall" ++ NL ++ NL
  ++ lit "# Medium Impact Findings" ++ NL ++ NL
  ++ lit "## unused-return" ++ NL.

Definition sampleDetector : DetectorResult :=
  mkDetectorResult (lit "unused-return") (lit "Medium") (lit "Medium")
    (lit "Vault.sweep() ignores return value")
    (Some [mkDetectorElement (Some (lit "sweep()"))
             (Some (mkSourceMapping (Some (lit "src/Vault.sol")) (Some [9%Z; 10%Z])))]).

Definition connectionRefused : exn := NetworkError (lit "fetch failed").

(** Findings of an unlisted check whose description has a second line. *)
Definition secondLineSubHeading : NormalizedIssue :=
  mkIssue (lit "unused-return") (lit "unused-return") (lit "High") (lit "Medium")
    (lit "Vault.sweep() ignores return value" ++ NL ++ lit "## Reference")
    [mkLocation (lit "src/Vault.sol") (Some 9%Z) (lit "sweep()")] noFacts None.

Definition secondLineHeading : NormalizedIssue :=
  mkIssue (lit "unused-return") (lit "unused-return") (lit "High") (lit "Medium")
    (lit "Vault.sweep() ignores return value" ++ NL ++ lit "# Low Impact Findings")
    [mkLocation (lit "src/Vault.sol") (Some 9%Z) (lit "sweep()")] noFacts None.

(** A finding of an unlisted check with a description of three lines. *)
Definition multiLineIssue : NormalizedIssue :=
  mkIssue (lit "unused-return") (lit "unused-return") (lit "Medium") (lit "Medium")
    (lit "Vault.sweep() ignores return value by:" ++ NL
     ++ [9%N] ++ lit "- token.transfer(owner,amount)" ++ NL)
    [mkLocation (lit "src/Vault.sol") (Some 9%Z) (lit "sweep()")] noFacts None.

(* ------------------------------------------------------------------ *)
(** ** Further readings of the code *)

(** The row [formatLocations] prints for a location. *)
Definition formatRow (l : Location) : jsstring :=
  lit "  - " ++ file l
  ++ match line l with Some n => lit ":" ++ numberToString n | None => [] end
  ++ (if truthy (element l) then lit " (element: " ++ element l ++ lit ")" else []).

Definition sampleLocations : list Location :=
  [mkLocation (lit "src/Vault.sol") (Some 8%Z) (lit "forward(address)");
   mkLocation (lit "src/Vault.sol") (Some 9%Z) (lit "target.delegatecall(data)");
   mkLocation (lit "src/Vault.sol") (Some 8%Z) (lit "forward(address)")].

Definition highIssueTwoSites : NormalizedIssue :=
  sampleIssue "controlled-delegatecall" "High" sampleLocations noFacts.

(** The loop of [rmatch] on [Star greedy r], by name. *)
Definition starLoop (r : regex) (greedy : bool)
    (k : option codeunit -> jsstring -> option mstate)
    : nat -> option codeunit -> jsstring -> option mstate :=
  fix loop (fuel : nat) (prev : option codeunit) (s : jsstring) : option mstate :=
    match fuel with
    | O => k prev s
    | S fuel' =>
        let more _ :=
          rmatch r prev s
            (fun p s' =>
               if (List.length s' <? List.length s)%nat
               then loop fuel' p s' else None) in
        if greedy then
          match more tt with
          | Some m => Some m
          | None => k prev s
          end
        else
          match k prev s with
          | Some m => Some m
          | None => more tt
          end
    end.

Definition anchorText : jsstring := lit "](#".

Definition candidateWithAnchor : jsstring :=
  lit "# High Impact Findings" ++ NL ++ NL ++ lit "## Controlled Delegatecall" ++ NL
  ++ lit "See [details](#controlled-delegatecall) below." ++ NL.

Definition optimizationIssue : NormalizedIssue :=
  sampleIssue "constable-states" "Optimization"
    [mkLocation (lit "src/Vault.sol") (Some 2%Z) (lit "fee")] noFacts.

Definition sampleRegistry : jsstring -> option SWCEntry :=
  fun id =>
    if eqlit id "SWC-107" then
      Some (mkSWCEntry (lit "# Title" ++ NL ++ lit "Reentrancy")
              (mkEntryContent (lit "Reentrancy")
                 (Some (RelObject (mkSWCRelationships None
                                     (Some [lit "https://swcregistry.io/docs/SWC-107"]))))
                 (lit "An external call lets the callee re-enter the caller.")
                 (lit "Use the checks-effects-interactions pattern.")))
    else None.

Definition optimizationDetector : DetectorResult :=
  mkDetectorResult (lit "constable-states") (lit "Optimization") (lit "High")
    (lit "Vault.fee should be constant")
    (Some [mkDetectorElement (Some (lit "fee"))
             (Some (mkSourceMapping (Some (lit "src/Vault.sol")) (Some [2%Z])))]).

Definition zeroCheckDetector (elem : string) (l : Z) : DetectorResult :=
  mkDetectorResult (lit "missing-zero-check") (lit "Low") (lit "Medium")
    (lit "Vault.setOwner(address) lacks a zero-check on owner")
    (Some [mkDetectorElement (Some (lit elem))
             (Some (mkSourceMapping (Some (lit "src/Vault.sol")) (Some [l])))]).

Definition modelNotFound : OllamaResponse :=
  mkOllamaResponse None (Some (lit "model 'mistral' not found")).

(** The line that opens the location list of a block. *)
Definition locationsLine : jsstring := lit "- Locations:".

(** The contract line of a block: [`- Contract: ${main?.file ?? "(unknown file)"}`]. *)
Definition contractLine (it : NormalizedIssue) : jsstring :=
  lit "- Contract: "
  ++ match nth_error (locations it) 0 with
     | Some l => file l
     | None => lit "(unknown file)"
     end.

(** A text without line break. *)
Definition singleLine (s : jsstring) : bool :=
  forallb (fun c => negb (isLineTerminator c)) s.

(** A text none of whose lines starts with [-]. *)
Definition noDashLine (s : jsstring) : bool :=
  forallb (fun l => negb (startsWith (lit "-") l)) (splitLines s).

Definition noDashLocation (l : Location) : bool :=
  noDashLine (file l) && noDashLine (element l).

(** A finding in whose texts no line starts with [-]. *)
Definition noDashIssue (it : NormalizedIssue) : bool :=
  noDashLine (check it) && noDashLine (confidence it) && noDashLine (description it)
  && forallb noDashLocation (locations it)
  && match swc it with
     | Some s =>
         match swc_id s with Some i => noDashLine i | None => true end
         && noDashLine (swc_title s) && noDashLine (swc_remediation s)
         && forallb noDashLine (swc_references s)
     | None => true
     end.

(** A finding of an unlisted check, reported twice at the same place, with
    a description of several lines. *)
Definition unusedReturnTwice : NormalizedIssue :=
  mkIssue (lit "unused-return") (lit "unused-return") (lit "Medium") (lit "Medium")
    (lit "Vault.sweep() ignores return value by:" ++ NL
     ++ [9%N] ++ lit "- token.transfer(to,amount)" ++ NL)
    [mkLocation (lit "src/Vault.sol") (Some 9%Z) (lit "sweep()");
     mkLocation (lit "src/Vault.sol") (Some 9%Z) (lit "sweep()")]
    noFacts None.

(* ------------------------------------------------------------------ *)
(** ** Basic facts on strings, sets and maps *)

Lemma str_eqb_eq (a b : jsstring) : str_eqb a b = true <-> a = b.
Proof.
  revert b; induction a as [|x a IH]; intros [|y b]; simpl; split; intro H;
    try reflexivity; try discriminate.
  - apply andb_prop in H as [Hx Hs]. apply N.eqb_eq in Hx. apply IH in Hs.
    now subst.
  - injection H as -> ->. rewrite N.eqb_refl. now apply IH.
Qed.

Lemma str_eqb_refl (a : jsstring) : str_eqb a a = true.
Proof. now apply str_eqb_eq. Qed.

Lemma str_eqb_neq (a b : jsstring) : str_eqb a b = false <-> a <> b.
Proof.
  split.
  - intros H E. apply str_eqb_eq in E. congruence.
  - intros H. destruct (str_eqb a b) eqn:E; [|reflexivity].
    apply str_eqb_eq in E. contradiction.
Qed.

Lemma str_eqb_sym (a b : jsstring) : str_eqb a b = str_eqb b a.
Proof.
  destruct (str_eqb a b) eqn:E.
  - apply str_eqb_eq in E. subst. now rewrite str_eqb_refl.
  - symmetry. apply str_eqb_neq. apply str_eqb_neq in E. congruence.
Qed.

Lemma Set_has_In (seen : list jsstring) (k : jsstring) :
  Set_has seen k = true <-> In k seen.
Proof.
  unfold Set_has. rewrite existsb_exists. split.
  - intros [x [Hin Heq]]. apply str_eqb_eq in Heq. now subst.
  - intros Hin. exists k. split; [assumption | apply str_eqb_refl].
Qed.

Lemma Set_add_In (seen : list jsstring) (k x : jsstring) :
  In x (Set_add seen k) <-> x = k \/ In x seen.
Proof.
  unfold Set_add. destruct (Set_has seen k) eqn:E.
  - apply Set_has_In in E. split; [now right | intros [->|H]; assumption].
  - rewrite in_app_iff. simpl. intuition.
Qed.

Lemma Set_has_add (seen : list jsstring) (k x : jsstring) :
  Set_has (Set_add seen k) x = str_eqb x k || Set_has seen x.
Proof.
  apply eq_true_iff_eq. rewrite orb_true_iff, !Set_has_In, Set_add_In, str_eqb_eq.
  reflexivity.
Qed.

Lemma startsWith_inv (p s : jsstring) :
  startsWith p s = true -> exists t, s = p ++ t.
Proof.
  revert s; induction p as [|c p IH]; intros s H; simpl in *.
  - now exists s.
  - destruct s as [|d s]; [discriminate|].
    apply andb_prop in H as [Hc Hp]. apply N.eqb_eq in Hc. subst d.
    destruct (IH _ Hp) as [t ->]. now exists t.
Qed.

(* ------------------------------------------------------------------ *)
(** ** Mandatory sentence (validator) *)

(** C7.  When some finding has the fact "state variables written after the
    call", the validator rejects every candidate that lacks the fixed
    sentence.  For every candidate that contains the sentence the sentence
    check passes: the validator's verdict is then that of the counts and
    the anchors alone, so that it accepts the candidate exactly when these
    two agree.  When no finding has the fact, the same holds whatever the
    candidate. *)
Theorem mandatory_sentence_fidelity (md : jsstring) (items : list NormalizedIssue) :
  (existsb (fun i => writesAfterCall (facts i)) items = true ->
   includes md writesAfterCallSentence = false ->
   missingWritesAfterCallSentence md items = true
   /\ validateOrFallback md items = false)
  /\ (includes md writesAfterCallSentence = true ->
      missingWritesAfterCallSentence md items = false
      /\ validateOrFallback md items
         = forallb (fun sev => Nat.eqb (countsByImpact (map impact items) sev)
                                 (parseCountsFromMarkdown md sev)) order
           && negb (containsForbiddenAnchors md))
  /\ (existsb (fun i => writesAfterCall (facts i)) items = false ->
      missingWritesAfterCallSentence md items = false
      /\ validateOrFallback md items
         = forallb (fun sev => Nat.eqb (countsByImpact (map impact items) sev)
                                 (parseCountsFromMarkdown md sev)) order
           && negb (containsForbiddenAnchors md)).
Proof.
  unfold validateOrFallback, missingWritesAfterCallSentence.
  split; [|split].
  - intros Hneeds Hmiss. rewrite Hneeds, Hmiss. simpl. split; [reflexivity|].
    now rewrite andb_false_r.
  - intros Hin. rewrite Hin.
    assert (Hpass : (if negb (existsb (fun i => writesAfterCall (facts i)) items)
                     then false else negb true) = false)
      by now destruct (existsb _ items).
    rewrite Hpass. split; [reflexivity|]. cbn [negb]. now rewrite andb_true_r.
  - intros Hno. rewrite Hno. simpl. split; [reflexivity|].
    now rewrite andb_true_r.
Qed.

Lemma mandatory_sentence_fidelity_witness :
  validateOrFallback candidateWithoutSentence [reentrancyIssue] = false
  /\ (missingWritesAfterCallSentence candidateWithSentence [reentrancyIssue] = false
      /\ validateOrFallback candidateWithSentence [reentrancyIssue] = true)
  /\ (missingWritesAfterCallSentence candidateWithoutSentence [namingIssue] = false
      /\ validateOrFallback candidateWithoutSentence [namingIssue] = false).
Proof.
  split; [|split].
  - apply (proj1 (mandatory_sentence_fidelity candidateWithoutSentence [reentrancyIssue]));
      reflexivity.
  - exact (proj1 (proj2 (mandatory_sentence_fidelity candidateWithSentence [reentrancyIssue]))
             eq_refl).
  - exact (proj2 (proj2 (mandatory_sentence_fidelity candidateWithoutSentence [namingIssue]))
             eq_refl).
Defined.

(* ------------------------------------------------------------------ *)
(** ** Knowledge enricher *)

(** C9.  For every description the enricher gives no entry for
    [missing-zero-check]; for a check of the identifier table the result
    depends neither on the description nor on the lower-casing that the
    phrase heuristics rely on; and the heuristics decide exactly for the
    checks outside the table. *)
Theorem enricher_table_before_heuristics
    (toLowerCase : jsstring -> jsstring) (swcData : jsstring -> option SWCEntry) :
  (forall description,
      enrichWithSWC toLowerCase swcData missingZeroCheck description = None)
  /\ (forall check, inIdentifierTable check = true ->
      forall toLowerCase' description description',
        enrichWithSWC toLowerCase swcData check description
        = enrichWithSWC toLowerCase' swcData check description')
  /\ (forall check description, inIdentifierTable check = false ->
        enrichWithSWC toLowerCase swcData check description
        = enrichWithSWCByDescription toLowerCase swcData description).
Proof.
  split; [|split].
  - intros description. reflexivity.
  - intros check Htable toLowerCase' description description'.
    unfold inIdentifierTable in Htable. unfold enrichWithSWC.
    destruct (eqlit check "controlled-delegatecall"); [reflexivity|].
    destruct (eqlit check "reentrancy-no-eth"); [reflexivity|].
    destruct (eqlit check "reentrancy-benign"); [reflexivity|].
    destruct (eqlit check "low-level-calls"); [reflexivity|].
    destruct (eqlit check "missing-zero-check"); [reflexivity|].
    discriminate Htable.
  - intros check description Htable.
    unfold inIdentifierTable in Htable. unfold enrichWithSWC.
    destruct (eqlit check "controlled-delegatecall"); [discriminate|].
    destruct (eqlit check "reentrancy-no-eth"); [discriminate|].
    destruct (eqlit check "reentrancy-benign"); [discriminate|].
    destruct (eqlit check "low-level-calls"); [discriminate|].
    destruct (eqlit check "missing-zero-check"); [discriminate|].
    reflexivity.
Qed.

Lemma enricher_table_before_heuristics_witness :
  enrichWithSWC toLowerCaseAscii emptyRegistry (lit "reentrancy-benign")
    (Some (lit "Integer overflow near tx.origin"))
  = enrichWithSWC (fun s => s) emptyRegistry (lit "reentrancy-benign") None
  /\ enrichWithSWC toLowerCaseAscii emptyRegistry (lit "unused-return")
       (Some (lit "Integer overflow near tx.origin"))
     = enrichWithSWCByDescription toLowerCaseAscii emptyRegistry
         (Some (lit "Integer overflow near tx.origin")).
Proof.
  split.
  - apply (proj1 (proj2 (enricher_table_before_heuristics toLowerCaseAscii emptyRegistry)));
      reflexivity.
  - apply (proj2 (proj2 (enricher_table_before_heuristics toLowerCaseAscii emptyRegistry)));
      reflexivity.
Defined.

(* ------------------------------------------------------------------ *)
(** ** Grouping key *)

Lemma firstNamedElement_primary (locs : list Location) :
  primarySymbol locs (firstNamedElement locs).
Proof.
  unfold firstNamedElement.
  induction locs as [|l rest IH]; simpl.
  - constructor.
  - destruct (truthy (element l)) eqn:El.
    + apply primary_here. intros E. now rewrite E in El.
    + apply primary_skip; [|exact IH].
      now destruct (element l).
Qed.

Lemma primarySymbol_functional (locs : list Location) (s s' : jsstring) :
  primarySymbol locs s -> primarySymbol locs s' -> s = s'.
Proof.
  intros H; revert s'.
  induction H as [|l rest Hne|l rest s He H IH]; intros s' H'; inversion H'; subst;
    try reflexivity; try contradiction; try congruence.
  now apply IH.
Qed.

(** C4, as the code has it.  The key of a finding eligible for grouping is
    its check identifier, the separator [@@] and its primary symbol, where
    the primary symbol is the element name of the first location whose
    element name is not empty (the empty string when no location has one);
    two eligible findings have the same key exactly when their (check,
    primary symbol) pairs are equal. *)
Theorem groupKey_primary_symbol (it : NormalizedIssue) :
  eligible it = true ->
  (exists sym,
      primarySymbol (locations it) sym
      /\ groupKey it = check it ++ lit "@@" ++ sym)
  /\ (forall it' sym sym',
        eligible it' = true ->
        primarySymbol (locations it) sym ->
        primarySymbol (locations it') sym' ->
        (groupKey it = groupKey it' <-> (check it, sym) = (check it', sym'))).
Proof.
  intros Hel. split.
  - exists (firstNamedElement (locations it)). split; [|reflexivity].
    apply firstNamedElement_primary.
  - intros it' sym sym' Hel' Hs Hs'.
    rewrite (primarySymbol_functional Hs (firstNamedElement_primary _)).
    rewrite (primarySymbol_functional Hs' (firstNamedElement_primary _)).
    unfold eligible in Hel, Hel'. apply str_eqb_eq in Hel, Hel'.
    unfold groupKey. rewrite Hel, Hel'. split.
    + intros H. apply app_inv_head in H. apply app_inv_head in H. now rewrite H.
    + intros H. injection H as H. now rewrite H.
Qed.

Lemma groupKey_primary_symbol_witness :
  exists sym,
    primarySymbol (locations zeroCheckUnnamedFirst) sym
    /\ groupKey zeroCheckUnnamedFirst = check zeroCheckUnnamedFirst ++ lit "@@" ++ sym.
Proof.
  apply (proj1 (groupKey_primary_symbol zeroCheckUnnamedFirst eq_refl)).
Defined.

(** C4 as stated fails: the first location of [zeroCheckUnnamedFirst] has
    no element name, its key is built from the second location, and the
    finding is merged with one whose first location names [owner]. *)
Lemma groupKey_not_first_location :
  eligible zeroCheckUnnamedFirst = true
  /\ groupKey zeroCheckUnnamedFirst
     <> check zeroCheckUnnamedFirst ++ lit "@@"
        ++ firstLocationElement (locations zeroCheckUnnamedFirst)
  /\ firstLocationElement (locations zeroCheckUnnamedFirst)
     <> firstLocationElement (locations zeroCheckOwner)
  /\ groupKey zeroCheckUnnamedFirst = groupKey zeroCheckOwner
  /\ List.length (groupByCheckAndElement [zeroCheckUnnamedFirst; zeroCheckOwner]) = 1.
Proof.
  repeat split; try reflexivity; vm_compute; discriminate.
Qed.

(* ------------------------------------------------------------------ *)
(** ** Location deduplication *)

Lemma uniqueLocationsFrom_ext (seen seen' : list jsstring) (locs : list Location) :
  (forall k, Set_has seen k = Set_has seen' k) ->
  uniqueLocationsFrom seen locs = uniqueLocationsFrom seen' locs.
Proof.
  revert seen seen'; induction locs as [|l rest IH]; intros seen seen' Hext; simpl.
  - reflexivity.
  - rewrite <- Hext. destruct (Set_has seen (locationKey l)).
    + now apply IH.
    + f_equal. apply IH. intros k. now rewrite !Set_has_add, Hext.
Qed.

Lemma Set_has_app (seen more : list jsstring) (k : jsstring) :
  Set_has (seen ++ more) k = Set_has seen k || Set_has more k.
Proof. unfold Set_has. apply existsb_app. Qed.

Lemma uniqueLocationsFrom_app (seen : list jsstring) (a b : list Location) :
  uniqueLocationsFrom seen (a ++ b)
  = uniqueLocationsFrom seen a
    ++ uniqueLocationsFrom (seen ++ map locationKey a) b.
Proof.
  revert seen; induction a as [|x a IH]; intros seen; simpl.
  - now rewrite app_nil_r.
  - destruct (Set_has seen (locationKey x)) eqn:Hx.
    + rewrite IH. f_equal. apply uniqueLocationsFrom_ext. intros k.
      rewrite !Set_has_app. simpl.
      destruct (str_eqb k (locationKey x)) eqn:Hk; [|reflexivity].
      apply str_eqb_eq in Hk. subst k. now rewrite Hx.
    + simpl. f_equal. rewrite IH. f_equal. apply uniqueLocationsFrom_ext. intros k.
      rewrite !Set_has_app, Set_has_add. simpl.
      destruct (str_eqb k (locationKey x)), (Set_has seen k); reflexivity.
Qed.

Lemma uniqueLocationsFrom_idem (seen : list jsstring) (a : list Location) :
  uniqueLocationsFrom seen (uniqueLocationsFrom seen a) = uniqueLocationsFrom seen a.
Proof.
  revert seen; induction a as [|x a IH]; intros seen; simpl.
  - reflexivity.
  - destruct (Set_has seen (locationKey x)) eqn:Hx.
    + apply IH.
    + simpl. rewrite Hx. f_equal. apply IH.
Qed.

Lemma Set_has_cons (x : jsstring) (seen : list jsstring) (k : jsstring) :
  Set_has (x :: seen) k = str_eqb k x || Set_has seen k.
Proof. reflexivity. Qed.

Lemma uniqueLocationsFrom_keys (seen : list jsstring) (a : list Location) (k : jsstring) :
  Set_has (map locationKey (uniqueLocationsFrom seen a)) k
  = Set_has (map locationKey a) k && negb (Set_has seen k).
Proof.
  revert seen; induction a as [|x a IH]; intros seen.
  - reflexivity.
  - cbn [uniqueLocationsFrom map]. rewrite Set_has_cons.
    destruct (Set_has seen (locationKey x)) eqn:Hx.
    + rewrite IH.
      destruct (str_eqb k (locationKey x)) eqn:Hk; [|reflexivity].
      apply str_eqb_eq in Hk. subst k. rewrite Hx. cbn [negb orb].
      now rewrite !andb_false_r.
    + cbn [map]. rewrite Set_has_cons, IH, Set_has_add.
      destruct (str_eqb k (locationKey x)) eqn:Hk; cbn [orb negb].
      * apply str_eqb_eq in Hk. subst k. now rewrite Hx.
      * reflexivity.
Qed.

Lemma uniqueLocations_merge (a b : list Location) :
  uniqueLocations (uniqueLocations a ++ b) = uniqueLocations (a ++ b).
Proof.
  unfold uniqueLocations.
  rewrite !uniqueLocationsFrom_app, uniqueLocationsFrom_idem. f_equal.
  apply uniqueLocationsFrom_ext. intros k. simpl.
  rewrite uniqueLocationsFrom_keys. simpl. now rewrite andb_true_r.
Qed.

Lemma uniqueLocations_idem (a : list Location) :
  uniqueLocations (uniqueLocations a) = uniqueLocations a.
Proof. apply uniqueLocationsFrom_idem. Qed.

(** The deduplicator, one location at a time: the location that follows
    [pre] is kept exactly when no location of [pre] has its key. *)
Lemma uniqueLocations_snoc (pre : list Location) (l : Location) :
  uniqueLocations (pre ++ [l])
  = uniqueLocations pre
    ++ (if Set_has (map locationKey pre) (locationKey l) then [] else [l]).
Proof.
  unfold uniqueLocations. rewrite uniqueLocationsFrom_app. simpl.
  now destruct (Set_has (map locationKey pre) (locationKey l)).
Qed.

(* ------------------------------------------------------------------ *)
(** ** Maps in insertion order *)

Lemma Map_get_set (V : Type) (m : list (jsstring * V)) (k k' : jsstring) (v : V) :
  Map_get (Map_set m k v) k' = if str_eqb k' k then Some v else Map_get m k'.
Proof.
  induction m as [|[k0 v0] m IH]; simpl.
  - reflexivity.
  - destruct (str_eqb k k0) eqn:E; simpl.
    + apply str_eqb_eq in E. subst k0. now destruct (str_eqb k' k).
    + rewrite IH. destruct (str_eqb k' k0) eqn:E0; [|reflexivity].
      apply str_eqb_eq in E0. subst k0.
      destruct (str_eqb k' k) eqn:E1; [|reflexivity].
      apply str_eqb_eq in E1. subst k'. now rewrite str_eqb_refl in E.
Qed.

Lemma Map_set_absent (V : Type) (m : list (jsstring * V)) (k : jsstring) (v : V) :
  Map_get m k = None -> Map_set m k v = m ++ [(k, v)].
Proof.
  induction m as [|[k0 v0] m IH]; simpl; intros H.
  - reflexivity.
  - destruct (str_eqb k k0); [discriminate|]. now rewrite IH.
Qed.

Section KeyedLists.

Variables (A V : Type) (key : A -> jsstring).

Lemma Map_get_map (f : A -> V) (l : list A) (k : jsstring) :
  Map_get (map (fun a => (key a, f a)) l) k
  = option_map f (find (fun a => str_eqb k (key a)) l).
Proof.
  induction l as [|a l IH]; simpl; [reflexivity|].
  now destruct (str_eqb k (key a)).
Qed.

Lemma NoDup_key_eq (l : list A) (a b : A) :
  NoDup (map key l) -> In a l -> In b l -> key a = key b -> a = b.
Proof.
  induction l as [|x l IH]; simpl; intros Hnd Ha Hb Hk; [contradiction|].
  inversion Hnd as [|? ? Hnin Hnd']; subst.
  destruct Ha as [->|Ha], Hb as [->|Hb]; try reflexivity.
  - exfalso. apply Hnin. rewrite Hk. now apply in_map.
  - exfalso. apply Hnin. rewrite <- Hk. now apply in_map.
  - now apply IH.
Qed.

Lemma Map_set_map (f : A -> V) (l : list A) (a0 : A) (v : V) :
  NoDup (map key l) -> In a0 l ->
  Map_set (map (fun a => (key a, f a)) l) (key a0) v
  = map (fun a => (key a, if str_eqb (key a) (key a0) then v else f a)) l.
Proof.
  induction l as [|x l IH]; simpl; intros Hnd Hin; [contradiction|].
  inversion Hnd as [|? ? Hnin Hnd']; subst.
  destruct (str_eqb (key a0) (key x)) eqn:E.
  - rewrite str_eqb_sym, E. f_equal.
    apply map_ext_in. intros a Ha.
    destruct (str_eqb (key a) (key a0)) eqn:E'; [|reflexivity].
    exfalso. apply Hnin. apply str_eqb_eq in E, E'.
    rewrite <- E, <- E'. now apply in_map.
  - rewrite str_eqb_sym, E. f_equal. apply IH; [assumption|].
    destruct Hin as [->|Hin]; [|assumption].
    now rewrite str_eqb_refl in E.
Qed.

End KeyedLists.

(* ------------------------------------------------------------------ *)
(** ** The grouper *)

Lemma firstInstancesFrom_keys (seen : list jsstring) (items : list NormalizedIssue)
    (k : jsstring) :
  Set_has (map groupKey (firstInstancesFrom seen items)) k
  = Set_has (map groupKey items) k && negb (Set_has seen k).
Proof.
  revert seen; induction items as [|x items IH]; intros seen.
  - reflexivity.
  - cbn [firstInstancesFrom map]. rewrite Set_has_cons.
    destruct (Set_has seen (groupKey x)) eqn:Hx.
    + rewrite IH.
      destruct (str_eqb k (groupKey x)) eqn:Hk; [|reflexivity].
      apply str_eqb_eq in Hk. subst k. rewrite Hx. cbn [negb orb].
      now rewrite !andb_false_r.
    + cbn [map]. rewrite Set_has_cons, IH, Set_has_app, Set_has_cons.
      destruct (str_eqb k (groupKey x)) eqn:Hk; cbn [orb negb].
      * apply str_eqb_eq in Hk. subst k. now rewrite Hx.
      * unfold Set_has at 3. cbn [existsb]. now rewrite orb_false_r.
Qed.

Lemma firstInstancesFrom_In (seen : list jsstring) (items : list NormalizedIssue)
    (it : NormalizedIssue) :
  In it (firstInstancesFrom seen items) ->
  In it items /\ Set_has seen (groupKey it) = false.
Proof.
  revert seen; induction items as [|x items IH]; intros seen; simpl.
  - contradiction.
  - destruct (Set_has seen (groupKey x)) eqn:Hx.
    + intros H. apply IH in H as [H1 H2]. auto.
    + intros [->|H]; [auto|].
      apply IH in H as [H1 H2]. split; [auto|].
      rewrite Set_has_app in H2. now apply orb_false_elim in H2.
Qed.

Lemma firstInstancesFrom_NoDup (seen : list jsstring) (items : list NormalizedIssue) :
  NoDup (map groupKey (firstInstancesFrom seen items)).
Proof.
  revert seen; induction items as [|x items IH]; intros seen; simpl.
  - constructor.
  - destruct (Set_has seen (groupKey x)) eqn:Hx; [apply IH|].
    simpl. constructor; [|apply IH].
    intros Hin. apply Set_has_In in Hin.
    rewrite firstInstancesFrom_keys, Set_has_app, Set_has_cons, str_eqb_refl in Hin.
    rewrite orb_true_r in Hin. cbn [orb negb] in Hin.
    now rewrite andb_false_r in Hin.
Qed.

Lemma firstInstancesFrom_snoc (seen : list jsstring) (items : list NormalizedIssue)
    (x : NormalizedIssue) :
  firstInstancesFrom seen (items ++ [x])
  = firstInstancesFrom seen items
    ++ (if Set_has (seen ++ map groupKey items) (groupKey x) then [] else [x]).
Proof.
  revert seen; induction items as [|y items IH]; intros seen; simpl.
  - rewrite app_nil_r. now destruct (Set_has seen (groupKey x)).
  - destruct (Set_has seen (groupKey y)) eqn:Hy.
    + rewrite IH. f_equal. rewrite !Set_has_app, Set_has_cons.
      destruct (str_eqb (groupKey x) (groupKey y)) eqn:E; [|reflexivity].
      apply str_eqb_eq in E. rewrite E, Hy. reflexivity.
    + simpl. f_equal. rewrite IH. now rewrite <- app_assoc.
Qed.

Lemma find_firstInstances_none (items : list NormalizedIssue) (k : jsstring) :
  find (fun it => str_eqb k (groupKey it)) (firstInstances items) = None ->
  Set_has (map groupKey items) k = false.
Proof.
  intros H.
  assert (Hk : Set_has (map groupKey (firstInstances items)) k = false).
  { unfold Set_has. destruct (existsb _ _) eqn:E; [|reflexivity].
    apply existsb_exists in E as [k' [Hin E]]. apply in_map_iff in Hin as [it [<- Hin]].
    now rewrite (find_none _ _ H it Hin) in E. }
  unfold firstInstances in Hk. rewrite firstInstancesFrom_keys in Hk.
  cbn in Hk. now rewrite andb_true_r in Hk.
Qed.

Lemma filter_sameGroup_snoc (items : list NormalizedIssue) (it x : NormalizedIssue) :
  filter (sameGroup it) (items ++ [x])
  = filter (sameGroup it) items ++ (if sameGroup it x then [x] else []).
Proof. now rewrite filter_app. Qed.

Lemma filter_sameGroup_absent (items : list NormalizedIssue) (x : NormalizedIssue) :
  Set_has (map groupKey items) (groupKey x) = false ->
  filter (sameGroup x) items = [].
Proof.
  induction items as [|y items IH]; [reflexivity|].
  cbn [map filter]. rewrite Set_has_cons. intros H.
  apply orb_false_elim in H as [H1 H2].
  unfold sameGroup at 1. rewrite str_eqb_sym, H1. now apply IH.
Qed.

Lemma groupMap_spec (candidates : list NormalizedIssue) :
  fold_left groupMapStep candidates []
  = map (fun it => (groupKey it, mergeGroup candidates it)) (firstInstances candidates).
Proof.
  induction candidates as [|x E IH] using rev_ind.
  - reflexivity.
  - rewrite fold_left_app. cbn [fold_left]. rewrite IH. clear IH.
    unfold groupMapStep. rewrite Map_get_map.
    unfold firstInstances. rewrite firstInstancesFrom_snoc. cbn [app].
    fold (firstInstances E).
    destruct (find (fun a => str_eqb (groupKey x) (groupKey a)) (firstInstances E))
      as [it0|] eqn:Hfind; cbn [option_map].
    + (* the key is known: the group is extended in place *)
      destruct (find_some _ _ Hfind) as [Hin Hkey]. apply str_eqb_eq in Hkey.
      assert (Hhas : Set_has (map groupKey E) (groupKey x) = true).
      { apply Set_has_In. rewrite Hkey. apply in_map.
        now apply (firstInstancesFrom_In [] E it0). }
      rewrite Hhas, app_nil_r, Hkey.
      rewrite Map_set_map; [|apply firstInstancesFrom_NoDup|assumption].
      apply map_ext_in. intros it Hit. f_equal.
      unfold mergeGroup. rewrite filter_sameGroup_snoc.
      change (sameGroup it x) with (str_eqb (groupKey x) (groupKey it)).
      rewrite Hkey.
      destruct (str_eqb (groupKey it) (groupKey it0)) eqn:E0.
      * apply str_eqb_eq in E0.
        assert (it = it0) as ->.
        { apply (NoDup_key_eq groupKey (firstInstances E));
            [apply firstInstancesFrom_NoDup|assumption..]. }
        rewrite str_eqb_refl. cbn [locations set_locations].
        rewrite uniqueLocations_merge, map_app, concat_app. cbn [map List.concat].
        now rewrite app_nil_r.
      * rewrite str_eqb_sym, E0. now rewrite app_nil_r.
    + (* a new key: the group is appended *)
      pose proof (find_firstInstances_none _ _ Hfind) as Hhas.
      rewrite Hhas.
      rewrite Map_set_absent
        by (rewrite Map_get_map; fold (firstInstances E); now rewrite Hfind).
      rewrite map_app. cbn [map]. f_equal.
      * apply map_ext_in. intros it Hit. f_equal.
        unfold mergeGroup. rewrite filter_sameGroup_snoc.
        change (sameGroup it x) with (str_eqb (groupKey x) (groupKey it)).
        destruct (str_eqb (groupKey x) (groupKey it)) eqn:E0; [|now rewrite app_nil_r].
        rewrite (find_none _ _ Hfind it Hit) in E0. discriminate.
      * f_equal. f_equal. unfold mergeGroup.
        rewrite filter_sameGroup_snoc, filter_sameGroup_absent by assumption.
        unfold sameGroup. rewrite str_eqb_refl. cbn [app map List.concat].
        now rewrite app_nil_r.
Qed.

Lemma groupStep_fold (items : list NormalizedIssue)
    (grouped : list (jsstring * NormalizedIssue)) (passthrough : list NormalizedIssue) :
  fold_left groupStep items (grouped, passthrough)
  = (fold_left groupMapStep (filter eligible items) grouped,
     passthrough ++ filter (fun it => negb (eligible it)) items).
Proof.
  revert grouped passthrough; induction items as [|it rest IH];
    intros grouped passthrough; cbn [fold_left filter].
  - now rewrite app_nil_r.
  - unfold groupStep at 2.
    change (str_eqb (check it) missingZeroCheck) with (eligible it).
    destruct (eligible it); cbn [negb fold_left].
    + unfold groupMapStep at 2.
      destruct (Map_get grouped (groupKey it)); apply IH.
    + rewrite IH. now rewrite <- app_assoc.
Qed.

(** The grouper, as a whole: the findings it does not merge, in input
    order, and then one merged finding per key. *)
Lemma groupByCheckAndElement_spec (items : list NormalizedIssue) :
  groupByCheckAndElement items
  = filter (fun it => negb (eligible it)) items ++ mergedGroups items.
Proof.
  unfold groupByCheckAndElement. rewrite groupStep_fold, groupMap_spec.
  unfold Map_values, mergedGroups. cbn [app]. f_equal.
  rewrite map_map. reflexivity.
Qed.

(* ------------------------------------------------------------------ *)
(** ** Buckets of the renderer *)

Lemma byImpactPush_get (b b' : list (jsstring * list NormalizedIssue))
    (it : NormalizedIssue) (sev : Impact) (bucket : list NormalizedIssue) :
  Map_get b (impactName sev) = Some bucket ->
  byImpactPush b it = Ok b' ->
  Map_get b' (impactName sev)
  = Some (bucket ++ findingsOf sev [it]).
Proof.
  intros Hget Hpush. unfold byImpactPush in Hpush. unfold findingsOf. cbn [filter].
  destruct (Map_get b (impact it)) as [old|] eqn:Hold.
  - injection Hpush as <-. rewrite Map_get_set, str_eqb_sym.
    destruct (str_eqb (impact it) (impactName sev)) eqn:E.
    + apply str_eqb_eq in E. rewrite E in Hold. congruence.
    + now rewrite app_nil_r.
  - destruct (objectPrototypeHas (impact it)); [discriminate|].
    injection Hpush as <-. rewrite Map_get_set, str_eqb_sym.
    destruct (str_eqb (impact it) (impactName sev)) eqn:E.
    + apply str_eqb_eq in E. rewrite E in Hold. congruence.
    + now rewrite app_nil_r.
Qed.

Lemma byImpactFill_get (items : list NormalizedIssue)
    (b b' : list (jsstring * list NormalizedIssue))
    (sev : Impact) (bucket : list NormalizedIssue) :
  Map_get b (impactName sev) = Some bucket ->
  byImpactFill b items = Ok b' ->
  Map_get b' (impactName sev) = Some (bucket ++ findingsOf sev items).
Proof.
  revert b bucket; induction items as [|it rest IH]; intros b bucket Hget Hfill;
    cbn [byImpactFill] in Hfill.
  - injection Hfill as <-. now rewrite app_nil_r.
  - destruct (byImpactPush b it) as [b1|e] eqn:Hpush; [|discriminate].
    cbn [bind] in Hfill.
    pose proof (@byImpactPush_get _ _ _ _ _ Hget Hpush) as Hget1.
    rewrite (IH _ _ Hget1 Hfill), <- app_assoc. do 2 f_equal.
    change (it :: rest) with ([it] ++ rest). unfold findingsOf.
    now rewrite filter_app.
Qed.

Lemma byImpactInit_get (sev : Impact) :
  Map_get byImpactInit (impactName sev) = Some [].
Proof. now destruct sev. Qed.

Lemma bucketOf_fill (items : list NormalizedIssue)
    (b : list (jsstring * list NormalizedIssue)) (sev : Impact) :
  byImpactFill byImpactInit items = Ok b ->
  bucketOf b sev = findingsOf sev items.
Proof.
  intros H. unfold bucketOf.
  now rewrite (@byImpactFill_get _ _ _ _ _ (byImpactInit_get sev) H).
Qed.

(* ------------------------------------------------------------------ *)
(** ** Key collisions of the deduplicator *)

(** C3 at [colonInFile; colonInElement]: the two locations differ in file
    and in element, they have the same key, and the second is dropped. *)
Theorem uniqueLocations_drops_distinct :
  file colonInFile <> file colonInElement
  /\ element colonInFile <> element colonInElement
  /\ locationKey colonInFile = locationKey colonInElement
  /\ uniqueLocations [colonInFile; colonInElement] = [colonInFile].
Proof.
  repeat split; try reflexivity; vm_compute; discriminate.
Qed.

(** C8 at [zeroCheckColon; zeroCheckUnnamed]: the first pass keeps two
    findings (keys [missing-zero-check@@:] and [missing-zero-check@@]) and
    drops the location that named [:]; the second pass then gives both
    the key [missing-zero-check@@] and merges them. *)
Theorem grouping_twice_differs :
  List.length (groupByCheckAndElement [zeroCheckColon; zeroCheckUnnamed]) = 2
  /\ List.length
       (groupByCheckAndElement
          (groupByCheckAndElement [zeroCheckColon; zeroCheckUnnamed])) = 1
  /\ groupByCheckAndElement (groupByCheckAndElement [zeroCheckColon; zeroCheckUnnamed])
     <> groupByCheckAndElement [zeroCheckColon; zeroCheckUnnamed].
Proof.
  split; [reflexivity|]. split; [reflexivity|].
  intros H. apply (f_equal (@List.length _)) in H. vm_compute in H. discriminate.
Qed.

(* ------------------------------------------------------------------ *)
(** ** Impacts outside the four severities *)

(** C10 at a finding whose impact is [constructor]: the bucket lookup finds
    the inherited property, which has no [push], and the renderer throws
    instead of returning the "no vulnerabilities" sentence. *)
Theorem render_inherited_impact_throws :
  existsb (str_eqb (impact constructorIssue)) (map impactName order) = false
  /\ renderMarkdownDeterministic (lit "0xABC") [constructorIssue] = Throw TypeError
  /\ renderMarkdownDeterministic (lit "0xABC") [] = Ok (noVulnerabilities (lit "0xABC")).
Proof. repeat split. Qed.

(* ------------------------------------------------------------------ *)
(** ** Count fidelity of the validator *)

(** What acceptance gives for the counts the validator reads. *)
Lemma validateOrFallback_counts (md : jsstring) (items : list NormalizedIssue) :
  validateOrFallback md items = true ->
  forall sev, countsByImpact (map impact items) sev = parseCountsFromMarkdown md sev.
Proof.
  unfold validateOrFallback. intros H.
  apply andb_prop in H as [H _]. apply andb_prop in H as [H _].
  rewrite forallb_forall in H. intros sev. apply Nat.eqb_eq. apply H.
  destruct sev; simpl; auto.
Qed.

(** C1 at two High findings and one Medium finding, with a candidate that
    has one sub-heading in its High section and one in its Medium section:
    the text the validator reads for High runs to the end of the candidate,
    it counts two sub-headings there, and the candidate is accepted. *)
Theorem validator_accepts_diverging_count :
  List.length (findingsOf High [highIssueA; highIssueB; mediumIssue]) = 2
  /\ subheadingsUnder High candidateOneHigh = 1
  /\ parseCountsFromMarkdown candidateOneHigh High = 2
  /\ validateOrFallback candidateOneHigh [highIssueA; highIssueB; mediumIssue] = true.
Proof. repeat split; vm_compute; reflexivity. Qed.

(** The same reading makes the validator reject the report of the
    deterministic renderer itself as soon as two severities are present. *)
Lemma validator_rejects_rendered_report :
  exists out,
    renderMarkdownDeterministic (lit "0xABC") [highIssueA; mediumIssue] = Ok out
    /\ parseCountsFromMarkdown out High = 2
    /\ validateOrFallback out [highIssueA; mediumIssue] = false.
Proof. eexists. split; [reflexivity|]. split; vm_compute; reflexivity. Qed.

(* ------------------------------------------------------------------ *)
(** ** Orchestrator and the candidate generator *)

Section GeneratorMode.

Variable toLowerCase : jsstring -> jsstring.
Variable swcData : jsstring -> option SWCEntry.

(** C2, as the code has it.  In generator mode, with at least one finding:
    a response whose text fails validation (an absent text counts as the
    empty text) is replaced by what the deterministic renderer gives for
    the finding set; a call that fails at the transport level, or a body
    that cannot be read as JSON, propagates its error to the caller; and a
    call that never completes leaves the run pending. *)
Theorem runAudit_generator_outcomes (rendererEnv : option jsstring) (address : jsstring)
    (detectors : list DetectorResult) :
  match rendererEnv with Some v => eqlit v "deterministic" | None => false end = false ->
  detectors <> [] ->
  (forall data,
      validateOrFallback (match response data with Some r => r | None => [] end)
        (enrichedIssuesOf toLowerCase swcData (Some detectors)) = false ->
      runAudit toLowerCase swcData rendererEnv address (Some detectors)
        (FetchResolves (JsonResolves data))
      = writeAndReturn
          (renderMarkdownDeterministic address
             (enrichedIssuesOf toLowerCase swcData (Some detectors))))
  /\ (forall e,
        runAudit toLowerCase swcData rendererEnv address (Some detectors) (FetchRejects e)
        = Threw e)
  /\ (forall e,
        runAudit toLowerCase swcData rendererEnv address (Some detectors)
          (FetchResolves (JsonRejects e))
        = Threw e)
  /\ runAudit toLowerCase swcData rendererEnv address (Some detectors) FetchNeverSettles
     = NeverSettles.
Proof.
  intros Hmode Hne.
  assert (Hlen : Nat.eqb (List.length (map (issueOfDetector toLowerCase) detectors)) 0 = false).
  { destruct detectors; [contradiction|reflexivity]. }
  unfold runAudit. rewrite Hlen, Hmode.
  split; [|repeat split].
  intros data Hbad. unfold enrichedIssuesOf in Hbad. rewrite Hbad. reflexivity.
Qed.

End GeneratorMode.

Lemma runAudit_generator_outcomes_witness :
  runAudit toLowerCaseAscii emptyRegistry None (lit "0xABC") (Some [sampleDetector])
    (FetchResolves (JsonResolves (mkOllamaResponse None (Some (lit "model not found")))))
  = writeAndReturn
      (renderMarkdownDeterministic (lit "0xABC")
         (enrichedIssuesOf toLowerCaseAscii emptyRegistry (Some [sampleDetector]))).
Proof.
  apply (proj1 (@runAudit_generator_outcomes toLowerCaseAscii emptyRegistry None
                  (lit "0xABC") [sampleDetector] eq_refl ltac:(discriminate))).
  reflexivity.
Defined.

(** C2 as stated fails: when the call to the generator is refused, the
    run ends with that error although the deterministic renderer has an
    output for the finding set. *)
Lemma runAudit_propagates_network_error :
  runAudit toLowerCaseAscii emptyRegistry None (lit "0xABC") (Some [sampleDetector])
    (FetchRejects connectionRefused)
  = Threw connectionRefused
  /\ exists md,
       renderMarkdownDeterministic (lit "0xABC")
         (enrichedIssuesOf toLowerCaseAscii emptyRegistry (Some [sampleDetector]))
       = Ok md
       /\ runAudit toLowerCaseAscii emptyRegistry None (lit "0xABC") (Some [sampleDetector])
            (FetchRejects connectionRefused)
          <> Returned md (Some md).
Proof.
  split; [reflexivity|].
  eexists. split; [reflexivity|]. discriminate.
Qed.

(* ------------------------------------------------------------------ *)
(** ** Joining and splitting lines *)

Lemma join_cons (sep x : jsstring) (parts : list jsstring) :
  parts <> [] -> join sep (x :: parts) = x ++ sep ++ join sep parts.
Proof. destruct parts; [contradiction|reflexivity]. Qed.

Lemma join_app (sep : jsstring) (a b : list jsstring) :
  a <> [] -> b <> [] -> join sep (a ++ b) = join sep a ++ sep ++ join sep b.
Proof.
  induction a as [|x a IH]; intros Ha Hb; [contradiction|].
  destruct a as [|y a].
  - cbn [app]. now rewrite join_cons.
  - change ((x :: y :: a) ++ b) with (x :: ((y :: a) ++ b)).
    rewrite !join_cons by discriminate.
    rewrite IH by (assumption || discriminate).
    now rewrite <- !app_assoc.
Qed.

Lemma join_inner (sep : jsstring) (before lines after : list jsstring) :
  lines <> [] ->
  join sep (before ++ join sep lines :: after) = join sep (before ++ lines ++ after).
Proof.
  intros Hl. induction before as [|x before IH].
  - cbn [app]. destruct after as [|y after].
    + now rewrite app_nil_r.
    + rewrite join_cons by discriminate. now rewrite join_app by (assumption || discriminate).
  - cbn [app]. rewrite !join_cons.
    + now rewrite IH.
    + destruct before, lines; try discriminate. contradiction.
    + now destruct before.
Qed.

Lemma join_flatten (sep : jsstring) (groups : list (list jsstring)) :
  Forall (fun g => g <> []) groups ->
  join sep (map (join sep) groups) = join sep (List.concat groups).
Proof.
  induction groups as [|g groups IH]; intros H; [reflexivity|].
  inversion H as [|? ? Hg Hgs]; subst.
  destruct groups as [|g' groups].
  - cbn. now rewrite app_nil_r.
  - cbn [map List.concat] in *. rewrite join_cons by discriminate.
    rewrite IH by assumption. symmetry. apply join_app; [assumption|].
    inversion Hgs; subst. destruct g'; [contradiction|discriminate].
Qed.

Lemma splitLines_nonempty (s : jsstring) : splitLines s <> [].
Proof.
  destruct s as [|c s]; [discriminate|]. cbn [splitLines].
  destruct (isLineTerminator c); [discriminate|].
  destruct (splitLines s); discriminate.
Qed.

Lemma splitLines_char (c : codeunit) (s : jsstring) :
  isLineTerminator c = false ->
  splitLines (c :: s) = (c :: hd [] (splitLines s)) :: tl (splitLines s).
Proof.
  intros Hc. cbn [splitLines]. rewrite Hc.
  pose proof (splitLines_nonempty s) as Hne.
  destruct (splitLines s); [contradiction|reflexivity].
Qed.

Lemma splitLines_break (c : codeunit) (s : jsstring) :
  isLineTerminator c = true -> splitLines (c :: s) = [] :: splitLines s.
Proof. intros Hc. cbn [splitLines]. now rewrite Hc. Qed.

Lemma splitLines_NL (a b : jsstring) :
  splitLines (a ++ NL ++ b) = splitLines a ++ splitLines b.
Proof.
  induction a as [|c a IH]; [reflexivity|].
  change ((c :: a) ++ NL ++ b) with (c :: (a ++ NL ++ b)).
  destruct (isLineTerminator c) eqn:Hc.
  - rewrite !splitLines_break by assumption. now rewrite IH.
  - rewrite !splitLines_char by assumption. rewrite IH.
    pose proof (splitLines_nonempty a) as Hne.
    destruct (splitLines a); [contradiction|reflexivity].
Qed.

Lemma splitLines_join (parts : list jsstring) :
  parts <> [] -> splitLines (join NL parts) = linesOf parts.
Proof.
  unfold linesOf. induction parts as [|p parts IH]; intros Hne; [contradiction|].
  destruct parts as [|q parts].
  - cbn. now rewrite app_nil_r.
  - rewrite join_cons by discriminate. rewrite splitLines_NL, IH by discriminate.
    reflexivity.
Qed.

Lemma linesOf_app (a b : list jsstring) : linesOf (a ++ b) = linesOf a ++ linesOf b.
Proof. unfold linesOf. now rewrite map_app, concat_app. Qed.

Lemma linesOf_cons (p : jsstring) (parts : list jsstring) :
  linesOf (p :: parts) = splitLines p ++ linesOf parts.
Proof. reflexivity. Qed.

(* ------------------------------------------------------------------ *)
(** ** Texts without a line that starts with [#] *)

Lemma plain_cons (c : codeunit) (l : jsstring) : plain (c :: l) = negb (N.eqb c 35).
Proof.
  unfold plain. change (lit "#") with [35%N]. cbn [startsWith].
  now rewrite andb_true_r, N.eqb_sym.
Qed.

Lemma plain_head (c : codeunit) (l l' : jsstring) : plain (c :: l) = plain (c :: l').
Proof. now rewrite !plain_cons. Qed.

Lemma linesPlain_app_both (a b : jsstring) :
  linesPlain b = true ->
  (linesPlain a = true -> linesPlain (a ++ b) = true)
  /\ (forallb plain (tl (splitLines a)) = true ->
      forallb plain (tl (splitLines (a ++ b))) = true).
Proof.
  intros Hb. unfold linesPlain in *.
  induction a as [|c a [IH1 IH2]].
  - split; [now intros _|]. intros _. cbn [app].
    pose proof (splitLines_nonempty b) as Hne.
    destruct (splitLines b) as [|l ls]; [contradiction|].
    cbn [forallb tl] in Hb |- *. now apply andb_prop in Hb.
  - cbn [app]. destruct (isLineTerminator c) eqn:Hc.
    + rewrite !splitLines_break by assumption. cbn [forallb tl].
      split.
      * intros H. apply andb_prop in H as [_ H]. now apply IH1.
      * exact IH1.
    + rewrite !splitLines_char by assumption. cbn [forallb tl].
      split.
      * intros H. apply andb_prop in H as [Hhead Htail].
        rewrite (plain_head c _ (hd [] (splitLines a))), Hhead. now apply IH2.
      * exact IH2.
Qed.

Lemma linesPlain_app (a b : jsstring) :
  linesPlain a = true -> linesPlain b = true -> linesPlain (a ++ b) = true.
Proof. intros Ha Hb. now apply (@linesPlain_app_both a b Hb). Qed.

Lemma linesPlain_chars (s : jsstring) : forallb plainChar s = true -> linesPlain s = true.
Proof.
  unfold linesPlain. induction s as [|c s IH]; intros H; [reflexivity|].
  cbn [forallb] in H. apply andb_prop in H as [Hc Hs].
  unfold plainChar in Hc. apply andb_prop in Hc as [Hterm Hhash].
  apply negb_true_iff in Hterm. rewrite splitLines_char by assumption.
  specialize (IH Hs). pose proof (splitLines_nonempty s) as Hne.
  destruct (splitLines s) as [|l ls]; [contradiction|].
  cbn [hd tl forallb] in IH |- *. apply andb_prop in IH as [_ IH].
  now rewrite IH, plain_cons, Hhash.
Qed.

Lemma plainChar_uint (u : Decimal.uint) :
  forallb plainChar (lit (NilEmpty.string_of_uint u)) = true.
Proof. induction u; cbn; auto. Qed.

Lemma linesPlain_numberToString (z : Z) : linesPlain (numberToString z) = true.
Proof.
  apply linesPlain_chars.
  unfold numberToString, NilZero.string_of_int, NilZero.string_of_uint.
  destruct (Z.to_int z) as [u|u]; destruct u; try reflexivity;
    first [ apply (plainChar_uint (Decimal.D0 _)) | apply (plainChar_uint (Decimal.D1 _))
          | apply (plainChar_uint (Decimal.D2 _)) | apply (plainChar_uint (Decimal.D3 _))
          | apply (plainChar_uint (Decimal.D4 _)) | apply (plainChar_uint (Decimal.D5 _))
          | apply (plainChar_uint (Decimal.D6 _)) | apply (plainChar_uint (Decimal.D7 _))
          | apply (plainChar_uint (Decimal.D8 _)) | apply (plainChar_uint (Decimal.D9 _)) ].
Qed.

Lemma plain_not_heading (l : jsstring) :
  plain l = true -> isTopLevelHeadingLine l = false /\ isSubHeadingLine l = false.
Proof.
  unfold plain, isTopLevelHeadingLine, isSubHeadingLine. intros H.
  apply negb_true_iff in H. destruct l as [|c l]; [now split|].
  cbn in H |- *. rewrite andb_true_r in H. rewrite H. now split.
Qed.

Lemma severityHeading_top (sev : Impact) (l : jsstring) :
  isSeverityHeadingLine sev l = true -> isTopLevelHeadingLine l = true.
Proof.
  unfold isSeverityHeadingLine, isTopLevelHeadingLine. intros H.
  apply andb_prop in H as [H _]. apply startsWith_inv in H as [t ->].
  now destruct sev.
Qed.

Lemma not_top_not_severity (sev : Impact) (l : jsstring) :
  isTopLevelHeadingLine l = false -> isSeverityHeadingLine sev l = false.
Proof.
  intros H. destruct (isSeverityHeadingLine sev l) eqn:E; [|reflexivity].
  apply severityHeading_top in E. congruence.
Qed.

(** The lines of plain parts are plain. *)
Lemma linesOf_plain (parts : list jsstring) :
  Forall (fun p => linesPlain p = true) parts ->
  Forall (fun l => plain l = true) (linesOf parts).
Proof.
  induction 1 as [|p parts Hp Hparts IH]; [constructor|].
  rewrite linesOf_cons. apply Forall_app. split; [|exact IH].
  apply Forall_forall. unfold linesPlain in Hp. rewrite forallb_forall in Hp. exact Hp.
Qed.

(* ------------------------------------------------------------------ *)
(** ** The renderer writes the parts of [reportParts] *)

Lemma swcLinesOf_parts (it : NormalizedIssue) :
  swcLinesOf it = join NL (swcParts it).
Proof.
  unfold swcLinesOf, swcParts. destruct (swc it) as [s|]; [|reflexivity].
  set (first := lit "- **SWC:** " ++ _ ++ swc_title s).
  assert (Hfirst : truthy first = true) by reflexivity.
  cbn [filter]. rewrite Hfirst.
  destruct (truthy (swc_remediation s)) eqn:Hrem;
    destruct (swc_references s) as [|r refs] eqn:Hrefs; cbn [truthy app];
    reflexivity.
Qed.

Lemma swcParts_nonempty (it : NormalizedIssue) : swcParts it <> [].
Proof. unfold swcParts. destruct (swc it); discriminate. Qed.

Lemma renderOne_parts (it : NormalizedIssue) :
  renderOne it = join NL (blockParts it).
Proof.
  unfold renderOne, blockParts, blockTail.
  rewrite swcLinesOf_parts.
  set (c := lit "- Confidence: " ++ confidence it).
  set (i := lit "- Issue: " ++ riskOf it).
  set (r := lit "- Recommendation: " ++ remediationOf it).
  set (h := lit "## " ++ friendlyTitle (check it)).
  change ([h] ++ headerLinesOf it ++ [c; i; r; join NL (swcParts it); []])
    with (h :: headerLinesOf it ++ [c; i; r; join NL (swcParts it); []]).
  replace (h :: headerLinesOf it ++ [c; i; r; join NL (swcParts it); []])
    with ((h :: headerLinesOf it ++ [c; i; r]) ++ join NL (swcParts it) :: [[]]).
  - rewrite join_inner by apply swcParts_nonempty.
    cbn [app]. now rewrite <- app_assoc.
  - cbn [app]. now rewrite <- app_assoc.
Qed.

Lemma blockParts_nonempty (it : NormalizedIssue) : blockParts it <> [].
Proof. discriminate. Qed.

Lemma recognised_not_inherited (imp : jsstring) :
  recognised imp = true -> objectPrototypeHas imp = false.
Proof.
  unfold recognised, order. cbn [existsb]. intros H.
  repeat (apply orb_prop in H as [H|H]); try discriminate;
    apply str_eqb_eq in H; subst; reflexivity.
Qed.

Lemma byImpactFill_ok (items : list NormalizedIssue)
    (b : list (jsstring * list NormalizedIssue)) :
  Forall (fun it => objectPrototypeHas (impact it) = false) items ->
  exists b', byImpactFill b items = Ok b'.
Proof.
  revert b; induction items as [|it rest IH]; intros b H; cbn [byImpactFill].
  - now exists b.
  - inversion H as [|? ? Hit Hrest]; subst.
    unfold byImpactPush. rewrite Hit.
    destruct (Map_get b (impact it)); cbn [bind]; now apply IH.
Qed.

(** The renderer on a finding set that does not make it throw. *)
Lemma render_reportText (address : jsstring) (items : list NormalizedIssue)
    (b : list (jsstring * list NormalizedIssue)) :
  byImpactFill byImpactInit items = Ok b ->
  renderMarkdownDeterministic address items = Ok (reportText address items).
Proof.
  intros H. unfold renderMarkdownDeterministic, reportText. rewrite H. cbn [bind].
  assert (Hb : forall sev, bucketOf b sev = findingsOf sev items)
    by (intros sev; now apply bucketOf_fill).
  unfold sectionOf, severityHeading.
  rewrite (filter_ext _ (fun sev => negb (Nat.eqb (List.length (findingsOf sev items)) 0)))
    by (intros sev; now rewrite Hb).
  rewrite (map_ext _ (fun sev =>
             (lit "# " ++ impactName sev ++ lit " Impact Findings") ++ NL ++ NL
             ++ join NL (map renderOne (findingsOf sev items)))).
  - reflexivity.
  - intros sev. rewrite Hb. now rewrite <- !app_assoc.
Qed.

(* ------------------------------------------------------------------ *)
(** ** Order of the findings in the report *)

Lemma group_impacts (P : jsstring -> Prop) (items : list NormalizedIssue) :
  Forall (fun it => P (impact it)) items ->
  Forall (fun it => P (impact it)) (groupByCheckAndElement items).
Proof.
  intros H. rewrite Forall_forall in H.
  rewrite groupByCheckAndElement_spec. apply Forall_app. split.
  - apply Forall_forall. intros g Hg. apply filter_In in Hg as [Hg _]. now apply H.
  - apply Forall_forall. intros g Hg. unfold mergedGroups in Hg.
    apply in_map_iff in Hg as [it [<- Hit]].
    apply (firstInstancesFrom_In [] _ it) in Hit as [Hit _].
    apply filter_In in Hit as [Hit _]. exact (H it Hit).
Qed.

(** C5, as the code has it.  The grouped list is made of the findings
    that are not eligible for grouping, in input order, followed by one
    merged finding per grouping key, in the order in which the keys first
    appear in the input.  The renderer sorts the grouped list into its
    buckets without changing the order within a severity, and the report
    it returns is made of one section per severity that has findings: the
    heading of the severity, an empty line, and the blocks of the
    findings of that severity in the order of the grouped list.  It does
    return that report when no impact of the input names an inherited
    property. *)
Theorem grouped_order (items : list NormalizedIssue) :
  groupByCheckAndElement items
  = filter (fun it => negb (eligible it)) items
    ++ map (mergeGroup (filter eligible items)) (firstInstances (filter eligible items))
  /\ (forall b sev,
        byImpactFill byImpactInit (groupByCheckAndElement items) = Ok b ->
        bucketOf b sev = findingsOf sev (groupByCheckAndElement items))
  /\ (forall address,
        let grouped := groupByCheckAndElement items in
        let sections :=
          join NL
            (map (fun sev =>
                    severityHeading sev ++ NL ++ NL
                    ++ join NL (map renderOne (findingsOf sev grouped)))
               (filter (fun sev => negb (Nat.eqb (List.length (findingsOf sev grouped)) 0))
                  order)) in
        let report := if truthy sections then sections else noVulnerabilities address in
        (forall out, renderMarkdownDeterministic address grouped = Ok out -> out = report)
        /\ (Forall (fun it => objectPrototypeHas (impact it) = false) items ->
            renderMarkdownDeterministic address grouped = Ok report)).
Proof.
  split; [|split].
  - apply groupByCheckAndElement_spec.
  - intros b sev H. now apply bucketOf_fill.
  - intros address grouped sections report.
    change report with (reportText address grouped).
    split.
    + intros out Hout.
      destruct (byImpactFill byImpactInit grouped) as [b|e] eqn:Hb.
      * rewrite (@render_reportText address grouped b Hb) in Hout. now injection Hout.
      * unfold renderMarkdownDeterministic in Hout. fold grouped in Hout.
        rewrite Hb in Hout. discriminate Hout.
    + intros Hown.
      destruct (@byImpactFill_ok grouped byImpactInit
                  (@group_impacts (fun imp => objectPrototypeHas imp = false) items Hown))
        as [b Hb].
      exact (@render_reportText address grouped b Hb).
Qed.

Lemma grouped_order_witness :
  (exists b,
     byImpactFill byImpactInit (groupByCheckAndElement [zeroCheckOwner; namingIssue; zeroCheckLate])
     = Ok b
     /\ bucketOf b Low
        = findingsOf Low (groupByCheckAndElement [zeroCheckOwner; namingIssue; zeroCheckLate]))
  /\ renderMarkdownDeterministic (lit "0xABC")
       (groupByCheckAndElement [zeroCheckOwner; namingIssue; zeroCheckLate])
     = Ok (severityHeading Low ++ NL ++ NL
           ++ join NL
                (map renderOne
                   (findingsOf Low
                      (groupByCheckAndElement [zeroCheckOwner; namingIssue; zeroCheckLate])))).
Proof.
  split.
  - eexists. split.
    + reflexivity.
    + apply (proj1 (proj2 (grouped_order [zeroCheckOwner; namingIssue; zeroCheckLate]))).
      reflexivity.
  - apply (proj2 (proj2 (proj2 (grouped_order [zeroCheckOwner; namingIssue; zeroCheckLate]))
                    (lit "0xABC"))).
    repeat constructor.
Defined.

(** C5 as stated fails: [zeroCheckOwner] comes before [namingIssue] in the
    input, both are of severity Low and both survive, and the Low section
    of the report has the block of the naming finding first. *)
Lemma grouped_order_not_input_order :
  map check [zeroCheckOwner; namingIssue]
  = [lit "missing-zero-check"; lit "naming-convention"]
  /\ map check (groupByCheckAndElement [zeroCheckOwner; namingIssue])
     = [lit "naming-convention"; lit "missing-zero-check"]
  /\ (exists b,
        byImpactFill byImpactInit (groupByCheckAndElement [zeroCheckOwner; namingIssue]) = Ok b
        /\ map check (bucketOf b Low)
           = [lit "naming-convention"; lit "missing-zero-check"])
  /\ renderMarkdownDeterministic (lit "0xABC")
       (groupByCheckAndElement [zeroCheckOwner; namingIssue])
     = Ok (severityHeading Low ++ NL ++ NL
           ++ renderOne namingIssue ++ NL ++ renderOne zeroCheckOwner).
Proof.
  split; [reflexivity|]. split; [reflexivity|]. split.
  - eexists. split; reflexivity.
  - now vm_compute.
Qed.

(* ------------------------------------------------------------------ *)
(** ** The parts of a section and of a report *)

Lemma sectionText_parts (sev : Impact) (items : list NormalizedIssue) :
  findingsOf sev items <> [] ->
  severityHeading sev ++ NL ++ NL ++ join NL (map renderOne (findingsOf sev items))
  = join NL (sectionParts sev items).
Proof.
  intros Hne. unfold sectionParts.
  destruct (findingsOf sev items) as [|f fs]; [contradiction|].
  rewrite (map_ext _ (fun it => join NL (blockParts it)) renderOne_parts).
  rewrite <- (map_map blockParts (join NL)).
  rewrite join_flatten
    by (apply Forall_forall; intros g Hg; apply in_map_iff in Hg as [it [<- _]];
        apply blockParts_nonempty).
  rewrite !join_cons; [reflexivity| |discriminate].
  cbn [map List.concat]. discriminate.
Qed.

Lemma sectionParts_nil (sev : Impact) (items : list NormalizedIssue) :
  findingsOf sev items = [] -> sectionParts sev items = [].
Proof. unfold sectionParts. now intros ->. Qed.

Lemma sectionParts_cons (sev : Impact) (items : list NormalizedIssue) :
  findingsOf sev items <> [] ->
  sectionParts sev items
  = severityHeading sev :: [] :: List.concat (map blockParts (findingsOf sev items)).
Proof. unfold sectionParts. destruct (findingsOf sev items); [contradiction|reflexivity]. Qed.

Lemma reportParts_present (items : list NormalizedIssue) (sevs : list Impact) :
  reportParts items sevs
  = List.concat
      (map (fun sev => sectionParts sev items)
         (filter (fun sev => negb (Nat.eqb (List.length (findingsOf sev items)) 0)) sevs)).
Proof.
  unfold reportParts. induction sevs as [|sev sevs IH]; [reflexivity|].
  cbn [map List.concat filter]. rewrite IH.
  destruct (findingsOf sev items) as [|f fs] eqn:E.
  - now rewrite (sectionParts_nil _ _ E).
  - reflexivity.
Qed.

Lemma sections_parts (items : list NormalizedIssue) (sevs : list Impact) :
  join NL
    (map (fun sev =>
            severityHeading sev ++ NL ++ NL
            ++ join NL (map renderOne (findingsOf sev items)))
       (filter (fun sev => negb (Nat.eqb (List.length (findingsOf sev items)) 0)) sevs))
  = join NL (reportParts items sevs).
Proof.
  rewrite reportParts_present.
  set (present := filter _ sevs).
  assert (Hp : forall sev, In sev present -> findingsOf sev items <> []).
  { intros sev Hin. apply filter_In in Hin as [_ Hin].
    destruct (findingsOf sev items); [discriminate Hin|discriminate]. }
  rewrite (map_ext_in _ (fun sev => join NL (sectionParts sev items)))
    by (intros sev Hin; now apply sectionText_parts, Hp).
  rewrite <- (map_map (fun sev => sectionParts sev items) (join NL)).
  apply join_flatten.
  apply Forall_forall. intros g Hg. apply in_map_iff in Hg as [sev [<- Hin]].
  specialize (Hp sev Hin). unfold sectionParts.
  destruct (findingsOf sev items); [contradiction|discriminate].
Qed.

Lemma reportParts_head (items : list NormalizedIssue) (sevs : list Impact) :
  reportParts items sevs = []
  \/ exists sev rest, reportParts items sevs = severityHeading sev :: rest.
Proof.
  unfold reportParts. induction sevs as [|sev sevs IH]; [now left|].
  cbn [map List.concat].
  destruct (findingsOf sev items) as [|f fs] eqn:E.
  - now rewrite (sectionParts_nil _ _ E).
  - right. rewrite sectionParts_cons by (rewrite E; discriminate).
    cbn [app]. eauto.
Qed.

Lemma reportText_parts (address : jsstring) (items : list NormalizedIssue) :
  reportText address items
  = match reportParts items order with
    | [] => noVulnerabilities address
    | _ :: _ => join NL (reportParts items order)
    end.
Proof.
  unfold reportText. rewrite sections_parts.
  destruct (reportParts_head items order) as [->|[sev [rest ->]]]; [reflexivity|].
  assert (H : truthy (join NL (severityHeading sev :: rest)) = true).
  { destruct rest; [now destruct sev|]. rewrite join_cons by discriminate. now destruct sev. }
  now rewrite H.
Qed.

(* ------------------------------------------------------------------ *)
(** ** The parts of a block *)

(** Close a goal [linesPlain (a ++ b ++ ...) = true] from the facts at
    hand. *)
Ltac plain_parts :=
  repeat (apply linesPlain_app);
  first [ assumption | reflexivity | apply linesPlain_numberToString ].

Lemma linesPlain_friendlyTitle (check : jsstring) :
  linesPlain check = true -> linesPlain (friendlyTitle check) = true.
Proof.
  intros H. unfold friendlyTitle.
  repeat match goal with |- context [eqlit check ?s] => destruct (eqlit check s) end;
    try reflexivity; assumption.
Qed.

Lemma linesPlain_riskOf (it : NormalizedIssue) :
  linesPlain (description it) = true -> linesPlain (riskOf it) = true.
Proof.
  intros H. unfold riskOf.
  repeat match goal with |- context [eqlit (check it) ?s] => destruct (eqlit (check it) s) end;
    try reflexivity.
  now destruct (truthy (description it)).
Qed.

Lemma linesPlain_remediationOf (it : NormalizedIssue) :
  linesPlain (remediationOf it) = true.
Proof.
  unfold remediationOf.
  repeat match goal with |- context [eqlit (check it) ?s] => destruct (eqlit (check it) s) end;
    reflexivity.
Qed.

Lemma linesPlain_firstNamedElement (locs : list Location) :
  forallb plainLocation locs = true -> linesPlain (firstNamedElement locs) = true.
Proof.
  unfold firstNamedElement. intros H.
  destruct (find _ locs) as [l|] eqn:E; [|reflexivity].
  apply find_some in E as [Hin _].
  rewrite forallb_forall in H. specialize (H l Hin).
  unfold plainLocation in H. now apply andb_prop in H.
Qed.

Lemma formatLocationsFrom_plain (seen : list jsstring) (locs : list Location) :
  forallb plainLocation locs = true ->
  Forall (fun p => linesPlain p = true) (formatLocationsFrom seen locs).
Proof.
  revert seen; induction locs as [|l rest IH]; intros seen H; cbn [formatLocationsFrom].
  - constructor.
  - cbn [forallb] in H. apply andb_prop in H as [Hl Hrest].
    unfold plainLocation in Hl. apply andb_prop in Hl as [Hf He].
    destruct (Set_has seen (locationKey l)); [now apply IH|].
    constructor; [|now apply IH].
    destruct (line l) as [n|], (truthy (element l)); plain_parts.
Qed.

Lemma headerLinesOf_plain (it : NormalizedIssue) :
  forallb plainLocation (locations it) = true ->
  Forall (fun p => linesPlain p = true) (headerLinesOf it).
Proof.
  intros H. unfold headerLinesOf.
  assert (Hcontract :
            linesPlain (lit "- Contract: "
                        ++ match nth_error (locations it) 0 with
                           | Some l => file l
                           | None => lit "(unknown file)"
                           end) = true).
  { destruct (locations it) as [|l locs]; [reflexivity|].
    cbn [nth_error]. cbn [forallb] in H. apply andb_prop in H as [Hl _].
    unfold plainLocation in Hl. apply andb_prop in Hl as [Hf _]. plain_parts. }
  destruct (1 <? List.length (formatLocations (locations it)))%nat.
  - constructor; [exact Hcontract|]. constructor; [reflexivity|].
    now apply formatLocationsFrom_plain.
  - constructor; [exact Hcontract|]. constructor; [|constructor].
    pose proof (linesPlain_firstNamedElement _ H) as Helem.
    set (elem := if truthy (firstNamedElement (locations it))
                 then firstNamedElement (locations it) else lit "N/A").
    assert (Hel : linesPlain elem = true)
      by (unfold elem; now destruct (truthy (firstNamedElement (locations it)))).
    destruct (test functionishRegex elem || existsb _ functionChecks);
      destruct (firstLine (locations it)) as [n|]; try destruct (Z.eqb n 0);
      plain_parts.
Qed.

Lemma swcParts_plain (it : NormalizedIssue) :
  plainIssue it = true -> Forall (fun p => linesPlain p = true) (swcParts it).
Proof.
  unfold plainIssue, swcParts. intros H. apply andb_prop in H as [_ H].
  destruct (swc it) as [s|]; [|repeat constructor].
  apply andb_prop in H as [H Hrefs]. apply andb_prop in H as [H Hrem].
  apply andb_prop in H as [Hid Htitle].
  apply Forall_app. split; [|apply Forall_app; split].
  - constructor; [|constructor].
    destruct (swc_id s) as [i|]; [destruct (truthy i)|]; plain_parts.
  - destruct (truthy (swc_remediation s)); constructor; [|constructor]. plain_parts.
  - destruct (swc_references s) as [|r refs] eqn:E; constructor; [reflexivity|].
    rewrite <- E in *. clear E. apply Forall_forall. intros l Hl.
    apply in_map_iff in Hl as [r' [<- Hin]].
    rewrite forallb_forall in Hrefs. specialize (Hrefs r' Hin). plain_parts.
Qed.

Lemma blockTail_plain (it : NormalizedIssue) :
  plainIssue it = true -> Forall (fun p => linesPlain p = true) (blockTail it).
Proof.
  intros H. pose proof (swcParts_plain it H) as Hswc.
  unfold plainIssue in H. apply andb_prop in H as [H _].
  apply andb_prop in H as [H Hlocs]. apply andb_prop in H as [H Hdesc].
  apply andb_prop in H as [Hcheck Hconf].
  pose proof (linesPlain_riskOf it Hdesc) as Hrisk.
  pose proof (linesPlain_remediationOf it) as Hremediation.
  unfold blockTail. repeat (apply Forall_app; split).
  - now apply headerLinesOf_plain.
  - repeat constructor; plain_parts.
  - exact Hswc.
  - repeat constructor.
Qed.

(** The first part of a block: its first line is the sub-heading, the
    lines that follow are plain. *)
Lemma blockHead_lines (it : NormalizedIssue) :
  plainIssue it = true ->
  exists l ls,
    splitLines (lit "## " ++ friendlyTitle (check it)) = (lit "## " ++ l) :: ls
    /\ Forall (fun x => plain x = true) ls.
Proof.
  intros H. unfold plainIssue in H. apply andb_prop in H as [H _].
  apply andb_prop in H as [H _]. apply andb_prop in H as [H _].
  apply andb_prop in H as [Hcheck _].
  apply linesPlain_friendlyTitle in Hcheck. unfold linesPlain in Hcheck.
  pose proof (splitLines_nonempty (friendlyTitle (check it))) as Hne.
  destruct (splitLines (friendlyTitle (check it))) as [|l ls] eqn:E; [contradiction|].
  exists l, ls. split.
  - change (lit "## " ++ friendlyTitle (check it))
      with (35%N :: 35%N :: 32%N :: friendlyTitle (check it)).
    rewrite !splitLines_char by reflexivity. now rewrite E.
  - cbn [forallb] in Hcheck. apply andb_prop in Hcheck as [_ Hls].
    apply Forall_forall. rewrite forallb_forall in Hls. exact Hls.
Qed.

(* ------------------------------------------------------------------ *)
(** ** Reading the sections back *)

Lemma untilTopLevel_app (a b : list jsstring) :
  Forall (fun l => isTopLevelHeadingLine l = false) a ->
  untilTopLevel (a ++ b) = a ++ untilTopLevel b.
Proof.
  induction 1 as [|l a Hl Ha IH]; [reflexivity|].
  cbn [app untilTopLevel]. now rewrite Hl, IH.
Qed.

Lemma afterHeading_app (sev : Impact) (a b : list jsstring) :
  Forall (fun l => isSeverityHeadingLine sev l = false) a ->
  afterHeading sev (a ++ b) = afterHeading sev b.
Proof.
  induction 1 as [|l a Hl Ha IH]; [reflexivity|].
  cbn [app afterHeading]. now rewrite Hl.
Qed.

Lemma existsb_heading_app (sev : Impact) (a b : list jsstring) :
  Forall (fun l => isSeverityHeadingLine sev l = false) a ->
  existsb (isSeverityHeadingLine sev) (a ++ b) = existsb (isSeverityHeadingLine sev) b.
Proof.
  induction 1 as [|l a Hl Ha IH]; [reflexivity|].
  cbn [app existsb]. now rewrite Hl.
Qed.

Lemma filter_all (A : Type) (f : A -> bool) (l : list A) :
  Forall (fun x => f x = true) l -> filter f l = l.
Proof. induction 1 as [|x l Hx Hl IH]; [reflexivity|]. cbn. now rewrite Hx, IH. Qed.

Lemma filter_none (A : Type) (f : A -> bool) (l : list A) :
  Forall (fun x => f x = false) l -> filter f l = [].
Proof. induction 1 as [|x l Hx Hl IH]; [reflexivity|]. cbn. now rewrite Hx. Qed.

Lemma plain_lines_no_heading (sev : Impact) (ls : list jsstring) :
  Forall (fun l => plain l = true) ls ->
  Forall (fun l => isTopLevelHeadingLine l = false) ls
  /\ Forall (fun l => isSubHeadingLine l = false) ls
  /\ Forall (fun l => isSeverityHeadingLine sev l = false) ls.
Proof.
  intros H. repeat split; (eapply Forall_impl; [|exact H]); intros l Hl;
    apply plain_not_heading in Hl as [Htop Hsub]; try assumption.
  now apply not_top_not_severity.
Qed.

Lemma severityHeading_other (sev sev' : Impact) :
  sev <> sev' -> isSeverityHeadingLine sev (severityHeading sev') = false.
Proof. destruct sev, sev'; intros H; try reflexivity; contradiction. Qed.

Lemma severityHeading_self (sev : Impact) :
  isSeverityHeadingLine sev (severityHeading sev) = true
  /\ isTopLevelHeadingLine (severityHeading sev) = true
  /\ splitLines (severityHeading sev) = [severityHeading sev].
Proof. now destruct sev. Qed.

Section ReportOfPlainFindings.

Variable items : list NormalizedIssue.
Hypothesis items_plain : Forall (fun it => plainIssue it = true) items.

Lemma findingsOf_plain (sev : Impact) :
  Forall (fun it => plainIssue it = true) (findingsOf sev items).
Proof.
  apply Forall_forall. intros it Hin. apply filter_In in Hin as [Hin _].
  rewrite Forall_forall in items_plain. now apply items_plain.
Qed.

(** The lines of a sequence of blocks: none is a top-level heading, and
    there is one sub-heading per block. *)
Lemma blocks_facts (its : list NormalizedIssue) :
  Forall (fun it => plainIssue it = true) its ->
  Forall (fun l => isTopLevelHeadingLine l = false)
    (linesOf (List.concat (map blockParts its)))
  /\ List.length (filter isSubHeadingLine (linesOf (List.concat (map blockParts its))))
     = List.length its.
Proof.
  induction 1 as [|it its Hit Hits [IH1 IH2]]; [split; [constructor|reflexivity]|].
  cbn [map List.concat]. rewrite linesOf_app. unfold blockParts at 1 3.
  rewrite linesOf_cons.
  destruct (blockHead_lines it Hit) as [l [ls [-> Hls]]].
  pose proof (linesOf_plain (blockTail_plain it Hit)) as Htail.
  destruct (plain_lines_no_heading High Hls) as [Hls1 [Hls2 _]].
  destruct (plain_lines_no_heading High Htail) as [Htail1 [Htail2 _]].
  split.
  - repeat (apply Forall_app; split); try assumption.
    constructor; [reflexivity|assumption].
  - rewrite !filter_app. cbn [app filter].
    change (isSubHeadingLine (lit "## " ++ l)) with true. cbn iota.
    rewrite (filter_none _ Hls2), (filter_none _ Htail2), !length_app.
    cbn [List.length app]. now rewrite IH2.
Qed.

Lemma sectionParts_lines (sev : Impact) :
  findingsOf sev items <> [] ->
  linesOf (sectionParts sev items)
  = severityHeading sev :: [] :: linesOf (List.concat (map blockParts (findingsOf sev items))).
Proof.
  intros Hne. rewrite sectionParts_cons by assumption.
  rewrite !linesOf_cons. now rewrite (proj2 (proj2 (severityHeading_self sev))).
Qed.

Lemma reportParts_other (sev : Impact) (sevs : list Impact) :
  ~ In sev sevs ->
  Forall (fun l => isSeverityHeadingLine sev l = false) (linesOf (reportParts items sevs)).
Proof.
  unfold reportParts. induction sevs as [|sev' sevs IH]; intros Hnin; [constructor|].
  cbn [map List.concat]. rewrite linesOf_app. apply Forall_app. split.
  - destruct (findingsOf sev' items) as [|f fs] eqn:E.
    + rewrite (sectionParts_nil _ _ E). constructor.
    + rewrite sectionParts_lines by (rewrite E; discriminate).
      constructor.
      * apply severityHeading_other. intros ->. apply Hnin. now left.
      * constructor; [reflexivity|].
        eapply Forall_impl; [|apply (blocks_facts (findingsOf_plain sev'))].
        intros l Hl. now apply not_top_not_severity.
  - apply IH. intros Hin. apply Hnin. now right.
Qed.

Lemma reportParts_untilTopLevel (sevs : list Impact) :
  untilTopLevel (linesOf (reportParts items sevs)) = [].
Proof.
  destruct (reportParts_head items sevs) as [->|[sev [rest ->]]]; [reflexivity|].
  rewrite linesOf_cons, (proj2 (proj2 (severityHeading_self sev))).
  cbn [app untilTopLevel]. now rewrite (proj1 (proj2 (severityHeading_self sev))).
Qed.

Lemma reportParts_split (before after : list Impact) (sev : Impact) :
  linesOf (reportParts items (before ++ sev :: after))
  = linesOf (reportParts items before)
    ++ linesOf (sectionParts sev items) ++ linesOf (reportParts items after).
Proof.
  unfold reportParts. rewrite map_app, concat_app. cbn [map List.concat].
  now rewrite !linesOf_app.
Qed.

(** The lines read under the heading of [sev], and whether there is such
    a heading, when [sev] occurs once in the list of severities. *)
Lemma reportParts_section (before after : list Impact) (sev : Impact) :
  ~ In sev before -> ~ In sev after ->
  List.length
    (filter isSubHeadingLine
       match afterHeading sev (linesOf (reportParts items (before ++ sev :: after))) with
       | Some rest => untilTopLevel rest
       | None => []
       end)
  = List.length (findingsOf sev items)
  /\ (findingsOf sev items = [] ->
      existsb (isSeverityHeadingLine sev)
        (linesOf (reportParts items (before ++ sev :: after)))
      = false).
Proof.
  intros Hb Ha. rewrite reportParts_split.
  rewrite afterHeading_app, existsb_heading_app by now apply reportParts_other.
  destruct (findingsOf sev items) as [|f fs] eqn:E.
  - rewrite (sectionParts_nil _ _ E). cbn [linesOf map List.concat app].
    fold (linesOf (reportParts items after)).
    pose proof (@reportParts_other sev after Ha) as Hafter.
    rewrite <- (app_nil_r (linesOf (reportParts items after))).
    rewrite afterHeading_app, existsb_heading_app by assumption.
    split; reflexivity.
  - rewrite sectionParts_lines by (rewrite E; discriminate).
    cbn [app afterHeading]. rewrite (proj1 (severityHeading_self sev)).
    split; [|discriminate].
    destruct (blocks_facts (findingsOf_plain sev)) as [Htop Hcount].
    change ([] :: linesOf (List.concat (map blockParts (findingsOf sev items)))
               ++ linesOf (reportParts items after))
      with (([] :: linesOf (List.concat (map blockParts (findingsOf sev items))))
              ++ linesOf (reportParts items after)).
    rewrite untilTopLevel_app by (constructor; [reflexivity|exact Htop]).
    rewrite reportParts_untilTopLevel, app_nil_r.
    cbn [filter]. change (isSubHeadingLine []) with false. cbn iota.
    rewrite Hcount, E. reflexivity.
Qed.

End ReportOfPlainFindings.

(* ------------------------------------------------------------------ *)
(** ** Counts of the deterministic renderer *)

Lemma order_split (sev : Impact) :
  exists before after,
    order = before ++ sev :: after /\ ~ In sev before /\ ~ In sev after.
Proof.
  destruct sev.
  - exists [], [Medium; Low; Informational]. cbn. intuition discriminate.
  - exists [High], [Low; Informational]. cbn. intuition discriminate.
  - exists [High; Medium], [Informational]. cbn. intuition discriminate.
  - exists [High; Medium; Low], []. cbn. intuition discriminate.
Qed.

Lemma noVulnerabilities_lines (address : jsstring) (sev : Impact) :
  linesPlain address = true ->
  afterHeading sev (splitLines (noVulnerabilities address)) = None
  /\ existsb (isSeverityHeadingLine sev) (splitLines (noVulnerabilities address)) = false.
Proof.
  intros H.
  assert (Hall : linesPlain (noVulnerabilities address) = true)
    by (unfold noVulnerabilities; plain_parts).
  unfold linesPlain in Hall.
  assert (Hplain : Forall (fun l => plain l = true) (splitLines (noVulnerabilities address)))
    by (apply Forall_forall; rewrite forallb_forall in Hall; exact Hall).
  destruct (plain_lines_no_heading sev Hplain) as [_ [_ Hsev]].
  rewrite <- (app_nil_r (splitLines (noVulnerabilities address))).
  rewrite afterHeading_app, existsb_heading_app by assumption.
  now split.
Qed.

(** C6, as the code has it.  For every address and every finding set in
    whose texts no line starts with [#], and whose findings all carry one
    of the four severities, the renderer returns a report in which, for
    each severity, the section under that severity's top-level heading has
    exactly as many sub-headings as the set has findings of that severity,
    and in which a severity without finding has no top-level heading. *)
Theorem render_counts (address : jsstring) (items : list NormalizedIssue) :
  linesPlain address = true ->
  Forall (fun it => recognised (impact it) = true) items ->
  Forall (fun it => plainIssue it = true) items ->
  exists out,
    renderMarkdownDeterministic address items = Ok out
    /\ forall sev,
         subheadingsUnder sev out = List.length (findingsOf sev items)
         /\ (findingsOf sev items = [] -> hasSeverityHeading sev out = false).
Proof.
  intros Haddr Hsev Hplain.
  destruct (@byImpactFill_ok items byImpactInit) as [b Hb].
  { eapply Forall_impl; [|exact Hsev]. intros it. apply recognised_not_inherited. }
  exists (reportText address items). split; [now apply (@render_reportText address items b)|].
  intros sev. destruct (order_split sev) as [before [after [Horder [Hbefore Hafter]]]].
  pose proof (@reportParts_section items Hplain before after sev Hbefore Hafter) as Hsec.
  rewrite <- Horder in Hsec.
  unfold subheadingsUnder, sectionLines, hasSeverityHeading.
  rewrite reportText_parts.
  destruct (reportParts items order) as [|l ls] eqn:E.
  - destruct (@noVulnerabilities_lines address sev Haddr) as [-> ->].
    cbn [linesOf map List.concat afterHeading filter List.length] in Hsec |- *.
    destruct Hsec as [Hsec _]. split; [exact Hsec | reflexivity].
  - rewrite <- E in *. rewrite splitLines_join by (rewrite E; discriminate).
    exact Hsec.
Qed.

Lemma render_counts_witness :
  exists out,
    renderMarkdownDeterministic (lit "0xABC") [namingIssue; highIssueA; multiLineIssue]
    = Ok out
    /\ forall sev,
         subheadingsUnder sev out
         = List.length (findingsOf sev [namingIssue; highIssueA; multiLineIssue])
         /\ (findingsOf sev [namingIssue; highIssueA; multiLineIssue] = [] ->
             hasSeverityHeading sev out = false).
Proof.
  apply (@render_counts (lit "0xABC") [namingIssue; highIssueA; multiLineIssue]).
  - reflexivity.
  - repeat constructor.
  - repeat constructor.
Defined.

(** C6 as stated fails for a finding whose description has a second line:
    a line [## Reference] is read as a second sub-heading of the High
    section, and a line [# Low Impact Findings] as the heading of a
    severity without finding. *)
Lemma render_counts_second_line :
  (recognised (impact secondLineSubHeading) = true
   /\ List.length (findingsOf High [secondLineSubHeading]) = 1
   /\ exists out,
        renderMarkdownDeterministic (lit "0xABC") [secondLineSubHeading] = Ok out
        /\ subheadingsUnder High out = 2)
  /\ (recognised (impact secondLineHeading) = true
      /\ findingsOf Low [secondLineHeading] = []
      /\ exists out,
           renderMarkdownDeterministic (lit "0xABC") [secondLineHeading] = Ok out
           /\ hasSeverityHeading Low out = true).
Proof.
  split.
  - split; [reflexivity|]. split; [reflexivity|].
    eexists. split; [reflexivity|]. vm_compute. reflexivity.
  - split; [reflexivity|]. split; [reflexivity|].
    eexists. split; [reflexivity|]. vm_compute. reflexivity.
Qed.

(* ------------------------------------------------------------------ *)
(** ** Keys of locations whose file has no colon *)

Lemma lit_inj (a b : string) : lit a = lit b -> a = b.
Proof.
  unfold lit. intros H.
  apply (f_equal (map ascii_of_N)) in H. rewrite !map_map in H.
  rewrite !(map_ext _ (fun x => x) ascii_N_embedding), !map_id in H.
  apply (f_equal string_of_list_ascii) in H.
  now rewrite !string_of_list_ascii_of_string in H.
Qed.

Lemma to_int_proper (z : Z) :
  Z.to_int z <> Decimal.Pos Decimal.Nil /\ Z.to_int z <> Decimal.Neg Decimal.Nil.
Proof.
  destruct z as [|p|p]; cbn; split; try discriminate;
    intros H; injection H as H; now apply Unsigned.to_uint_nonnil in H.
Qed.

Lemma numberToString_inj (a b : Z) : numberToString a = numberToString b -> a = b.
Proof.
  unfold numberToString. intros H. apply lit_inj in H.
  apply (f_equal NilZero.int_of_string) in H.
  destruct (to_int_proper a) as [Ha1 Ha2], (to_int_proper b) as [Hb1 Hb2].
  rewrite !NilZero.isi in H by assumption.
  injection H as H. apply (f_equal Z.of_int) in H.
  now rewrite !DecimalZ.of_to in H.
Qed.

Lemma numberToString_nonempty (z : Z) : numberToString z <> [].
Proof.
  unfold numberToString, NilZero.string_of_int, NilZero.string_of_uint.
  destruct (Z.to_int z) as [u|u]; destruct u; discriminate.
Qed.

Lemma colonFree_uint (u : Decimal.uint) : colonFree (lit (NilEmpty.string_of_uint u)) = true.
Proof. induction u; cbn; auto. Qed.

Lemma colonFree_numberToString (z : Z) : colonFree (numberToString z) = true.
Proof.
  unfold numberToString, NilZero.string_of_int, NilZero.string_of_uint.
  destruct (Z.to_int z) as [u|u]; destruct u; try reflexivity;
    first [ apply (colonFree_uint (Decimal.D0 _)) | apply (colonFree_uint (Decimal.D1 _))
          | apply (colonFree_uint (Decimal.D2 _)) | apply (colonFree_uint (Decimal.D3 _))
          | apply (colonFree_uint (Decimal.D4 _)) | apply (colonFree_uint (Decimal.D5 _))
          | apply (colonFree_uint (Decimal.D6 _)) | apply (colonFree_uint (Decimal.D7 _))
          | apply (colonFree_uint (Decimal.D8 _)) | apply (colonFree_uint (Decimal.D9 _)) ].
Qed.

Lemma colonFree_lineText (l : Location) : colonFree (lineText l) = true.
Proof. unfold lineText. destruct (line l); [apply colonFree_numberToString|reflexivity]. Qed.

Lemma lineText_inj (a b : Location) : lineText a = lineText b -> line a = line b.
Proof.
  unfold lineText. destruct (line a) as [n|], (line b) as [m|]; intros H.
  - now rewrite (numberToString_inj _ _ H).
  - now apply numberToString_nonempty in H.
  - symmetry in H. now apply numberToString_nonempty in H.
  - reflexivity.
Qed.

(** The text before the first colon determines the rest. *)
Lemma colon_split (a b x y : jsstring) :
  colonFree a = true -> colonFree b = true ->
  a ++ lit ":" ++ x = b ++ lit ":" ++ y -> a = b /\ x = y.
Proof.
  revert b; induction a as [|c a IH]; intros [|d b] Ha Hb H.
  - injection H as H. now split.
  - exfalso. injection H as Hd _. subst d. cbn in Hb. discriminate.
  - exfalso. injection H as Hc _. subst c. cbn in Ha. discriminate.
  - injection H as -> H.
    cbn [colonFree forallb] in Ha, Hb.
    apply andb_prop in Ha as [_ Ha]. apply andb_prop in Hb as [_ Hb].
    destruct (IH b Ha Hb H) as [-> ->]. now split.
Qed.

Lemma locationKey_inj (a b : Location) :
  colonFree (file a) = true -> colonFree (file b) = true ->
  locationKey a = locationKey b -> a = b.
Proof.
  intros Ha Hb H. unfold locationKey in H.
  fold (lineText a) in H. fold (lineText b) in H.
  apply colon_split in H as [Hfile H]; [|assumption..].
  apply colon_split in H as [Hline Helem]; [|apply colonFree_lineText..].
  apply lineText_inj in Hline.
  destruct a, b. cbn in *. congruence.
Qed.

(** Away from the collisions the deduplicator is as C3 describes it: when
    no file path has a colon, the location that follows [pre] is dropped
    if it is equal to a location of [pre] and kept otherwise. *)
Lemma uniqueLocations_colon_free (pre : list Location) (l : Location) :
  Forall (fun x => colonFree (file x) = true) (pre ++ [l]) ->
  (In l pre -> uniqueLocations (pre ++ [l]) = uniqueLocations pre)
  /\ (~ In l pre -> uniqueLocations (pre ++ [l]) = uniqueLocations pre ++ [l]).
Proof.
  intros H. apply Forall_app in H as [Hpre Hl]. inversion Hl as [|? ? Hl' _]; subst.
  rewrite uniqueLocations_snoc. split; intros Hin.
  - assert (Hk : Set_has (map locationKey pre) (locationKey l) = true)
      by (apply Set_has_In; now apply in_map).
    rewrite Hk. now rewrite app_nil_r.
  - destruct (Set_has (map locationKey pre) (locationKey l)) eqn:Hk; [|reflexivity].
    exfalso. apply Hin. apply Set_has_In, in_map_iff in Hk as [x [Hx Hxin]].
    rewrite Forall_forall in Hpre.
    now rewrite <- (locationKey_inj x l (Hpre x Hxin) Hl' Hx).
Qed.

(* ------------------------------------------------------------------ *)
(** ** Findings of an unrecognised impact *)

Lemma unrecognised_no_severity (imp : jsstring) (sev : Impact) :
  recognised imp = false -> str_eqb imp (impactName sev) = false.
Proof.
  unfold recognised, order. cbn [existsb]. intros H.
  repeat (apply orb_false_elim in H as [? H]). now destruct sev.
Qed.

Lemma findingsOf_recognised (items : list NormalizedIssue) (sev : Impact) :
  findingsOf sev (filter (fun it => recognised (impact it)) items) = findingsOf sev items.
Proof.
  unfold findingsOf. induction items as [|it rest IH]; [reflexivity|].
  cbn [filter]. destruct (recognised (impact it)) eqn:E.
  - cbn [filter]. now rewrite IH.
  - now rewrite (@unrecognised_no_severity _ sev E).
Qed.

Lemma reportText_ext (address : jsstring) (items items' : list NormalizedIssue) :
  (forall sev, findingsOf sev items = findingsOf sev items') ->
  reportText address items = reportText address items'.
Proof.
  intros H. unfold reportText.
  rewrite (filter_ext _ (fun sev => negb (Nat.eqb (List.length (findingsOf sev items')) 0)))
    by (intros sev; now rewrite H).
  rewrite (map_ext _ (fun sev =>
             severityHeading sev ++ NL ++ NL
             ++ join NL (map renderOne (findingsOf sev items'))))
    by (intros sev; now rewrite H).
  reflexivity.
Qed.

(** Away from the inherited property names the renderer is as C10
    describes it: a finding whose impact is not one of the four severities
    leaves no trace in the report, and a set of such findings gives the
    sentence of the empty set. *)
Lemma render_unrecognised (address : jsstring) (items : list NormalizedIssue) :
  Forall (fun it => objectPrototypeHas (impact it) = false) items ->
  renderMarkdownDeterministic address items
  = renderMarkdownDeterministic address (filter (fun it => recognised (impact it)) items)
  /\ (Forall (fun it => recognised (impact it) = false) items ->
      renderMarkdownDeterministic address items = Ok (noVulnerabilities address)).
Proof.
  intros Hown.
  destruct (@byImpactFill_ok items byImpactInit Hown) as [b Hb].
  assert (Hown' : Forall (fun it => objectPrototypeHas (impact it) = false)
                    (filter (fun it => recognised (impact it)) items)).
  { apply Forall_forall. intros it Hin. apply filter_In in Hin as [Hin _].
    rewrite Forall_forall in Hown. now apply Hown. }
  destruct (@byImpactFill_ok _ byImpactInit Hown') as [b' Hb'].
  rewrite (@render_reportText address items b Hb).
  rewrite (@render_reportText address _ b' Hb').
  split.
  - f_equal. apply reportText_ext. intros sev. now rewrite findingsOf_recognised.
  - intros Hnone. f_equal.
    rewrite (@reportText_ext address items []); [reflexivity|].
    intros sev. unfold findingsOf. cbn [filter].
    apply filter_none. eapply Forall_impl; [|exact Hnone].
    intros it Hit. now apply unrecognised_no_severity.
Qed.

(* ------------------------------------------------------------------ *)
(** ** Grouping twice, away from the key collisions *)

Lemma firstNamedElement_cons (l : Location) (locs : list Location) :
  firstNamedElement (l :: locs)
  = if truthy (element l) then element l else firstNamedElement locs.
Proof. unfold firstNamedElement. cbn [find]. now destruct (truthy (element l)). Qed.

Lemma firstNamedElement_app (a b : list Location) :
  firstNamedElement (a ++ b)
  = if truthy (firstNamedElement a) then firstNamedElement a else firstNamedElement b.
Proof.
  induction a as [|l a IH]; [reflexivity|].
  cbn [app]. rewrite !firstNamedElement_cons.
  destruct (truthy (element l)) eqn:E; [now rewrite E|exact IH].
Qed.

Lemma firstNamedElement_unique (seen : list jsstring) (locs : list Location) :
  Forall (fun l => colonFree (file l) = true) locs ->
  (forall k, In k seen ->
     exists y, locationKey y = k /\ element y = [] /\ colonFree (file y) = true) ->
  firstNamedElement (uniqueLocationsFrom seen locs) = firstNamedElement locs.
Proof.
  intros Hfree; revert seen; induction Hfree as [|l locs Hl Hlocs IH]; intros seen Hseen;
    [reflexivity|].
  cbn [uniqueLocationsFrom]. rewrite firstNamedElement_cons.
  destruct (Set_has seen (locationKey l)) eqn:Hhas.
  - apply Set_has_In in Hhas. destruct (Hseen _ Hhas) as [y [Hy [Hey Hfy]]].
    apply locationKey_inj in Hy; [|assumption..]. subst y. rewrite Hey. cbn [truthy].
    now apply IH.
  - rewrite firstNamedElement_cons.
    destruct (truthy (element l)) eqn:E; [reflexivity|].
    apply IH. intros k Hk. apply Set_add_In in Hk as [->|Hk]; [|now apply Hseen].
    exists l. repeat split; [|assumption]. now destruct (element l).
Qed.

Lemma firstNamedElement_group (s : jsstring) (members : list NormalizedIssue) :
  Forall (fun m => firstNamedElement (locations m) = s) members ->
  members <> [] ->
  firstNamedElement (List.concat (map locations members)) = s.
Proof.
  induction 1 as [|m members Hm Hms IH]; intros Hne; [contradiction|].
  cbn [map List.concat]. rewrite firstNamedElement_app, Hm.
  destruct (truthy s) eqn:E; [reflexivity|].
  destruct members as [|m' members]; [now destruct s|].
  apply IH. discriminate.
Qed.

Lemma firstInstancesFrom_id (seen : list jsstring) (items : list NormalizedIssue) :
  NoDup (map groupKey items) ->
  (forall it, In it items -> Set_has seen (groupKey it) = false) ->
  firstInstancesFrom seen items = items.
Proof.
  revert seen; induction items as [|it rest IH]; intros seen Hnd Hseen; [reflexivity|].
  cbn [firstInstancesFrom]. rewrite (Hseen it (or_introl eq_refl)). f_equal.
  cbn [map] in Hnd. inversion Hnd as [|? ? Hnin Hnd']; subst.
  apply IH; [assumption|].
  intros it' Hin. rewrite Set_has_app, (Hseen it' (or_intror Hin)).
  rewrite Set_has_cons. cbn [orb].
  destruct (str_eqb (groupKey it') (groupKey it)) eqn:E; [|reflexivity].
  exfalso. apply Hnin. apply str_eqb_eq in E. rewrite <- E. now apply in_map.
Qed.

Lemma filter_sameGroup_single (items : list NormalizedIssue) (g : NormalizedIssue) :
  NoDup (map groupKey items) -> In g items -> filter (sameGroup g) items = [g].
Proof.
  induction items as [|it rest IH]; intros Hnd Hin; [contradiction|].
  cbn [map] in Hnd. inversion Hnd as [|? ? Hnin Hnd']; subst.
  cbn [filter]. destruct Hin as [->|Hin].
  - unfold sameGroup at 1. rewrite str_eqb_refl. f_equal.
    apply filter_none. apply Forall_forall. intros x Hx. unfold sameGroup.
    apply str_eqb_neq. intros E. apply Hnin. rewrite <- E. now apply in_map.
  - unfold sameGroup at 1.
    destruct (str_eqb (groupKey it) (groupKey g)) eqn:E.
    + exfalso. apply Hnin. apply str_eqb_eq in E. rewrite E. now apply in_map.
    + now apply IH.
Qed.

Section ColonFreeFiles.

Variable items : list NormalizedIssue.

Hypothesis files_colon_free :
  forall it, In it items -> eligible it = true ->
    Forall (fun l => colonFree (file l) = true) (locations it).

Lemma mergeGroup_key (it : NormalizedIssue) :
  In it (firstInstances (filter eligible items)) ->
  groupKey (mergeGroup (filter eligible items) it) = groupKey it.
Proof.
  intros Hin. apply (firstInstancesFrom_In [] _ it) in Hin as [Hin _].
  pose proof Hin as Hin'. apply filter_In in Hin' as [Hitems Hel].
  unfold mergeGroup, groupKey at 1. cbn [check locations set_locations].
  unfold groupKey. do 2 f_equal.
  set (members := filter (sameGroup it) (filter eligible items)).
  assert (Hmem : forall m, In m members -> In m items /\ eligible m = true
                                          /\ groupKey m = groupKey it).
  { intros m Hm. apply filter_In in Hm as [Hm Hsame].
    apply filter_In in Hm as [Hm Hme]. apply str_eqb_eq in Hsame. auto. }
  unfold uniqueLocations. rewrite firstNamedElement_unique.
  - apply firstNamedElement_group.
    + apply Forall_forall. intros m Hm. destruct (Hmem m Hm) as [_ [Hme Hkey]].
      unfold groupKey in Hkey. unfold eligible in Hme, Hel.
      apply str_eqb_eq in Hme, Hel. rewrite Hme, Hel in Hkey.
      now do 2 apply app_inv_head in Hkey.
    + assert (In it members) as Hit
        by (apply filter_In; split; [assumption|apply str_eqb_refl]).
      intros E. now rewrite E in Hit.
  - apply Forall_forall. intros l Hl. apply in_concat in Hl as [locs [Hlocs Hl]].
    apply in_map_iff in Hlocs as [m [<- Hm]]. destruct (Hmem m Hm) as [Hmi [Hme _]].
    pose proof (files_colon_free m Hmi Hme) as Hfree.
    rewrite Forall_forall in Hfree. now apply Hfree.
  - intros k [].
Qed.

Lemma mergedGroups_keys :
  map groupKey (mergedGroups items)
  = map groupKey (firstInstances (filter eligible items)).
Proof.
  unfold mergedGroups. rewrite map_map. apply map_ext_in.
  intros it Hin. now apply mergeGroup_key.
Qed.

Lemma mergedGroups_eligible :
  Forall (fun g => eligible g = true) (mergedGroups items).
Proof.
  apply Forall_forall. intros g Hg. unfold mergedGroups in Hg.
  apply in_map_iff in Hg as [it [<- Hin]].
  apply (firstInstancesFrom_In [] _ it) in Hin as [Hin _].
  now apply filter_In in Hin as [_ Hel].
Qed.

(** Away from the collisions the grouper is idempotent, as C8 says: when
    no file path of a finding eligible for grouping has a colon, grouping
    the grouped list gives the grouped list. *)
Lemma groupByCheckAndElement_idempotent :
  groupByCheckAndElement (groupByCheckAndElement items) = groupByCheckAndElement items.
Proof.
  rewrite (groupByCheckAndElement_spec (groupByCheckAndElement items)).
  rewrite (groupByCheckAndElement_spec items) at 1 2 3.
  set (P := filter (fun it => negb (eligible it)) items).
  set (G := mergedGroups items).
  assert (HPin : forall it, In it P -> eligible it = false).
  { intros it Hin. apply filter_In in Hin as [_ Hin]. now apply negb_true_iff in Hin. }
  assert (HGin : forall g, In g G -> eligible g = true).
  { pose proof mergedGroups_eligible as H. rewrite Forall_forall in H. exact H. }
  assert (HP : filter (fun it => negb (eligible it)) (P ++ G) = P).
  { rewrite filter_app. rewrite (@filter_none _ _ G).
    - rewrite app_nil_r. apply filter_all. apply Forall_forall.
      intros it Hin. now rewrite (HPin it Hin).
    - apply Forall_forall. intros g Hg. now rewrite (HGin g Hg). }
  assert (HG : filter eligible (P ++ G) = G).
  { rewrite filter_app. rewrite (@filter_none _ _ P).
    - cbn [app]. apply filter_all. apply Forall_forall. exact HGin.
    - apply Forall_forall. exact HPin. }
  rewrite HP. f_equal.
  unfold mergedGroups at 1. cbv zeta. rewrite HG.
  assert (Hnd : NoDup (map groupKey G)).
  { unfold G. rewrite mergedGroups_keys. apply firstInstancesFrom_NoDup. }
  unfold firstInstances. rewrite firstInstancesFrom_id by (assumption || reflexivity).
  rewrite <- (map_id G) at 3. apply map_ext_in. intros g Hg.
  unfold mergeGroup. rewrite filter_sameGroup_single by assumption.
  cbn [map List.concat]. rewrite app_nil_r.
  unfold G, mergedGroups in Hg. apply in_map_iff in Hg as [it [<- Hin]].
  unfold mergeGroup. cbn [locations set_locations].
  now rewrite uniqueLocations_idem.
Qed.

End ColonFreeFiles.

(* ------------------------------------------------------------------ *)
(** ** More on the deduplicator *)

Lemma uniqueLocationsFrom_In (seen : list jsstring) (locs : list Location) (l : Location) :
  In l (uniqueLocationsFrom seen locs) -> In l locs.
Proof.
  revert seen; induction locs as [|x rest IH]; intros seen; cbn [uniqueLocationsFrom].
  - contradiction.
  - destruct (Set_has seen (locationKey x)).
    + intros H. right. now apply (IH seen).
    + intros [->|H]; [now left|]. right. now apply (IH _ H).
Qed.

Lemma uniqueLocationsFrom_NoDup (seen : list jsstring) (locs : list Location) :
  NoDup (map locationKey (uniqueLocationsFrom seen locs)).
Proof.
  revert seen; induction locs as [|x rest IH]; intros seen; cbn [uniqueLocationsFrom].
  - constructor.
  - destruct (Set_has seen (locationKey x)) eqn:Hx; [apply IH|].
    cbn [map]. constructor; [|apply IH].
    intros Hin. apply Set_has_In in Hin.
    rewrite uniqueLocationsFrom_keys, Set_has_add, str_eqb_refl in Hin.
    cbn [orb negb] in Hin. now rewrite andb_false_r in Hin.
Qed.

Lemma uniqueLocations_keys_facts (locs : list Location) :
  NoDup (map locationKey (uniqueLocations locs))
  /\ (forall l, In l (uniqueLocations locs) -> In l locs)
  /\ (forall l, In l locs ->
        exists l', In l' (uniqueLocations locs) /\ locationKey l' = locationKey l).
Proof.
  split; [apply uniqueLocationsFrom_NoDup|]. split.
  - intros l. apply uniqueLocationsFrom_In.
  - intros l Hin.
    assert (H : Set_has (map locationKey (uniqueLocations locs)) (locationKey l) = true).
    { unfold uniqueLocations. rewrite uniqueLocationsFrom_keys. cbn [Set_has existsb negb].
      rewrite andb_true_r. apply Set_has_In. now apply in_map. }
    apply Set_has_In, in_map_iff in H as [l' [Hk Hl']]. eauto.
Qed.

(** X1.  The deduplicator returns locations of its input, no two of them
    with the same key, and every location of the input has its key in the
    result. *)
Theorem uniqueLocations_distinct_keys (locs : list Location) :
  NoDup (map locationKey (uniqueLocations locs))
  /\ (forall l, In l (uniqueLocations locs) -> In l locs)
  /\ (forall l, In l locs ->
        exists l', In l' (uniqueLocations locs) /\ locationKey l' = locationKey l).
Proof. apply uniqueLocations_keys_facts. Qed.

(** X2.  The deduplicator keeps first occurrences in their order: the
    result for a list extended by one location is the result for the list,
    followed by that location exactly when no location of the list has its
    key. *)
Theorem uniqueLocations_first_occurrence (pre : list Location) (l : Location) :
  uniqueLocations (pre ++ [l])
  = uniqueLocations pre
    ++ (if existsb (fun x => str_eqb (locationKey l) (locationKey x)) pre then [] else [l]).
Proof.
  rewrite uniqueLocations_snoc.
  assert (E : Set_has (map locationKey pre) (locationKey l)
              = existsb (fun x => str_eqb (locationKey l) (locationKey x)) pre).
  { unfold Set_has. clear. induction pre as [|x pre IH]; [reflexivity|].
    cbn [map existsb]. now rewrite IH. }
  now rewrite E.
Qed.

(** X3.  Deduplicating is idempotent, and deduplicating a deduplicated list
    followed by further locations is deduplicating the whole: this is what
    lets the grouper merge the locations of a group one finding at a
    time. *)
Theorem uniqueLocations_incremental (a b : list Location) :
  uniqueLocations (uniqueLocations a) = uniqueLocations a
  /\ uniqueLocations (uniqueLocations a ++ b) = uniqueLocations (a ++ b).
Proof. split; [apply uniqueLocations_idem | apply uniqueLocations_merge]. Qed.

(** X4.  When no file path has a colon, the deduplicator returns the
    locations of its input without repetition. *)
Theorem uniqueLocations_colon_free_set (locs : list Location) :
  Forall (fun l => colonFree (file l) = true) locs ->
  NoDup (uniqueLocations locs)
  /\ (forall l, In l (uniqueLocations locs) <-> In l locs).
Proof.
  intros Hfree. destruct (uniqueLocations_keys_facts locs) as [Hnd [Hsub Hcov]].
  split; [now apply NoDup_map_inv in Hnd|].
  intros l. split; [apply Hsub|]. intros Hin.
  destruct (Hcov l Hin) as [l' [Hl' Hk]].
  rewrite Forall_forall in Hfree.
  now rewrite <- (locationKey_inj l' l (Hfree l' (Hsub l' Hl')) (Hfree l Hin) Hk).
Qed.

Lemma uniqueLocations_colon_free_set_witness :
  NoDup (uniqueLocations sampleLocations)
  /\ (forall l, In l (uniqueLocations sampleLocations) <-> In l sampleLocations).
Proof.
  apply uniqueLocations_colon_free_set. repeat constructor.
Defined.

(* ------------------------------------------------------------------ *)
(** ** Location rows *)

Lemma formatLocationsFrom_rows (seen : list jsstring) (locs : list Location) :
  formatLocationsFrom seen locs = map formatRow (uniqueLocationsFrom seen locs).
Proof.
  revert seen; induction locs as [|l rest IH]; intros seen; [reflexivity|].
  cbn [formatLocationsFrom uniqueLocationsFrom].
  destruct (Set_has seen (locationKey l)); [apply IH|].
  cbn [map]. now rewrite IH.
Qed.

Lemma formatLocations_map (locs : list Location) :
  formatLocations locs = map formatRow (uniqueLocations locs).
Proof. apply formatLocationsFrom_rows. Qed.

(** X5.  [formatLocations] prints one row per location kept by the
    deduplicator, in the same order; deduplicating first changes
    nothing. *)
Theorem formatLocations_rows (locs : list Location) :
  formatLocations locs = map formatRow (uniqueLocations locs)
  /\ formatLocations (uniqueLocations locs) = formatLocations locs.
Proof.
  rewrite !formatLocations_map. split; [reflexivity|].
  now rewrite uniqueLocations_idem.
Qed.

(* ------------------------------------------------------------------ *)
(** ** More on the grouper *)

Lemma firstInstancesFrom_length (seen : list jsstring) (items : list NormalizedIssue) :
  List.length (firstInstancesFrom seen items) <= List.length items.
Proof.
  revert seen; induction items as [|it rest IH]; intros seen; cbn [firstInstancesFrom].
  - constructor.
  - destruct (Set_has seen (groupKey it)); cbn [List.length].
    + specialize (IH seen). lia.
    + specialize (IH (seen ++ [groupKey it])). lia.
Qed.

Lemma firstInstancesFrom_seen (seen : list jsstring) (items : list NormalizedIssue) :
  Forall (fun it => Set_has seen (groupKey it) = true) items ->
  firstInstancesFrom seen items = [].
Proof.
  induction 1 as [|it rest Hit Hrest IH]; [reflexivity|].
  cbn [firstInstancesFrom]. now rewrite Hit.
Qed.

Lemma mergedGroups_all_eligible (items : list NormalizedIssue) :
  Forall (fun g => eligible g = true) (mergedGroups items).
Proof.
  apply Forall_forall. intros g Hg. unfold mergedGroups in Hg.
  apply in_map_iff in Hg as [it [<- Hin]].
  apply (firstInstancesFrom_In [] _ it) in Hin as [Hin _].
  now apply filter_In in Hin as [_ Hel].
Qed.

(** X7.  The grouper leaves the findings of the other checks alone: they
    come out unchanged and in their input order, and a list without a
    [missing-zero-check] finding comes out as it is. *)
Theorem group_keeps_other_checks (items : list NormalizedIssue) :
  filter (fun it => negb (eligible it)) (groupByCheckAndElement items)
  = filter (fun it => negb (eligible it)) items
  /\ (Forall (fun it => eligible it = false) items -> groupByCheckAndElement items = items).
Proof.
  rewrite groupByCheckAndElement_spec. split.
  - rewrite filter_app. rewrite (@filter_none _ _ (mergedGroups items)).
    + rewrite app_nil_r. apply filter_all. apply Forall_forall.
      intros it Hin. now apply filter_In in Hin.
    + eapply Forall_impl; [|apply mergedGroups_all_eligible]. now intros g ->.
  - intros Hnone. unfold mergedGroups.
    rewrite (@filter_none _ eligible items) by assumption. cbn [firstInstances
      firstInstancesFrom map]. rewrite app_nil_r. apply filter_all.
    eapply Forall_impl; [|exact Hnone]. now intros it ->.
Qed.

Lemma group_keeps_other_checks_witness :
  groupByCheckAndElement [namingIssue; highIssueA; reentrancyIssue]
  = [namingIssue; highIssueA; reentrancyIssue].
Proof.
  apply (proj2 (group_keeps_other_checks [namingIssue; highIssueA; reentrancyIssue])).
  repeat constructor.
Defined.

Lemma filter_split_length (A : Type) (f : A -> bool) (l : list A) :
  List.length (filter (fun x => negb (f x)) l) + List.length (filter f l) = List.length l.
Proof.
  induction l as [|x l IH]; [reflexivity|].
  cbn [filter]. destruct (f x); cbn [negb List.length]; lia.
Qed.

(** X8.  Grouping never adds a finding: the grouped list has the findings
    of the other checks and one finding per key of the eligible ones, at
    most as many as the input. *)
Theorem group_size (items : list NormalizedIssue) :
  List.length (groupByCheckAndElement items)
  = List.length (filter (fun it => negb (eligible it)) items)
    + List.length (firstInstances (filter eligible items))
  /\ List.length (groupByCheckAndElement items) <= List.length items.
Proof.
  rewrite groupByCheckAndElement_spec, length_app. unfold mergedGroups.
  rewrite length_map. split; [reflexivity|].
  pose proof (firstInstancesFrom_length [] (filter eligible items)) as H.
  pose proof (filter_split_length eligible items) as Hs.
  unfold firstInstances. lia.
Qed.

(** X9.  Eligible findings that all have the key of the first of them are
    merged into one finding: the first, with the deduplicated locations of
    all of them in input order. *)
Theorem group_single_key (it : NormalizedIssue) (rest : list NormalizedIssue) :
  Forall (fun x => eligible x = true /\ groupKey x = groupKey it) (it :: rest) ->
  groupByCheckAndElement (it :: rest)
  = [set_locations it
       (uniqueLocations (List.concat (map locations (it :: rest))))].
Proof.
  intros H. rewrite groupByCheckAndElement_spec.
  assert (Hel : Forall (fun x => eligible x = true) (it :: rest))
    by (eapply Forall_impl; [|exact H]; now intros x [? _]).
  assert (Hkey : Forall (fun x => sameGroup it x = true) (it :: rest))
    by (eapply Forall_impl; [|exact H]; intros x [_ E]; unfold sameGroup;
        rewrite E; apply str_eqb_refl).
  rewrite (@filter_none _ _ (it :: rest))
    by (eapply Forall_impl; [|exact Hel]; now intros x ->).
  unfold mergedGroups. rewrite (@filter_all _ _ _ Hel). cbn [app].
  unfold firstInstances. cbn [firstInstancesFrom Set_has existsb app].
  rewrite firstInstancesFrom_seen.
  - cbn [map]. unfold mergeGroup. now rewrite (@filter_all _ _ _ Hkey).
  - inversion H as [|? ? _ Hrest]; subst.
    eapply Forall_impl; [|exact Hrest]. intros x [_ E].
    rewrite E. unfold Set_has. cbn [existsb]. now rewrite str_eqb_refl.
Qed.

Lemma group_single_key_witness :
  groupByCheckAndElement [zeroCheckOwner; zeroCheckLate; zeroCheckOwner]
  = [set_locations zeroCheckOwner
       (uniqueLocations
          (List.concat (map locations [zeroCheckOwner; zeroCheckLate; zeroCheckOwner])))].
Proof.
  apply group_single_key. repeat constructor.
Defined.

(** X10.  The grouper invents nothing: every finding it returns is a
    finding of the input with, at most, another list of locations; every
    location it returns is a location of some finding of the input; and
    the locations of a merged finding have pairwise different keys. *)
Theorem group_invents_nothing (items : list NormalizedIssue) (g : NormalizedIssue) :
  In g (groupByCheckAndElement items) ->
  (exists it, In it items /\ g = set_locations it (locations g)
              /\ (eligible g = false -> g = it))
  /\ (forall l, In l (locations g) -> exists it, In it items /\ In l (locations it))
  /\ (eligible g = true -> NoDup (map locationKey (locations g))).
Proof.
  rewrite groupByCheckAndElement_spec. intros Hin.
  apply in_app_or in Hin as [Hin|Hin].
  - apply filter_In in Hin as [Hin Hel]. apply negb_true_iff in Hel.
    split; [|split].
    + exists g. split; [assumption|]. split; [now destruct g|reflexivity].
    + intros l Hl. eauto.
    + congruence.
  - unfold mergedGroups in Hin. apply in_map_iff in Hin as [it [<- Hit]].
    apply (firstInstancesFrom_In [] _ it) in Hit as [Hit _].
    apply filter_In in Hit as [Hit Hel].
    split; [|split].
    + exists it. split; [assumption|]. split; [reflexivity|].
      unfold mergeGroup, eligible. cbn [check set_locations].
      unfold eligible in Hel. congruence.
    + intros l Hl. unfold mergeGroup in Hl. cbn [locations set_locations] in Hl.
      apply uniqueLocationsFrom_In, in_concat in Hl as [locs [Hlocs Hl]].
      apply in_map_iff in Hlocs as [m [<- Hm]].
      apply filter_In in Hm as [Hm _]. apply filter_In in Hm as [Hm _]. eauto.
    + intros _. unfold mergeGroup. cbn [locations set_locations].
      apply uniqueLocationsFrom_NoDup.
Qed.

Lemma group_invents_nothing_witness :
  exists it,
    In it [zeroCheckOwner; namingIssue; zeroCheckLate]
    /\ set_locations zeroCheckOwner
         (uniqueLocations (locations zeroCheckOwner ++ locations zeroCheckLate))
       = set_locations it
           (locations
              (set_locations zeroCheckOwner
                 (uniqueLocations (locations zeroCheckOwner ++ locations zeroCheckLate))))
    /\ (eligible
          (set_locations zeroCheckOwner
             (uniqueLocations (locations zeroCheckOwner ++ locations zeroCheckLate)))
        = false ->
        set_locations zeroCheckOwner
          (uniqueLocations (locations zeroCheckOwner ++ locations zeroCheckLate))
        = it).
Proof.
  apply (proj1 (@group_invents_nothing [zeroCheckOwner; namingIssue; zeroCheckLate] _
                  ltac:(vm_compute; right; left; reflexivity))).
Defined.

(* ------------------------------------------------------------------ *)
(** ** Expected counts of the validator *)

Lemma countsStep_get (acc : list (jsstring * nat)) (imp : jsstring) (sev : Impact) (n : nat) :
  Map_get acc (impactName sev) = Some n ->
  Map_get (countsStep acc imp) (impactName sev)
  = Some (n + if str_eqb imp (impactName sev) then 1 else 0).
Proof.
  intros Hget. unfold countsStep.
  destruct (Map_get acc imp) as [m|] eqn:Hm.
  - rewrite Map_get_set, str_eqb_sym.
    destruct (str_eqb imp (impactName sev)) eqn:E.
    + apply str_eqb_eq in E. subst imp. congruence.
    + rewrite Hget. f_equal. lia.
  - assert (E : str_eqb imp (impactName sev) = false).
    { apply str_eqb_neq. intros ->. congruence. }
    rewrite E, Nat.add_0_r.
    destruct (objectPrototypeHas imp); [assumption|].
    now rewrite Map_get_set, str_eqb_sym, E.
Qed.

Lemma countsFold_get (imps : list jsstring) (acc : list (jsstring * nat)) (sev : Impact)
    (n : nat) :
  Map_get acc (impactName sev) = Some n ->
  Map_get (fold_left countsStep imps acc) (impactName sev)
  = Some (n + List.length (filter (fun i => str_eqb i (impactName sev)) imps)).
Proof.
  revert acc n; induction imps as [|imp imps IH]; intros acc n Hget; cbn [fold_left filter].
  - now rewrite Nat.add_0_r.
  - rewrite (IH _ _ (@countsStep_get acc imp sev n Hget)).
    destruct (str_eqb imp (impactName sev)); cbn [List.length]; f_equal; lia.
Qed.

Lemma countsByImpact_findings (items : list NormalizedIssue) (sev : Impact) :
  countsByImpact (map impact items) sev = List.length (findingsOf sev items).
Proof.
  unfold countsByImpact.
  assert (Hinit : Map_get countsInit (impactName sev) = Some 0) by now destruct sev.
  rewrite (@countsFold_get (map impact items) countsInit sev 0 Hinit). cbn [Nat.add].
  unfold findingsOf. induction items as [|it items IH]; [reflexivity|].
  cbn [map filter]. destruct (str_eqb (impact it) (impactName sev)); cbn [List.length];
    now rewrite IH.
Qed.

(** X11.  The count the validator expects for a severity is the number of
    findings with exactly that impact, whatever the other impacts are
    (unknown ones, and the names of inherited properties, included). *)
Theorem countsByImpact_counts (items : list NormalizedIssue) (sev : Impact) :
  countsByImpact (map impact items) sev = List.length (findingsOf sev items).
Proof. apply countsByImpact_findings. Qed.

(* ------------------------------------------------------------------ *)
(** ** The matcher on literals and on the anchor pattern *)

Lemma rmatch_Star (greedy : bool) (r : regex) (prev : option codeunit) (s : jsstring)
    (k : option codeunit -> jsstring -> option mstate) :
  rmatch (Star greedy r) prev s k = starLoop r greedy k (S (List.length s)) prev s.
Proof. reflexivity. Qed.

Lemma rmatch_Lits (h : jsstring) (prev : option codeunit) (s : jsstring)
    (k : option codeunit -> jsstring -> option mstate) (m : mstate) :
  rmatch (Lits h) prev s k = Some m -> startsWith h s = true.
Proof.
  revert prev s; induction h as [|c h IH]; intros prev s H; [reflexivity|].
  cbn [Lits rmatch] in H. destruct s as [|d s]; [discriminate|].
  cbn [startsWith]. destruct (N.eqb c d); [|discriminate].
  cbn [andb]. now apply (IH _ _ H).
Qed.

(* ------------------------------------------------------------------ *)
(** ** Substrings and searches *)

Lemma startsWith_app_l (n a b : jsstring) :
  startsWith n a = true -> startsWith n (a ++ b) = true.
Proof.
  revert a; induction n as [|c n IH]; intros a H; [reflexivity|].
  destruct a as [|d a]; [discriminate|]. cbn [startsWith app] in *.
  apply andb_prop in H as [Hc Hn]. now rewrite Hc, IH.
Qed.

Lemma startsWith_prefix (n s : jsstring) : startsWith n (n ++ s) = true.
Proof. induction n as [|c n IH]; [reflexivity|]. cbn. now rewrite N.eqb_refl. Qed.

Lemma includes_here (s n : jsstring) : startsWith n s = true -> includes s n = true.
Proof. intros H. destruct s; cbn [includes]; now rewrite H. Qed.

Lemma includes_app_r (a b n : jsstring) : includes b n = true -> includes (a ++ b) n = true.
Proof.
  intros H. induction a as [|c a IH]; [assumption|].
  cbn [app includes]. rewrite IH. apply orb_true_r.
Qed.

Lemma includes_app_l (a b n : jsstring) : includes a n = true -> includes (a ++ b) n = true.
Proof.
  induction a as [|c a IH]; intros H.
  - cbn [includes] in H. rewrite orb_false_r in H.
    destruct n; [|discriminate]. now apply includes_here.
  - cbn [app includes] in *. apply orb_prop in H as [H|H].
    + pose proof (@startsWith_app_l n (c :: a) b H) as H'. cbn [app] in H'.
      now rewrite H'.
    + rewrite (IH H). apply orb_true_r.
Qed.

Lemma includes_inv (s n : jsstring) :
  includes s n = true -> exists pre post, s = pre ++ n ++ post.
Proof.
  induction s as [|c s IH]; cbn [includes]; intros H.
  - rewrite orb_false_r in H. apply startsWith_inv in H as [t ->]. now exists [], t.
  - apply orb_prop in H as [H|H].
    + apply startsWith_inv in H as [t ->]. now exists [], t.
    + destruct (IH H) as [pre [post ->]]. now exists (c :: pre), post.
Qed.

Lemma includes_middle (pre n post : jsstring) : includes (pre ++ n ++ post) n = true.
Proof. apply includes_app_r, includes_here, startsWith_prefix. Qed.

Lemma includes_join (sep n p : jsstring) (parts : list jsstring) :
  In p parts -> includes p n = true -> includes (join sep parts) n = true.
Proof.
  induction parts as [|q parts IH]; intros Hin Hp; [contradiction|].
  destruct parts as [|q' parts].
  - destruct Hin as [->|[]]. exact Hp.
  - rewrite join_cons by discriminate. destruct Hin as [->|Hin].
    + now apply includes_app_l.
    + apply includes_app_r, includes_app_r. now apply IH.
Qed.

Lemma searchFrom_inv (r : regex) (prev : option codeunit) (s : jsstring) :
  searchFrom r prev s = true ->
  exists pre suf p m, s = pre ++ suf /\ execAt r p suf = Some m.
Proof.
  revert prev; induction s as [|c s IH]; intros prev H; cbn [searchFrom] in H.
  - destruct (execAt r prev []) as [m|] eqn:E; [|discriminate].
    now exists [], [], prev, m.
  - destruct (execAt r prev (c :: s)) as [m|] eqn:E.
    + now exists [], (c :: s), prev, m.
    + destruct (IH _ H) as [pre [suf [p [m [-> Hm]]]]].
      now exists (c :: pre), suf, p, m.
Qed.

Lemma searchFrom_found (r : regex) (prev : option codeunit) (pre suf : jsstring) :
  (forall p, execAt r p suf <> None) -> searchFrom r prev (pre ++ suf) = true.
Proof.
  intros Hsuf. revert prev; induction pre as [|c pre IH]; intros prev.
  - cbn [app]. specialize (Hsuf prev).
    destruct suf; cbn [searchFrom]; destruct (execAt r prev _); congruence.
  - cbn [app searchFrom]. destruct (execAt r prev (c :: pre ++ suf)); [reflexivity|].
    apply IH.
Qed.

(** The lazy [.+?] followed by [)]: it stops at the first [)] that follows
    characters of the line. *)
Lemma starLoop_to_paren (k : option codeunit -> jsstring -> option mstate)
    (body post : jsstring) (fuel : nat) (prev : option codeunit) :
  forallb isDot body = true ->
  List.length body < fuel ->
  (forall p t, k p t <> None) ->
  starLoop (Class isDot) false (fun p s' => rmatch (Lit 41%N) p s' k) fuel prev
    (body ++ 41%N :: post)
  <> None.
Proof.
  intros Hbody Hfuel Hk.
  revert fuel prev Hfuel; induction body as [|c body IH]; intros fuel prev Hfuel.
  - destruct fuel as [|fuel]; [inversion Hfuel|].
    cbn [app starLoop rmatch]. rewrite N.eqb_refl.
    match goal with |- match ?x with _ => _ end <> None => destruct x eqn:E end.
    + intros H; discriminate H.
    + now apply Hk in E.
  - destruct fuel as [|fuel]; [inversion Hfuel|].
    cbn [forallb] in Hbody. apply andb_prop in Hbody as [Hc Hbody].
    cbn [app starLoop rmatch].
    destruct (N.eqb 41 c).
    + match goal with |- match ?x with _ => _ end <> None => destruct x eqn:E end.
      * intros H; discriminate H.
      * now apply Hk in E.
    + rewrite Hc.
      assert (Hlt : (List.length (body ++ 41%N :: post)
                     <? List.length (c :: body ++ 41%N :: post))%nat = true)
        by (apply Nat.ltb_lt; cbn [List.length]; lia).
      rewrite Hlt. apply IH; [assumption|]. cbn [List.length] in Hfuel. lia.
Qed.

Lemma anchor_matches (c : codeunit) (body post : jsstring) (p : option codeunit) :
  isDot c = true -> forallb isDot body = true ->
  execAt anchorRegex p (anchorText ++ c :: body ++ 41%N :: post) <> None.
Proof.
  intros Hc Hbody. unfold execAt, anchorRegex, Plus.
  change anchorText with [93%N; 40%N; 35%N]. change (lit "](#") with [93%N; 40%N; 35%N].
  remember (Star false (Class isDot)) as star eqn:Estar.
  remember (Lit 41%N) as paren eqn:Eparen.
  cbn [app Lits]. cbn [rmatch]. rewrite !N.eqb_refl, Hc. subst star paren.
  rewrite rmatch_Star.
  apply starLoop_to_paren; [assumption| |discriminate].
  rewrite length_app. cbn [List.length]. lia.
Qed.

(** X12.  The validator rejects every candidate that has an inline link to
    an anchor: the text [](#], at least one character, and a closing
    parenthesis on the same line. *)
Theorem validator_rejects_anchor (pre body post : jsstring) (c : codeunit)
    (items : list NormalizedIssue) :
  isDot c = true -> forallb isDot body = true ->
  containsForbiddenAnchors (pre ++ anchorText ++ c :: body ++ 41%N :: post) = true
  /\ validateOrFallback (pre ++ anchorText ++ c :: body ++ 41%N :: post) items = false.
Proof.
  intros Hc Hbody.
  assert (H : containsForbiddenAnchors (pre ++ anchorText ++ c :: body ++ 41%N :: post) = true).
  { unfold containsForbiddenAnchors, test. apply searchFrom_found.
    intros p. now apply anchor_matches. }
  split; [exact H|]. unfold validateOrFallback. rewrite H. cbn [negb].
  now rewrite andb_false_r.
Qed.

Lemma validator_rejects_anchor_witness :
  containsForbiddenAnchors
    ((lit "## Title" ++ NL ++ lit "see [the finding") ++ anchorText
     ++ 116%N :: lit "itle" ++ 41%N :: lit " for details") = true
  /\ validateOrFallback
       ((lit "## Title" ++ NL ++ lit "see [the finding") ++ anchorText
        ++ 116%N :: lit "itle" ++ 41%N :: lit " for details") [namingIssue] = false.
Proof.
  apply validator_rejects_anchor; reflexivity.
Defined.

(** X13.  The anchor rule of the validator only fires on candidates that
    contain the text [](#]. *)
Theorem anchors_need_anchor_text (md : jsstring) :
  containsForbiddenAnchors md = true -> includes md anchorText = true.
Proof.
  unfold containsForbiddenAnchors, test. intros H.
  apply searchFrom_inv in H as [pre [suf [p [m [-> Hm]]]]].
  apply includes_app_r, includes_here.
  unfold execAt, anchorRegex in Hm. cbn [rmatch] in Hm.
  now apply rmatch_Lits in Hm.
Qed.

Lemma anchors_need_anchor_text_witness : includes candidateWithAnchor anchorText = true.
Proof.
  apply anchors_need_anchor_text. reflexivity.
Defined.

(* ------------------------------------------------------------------ *)
(** ** Candidates without the heading of a severity *)

Lemma splitLoop_no_match (r : regex) (fuel : nat) (piece : jsstring) (atP : bool)
    (prev : option codeunit) (s : jsstring) :
  (forall pre suf p, s = pre ++ suf -> execAt r p suf = None) ->
  splitLoop fuel r piece atP prev s = [rev piece ++ s].
Proof.
  revert piece atP prev s; induction fuel as [|fuel IH]; intros piece atP prev s H;
    [reflexivity|].
  cbn [splitLoop]. destruct s as [|c s]; [now rewrite app_nil_r|].
  rewrite (H [] (c :: s) prev eq_refl).
  rewrite IH.
  - cbn [rev]. now rewrite <- app_assoc.
  - intros pre suf p ->. apply (H (c :: pre)). reflexivity.
Qed.

Lemma split_no_match (r : regex) (s : jsstring) :
  (forall pre suf p, s = pre ++ suf -> execAt r p suf = None) ->
  split r s = [s].
Proof.
  intros H. unfold split. destruct s as [|c s].
  - now rewrite (H [] [] None eq_refl).
  - now apply splitLoop_no_match.
Qed.

Lemma headingRegex_starts (sev : Impact) (p : option codeunit) (s : jsstring) (m : mstate) :
  execAt (headingRegex sev) p s = Some m -> startsWith (severityHeading sev) s = true.
Proof.
  unfold execAt, headingRegex, severityHeading. intros H.
  remember (Seq (Star true (Class isWhiteSpace)) EolM) as tail eqn:Etail.
  cbn [rmatch] in H.
  destruct p as [c|]; [destruct (isLineTerminator c); [|discriminate]|];
    now apply rmatch_Lits in H.
Qed.

Lemma parseCounts_without_heading (md : jsstring) (sev : Impact) :
  includes md (severityHeading sev) = false -> parseCountsFromMarkdown md sev = 0.
Proof.
  intros Hno. unfold parseCountsFromMarkdown.
  rewrite split_no_match; [reflexivity|].
  intros pre suf p ->.
  destruct (execAt (headingRegex sev) p suf) as [m|] eqn:E; [|reflexivity].
  apply headingRegex_starts in E.
  now rewrite (includes_app_r pre _ _ (includes_here _ _ E)) in Hno.
Qed.

(** X14.  A candidate that does not contain the heading text of a severity
    is read as having no sub-heading for it; and the validator rejects it
    as soon as the finding set has a finding of that severity. *)
Theorem validator_rejects_missing_section (md : jsstring) (items : list NormalizedIssue)
    (sev : Impact) :
  includes md (severityHeading sev) = false ->
  parseCountsFromMarkdown md sev = 0
  /\ (findingsOf sev items <> [] -> validateOrFallback md items = false).
Proof.
  intros Hno. pose proof (parseCounts_without_heading md sev Hno) as Hzero.
  split; [exact Hzero|]. intros Hsome.
  unfold validateOrFallback.
  assert (Hbad : Nat.eqb (countsByImpact (map impact items) sev)
                   (parseCountsFromMarkdown md sev) = false).
  { rewrite countsByImpact_findings, Hzero. destruct (findingsOf sev items);
      [contradiction|reflexivity]. }
  assert (Hcounts : forallb (fun sev0 => Nat.eqb (countsByImpact (map impact items) sev0)
                                           (parseCountsFromMarkdown md sev0)) order = false).
  { destruct (forallb _ order) eqn:E; [|reflexivity].
    rewrite forallb_forall in E. rewrite E in Hbad; [discriminate|].
    destruct sev; cbn; auto. }
  now rewrite Hcounts.
Qed.

Lemma validator_rejects_missing_section_witness :
  parseCountsFromMarkdown candidateOneHigh Low = 0
  /\ (findingsOf Low [highIssueA; namingIssue] <> [] ->
      validateOrFallback candidateOneHigh [highIssueA; namingIssue] = false).
Proof.
  apply validator_rejects_missing_section. reflexivity.
Defined.

(* ------------------------------------------------------------------ *)
(** ** When the renderer throws, and what it returns *)

Lemma Map_get_key (V : Type) (m : list (jsstring * V)) (k : jsstring) (v : V) :
  Map_get m k = Some v -> In k (map fst m).
Proof.
  induction m as [|[k' v'] m IH]; cbn [Map_get map fst In]; [discriminate|].
  destruct (str_eqb k k') eqn:E.
  - intros _. left. apply str_eqb_eq in E. now subst.
  - intros H. right. now apply IH.
Qed.

Lemma Map_set_keys (V : Type) (m : list (jsstring * V)) (k : jsstring) (v : V)
    (P : jsstring -> Prop) :
  Forall P (map fst m) -> P k -> Forall P (map fst (Map_set m k v)).
Proof.
  intros Hm Hk. induction m as [|[k' v'] m IH]; cbn [Map_set map fst].
  - now constructor.
  - inversion Hm as [|? ? Hk' Hm']; subst.
    destruct (str_eqb k k'); cbn [map fst]; constructor; auto.
Qed.

Lemma byImpactPush_inherited (b : list (jsstring * list NormalizedIssue))
    (it : NormalizedIssue) :
  Forall (fun k => objectPrototypeHas k = false) (map fst b) ->
  (objectPrototypeHas (impact it) = true -> byImpactPush b it = Throw TypeError)
  /\ (objectPrototypeHas (impact it) = false ->
      exists b', byImpactPush b it = Ok b'
                 /\ Forall (fun k => objectPrototypeHas k = false) (map fst b')).
Proof.
  intros Hown. unfold byImpactPush. split; intros Hit.
  - destruct (Map_get b (impact it)) as [bucket|] eqn:E; [|now rewrite Hit].
    apply Map_get_key in E. rewrite Forall_forall in Hown.
    rewrite (Hown _ E) in Hit. discriminate.
  - rewrite Hit. destruct (Map_get b (impact it)); eexists; split; try reflexivity;
      now apply Map_set_keys.
Qed.

Lemma byImpactFill_throws (items : list NormalizedIssue)
    (b : list (jsstring * list NormalizedIssue)) :
  Forall (fun k => objectPrototypeHas k = false) (map fst b) ->
  (exists it, In it items /\ objectPrototypeHas (impact it) = true) ->
  byImpactFill b items = Throw TypeError.
Proof.
  revert b; induction items as [|x rest IH]; intros b Hown [it [Hin Hit]];
    [contradiction|].
  cbn [byImpactFill]. destruct (@byImpactPush_inherited b x Hown) as [Hthrow Hok].
  destruct (objectPrototypeHas (impact x)) eqn:Hx.
  - now rewrite Hthrow.
  - destruct (Hok eq_refl) as [b' [-> Hown']]. cbn [bind].
    apply IH; [assumption|]. destruct Hin as [->|Hin]; [congruence|eauto].
Qed.

Lemma byImpactInit_own :
  Forall (fun k => objectPrototypeHas k = false) (map fst byImpactInit).
Proof. repeat constructor. Qed.

(** X15.  The renderer throws exactly when the impact of some finding is
    the name of a property inherited from [Object.prototype], and what it
    throws is a [TypeError]; in every other case it returns a text, and
    that text is not empty. *)
Theorem render_throws_or_returns (address : jsstring) (items : list NormalizedIssue) :
  ((exists it, In it items /\ objectPrototypeHas (impact it) = true) ->
   renderMarkdownDeterministic address items = Throw TypeError)
  /\ (Forall (fun it => objectPrototypeHas (impact it) = false) items ->
      exists out, renderMarkdownDeterministic address items = Ok out /\ out <> []).
Proof.
  split.
  - intros H. unfold renderMarkdownDeterministic.
    now rewrite (@byImpactFill_throws items byImpactInit byImpactInit_own H).
  - intros H. destruct (@byImpactFill_ok items byImpactInit H) as [b Hb].
    unfold renderMarkdownDeterministic. rewrite Hb. cbn [bind].
    eexists. split; [reflexivity|].
    match goal with |- (if truthy ?x then _ else _) <> [] => destruct x eqn:E end;
      discriminate.
Qed.

Lemma render_throws_or_returns_witness :
  renderMarkdownDeterministic (lit "0xABC") [namingIssue; constructorIssue] = Throw TypeError
  /\ exists out,
       renderMarkdownDeterministic (lit "0xABC") [namingIssue; highIssueA] = Ok out
       /\ out <> [].
Proof.
  split.
  - apply (proj1 (render_throws_or_returns (lit "0xABC") [namingIssue; constructorIssue])).
    exists constructorIssue. split; [right; left; reflexivity | reflexivity].
  - apply (proj2 (render_throws_or_returns (lit "0xABC") [namingIssue; highIssueA])).
    repeat constructor.
Defined.

(** X16.  A finding whose impact is neither one of the four severities nor
    the name of an inherited property leaves no trace in the report: the
    report is that of the findings with a recognised impact, and the
    "no vulnerabilities" sentence when there is none. *)
Theorem render_leaves_out_unrecognised (address : jsstring) (items : list NormalizedIssue) :
  Forall (fun it => objectPrototypeHas (impact it) = false) items ->
  renderMarkdownDeterministic address items
  = renderMarkdownDeterministic address (filter (fun it => recognised (impact it)) items)
  /\ (Forall (fun it => recognised (impact it) = false) items ->
      renderMarkdownDeterministic address items = Ok (noVulnerabilities address)).
Proof. apply render_unrecognised. Qed.

Lemma render_leaves_out_unrecognised_witness :
  renderMarkdownDeterministic (lit "0xABC") [optimizationIssue; namingIssue]
  = renderMarkdownDeterministic (lit "0xABC")
      (filter (fun it => recognised (impact it)) [optimizationIssue; namingIssue])
  /\ renderMarkdownDeterministic (lit "0xABC") [optimizationIssue]
     = Ok (noVulnerabilities (lit "0xABC")).
Proof.
  split.
  - apply (proj1 (@render_leaves_out_unrecognised (lit "0xABC")
                    [optimizationIssue; namingIssue] ltac:(repeat constructor))).
  - apply (proj2 (@render_leaves_out_unrecognised (lit "0xABC")
                    [optimizationIssue] ltac:(repeat constructor))).
    repeat constructor.
Defined.

(** X17.  The report depends on the finding list only through the list of
    findings of each severity: two lists with the same findings per
    severity, in the same order per severity, have the same report,
    however the severities are interleaved. *)
Theorem render_by_severity (address : jsstring) (items items' : list NormalizedIssue) :
  Forall (fun it => objectPrototypeHas (impact it) = false) items ->
  Forall (fun it => objectPrototypeHas (impact it) = false) items' ->
  (forall sev, findingsOf sev items = findingsOf sev items') ->
  renderMarkdownDeterministic address items = renderMarkdownDeterministic address items'.
Proof.
  intros H H' Hsame.
  destruct (@byImpactFill_ok items byImpactInit H) as [b Hb].
  destruct (@byImpactFill_ok items' byImpactInit H') as [b' Hb'].
  rewrite (@render_reportText address items b Hb), (@render_reportText address items' b' Hb').
  f_equal. now apply reportText_ext.
Qed.

Lemma render_by_severity_witness :
  renderMarkdownDeterministic (lit "0xABC") [namingIssue; highIssueA; mediumIssue; highIssueB]
  = renderMarkdownDeterministic (lit "0xABC") [highIssueA; highIssueB; mediumIssue; namingIssue].
Proof.
  apply render_by_severity; try (repeat constructor).
  intros sev. now destruct sev.
Defined.

(* ------------------------------------------------------------------ *)
(** ** The mandatory sentence in the report of the renderer *)

Lemma includes_nil (n : jsstring) : includes [] n = true -> n = [].
Proof.
  cbn [includes]. rewrite orb_false_r. destruct n; [reflexivity|discriminate].
Qed.

Lemma recognised_severity (imp : jsstring) :
  recognised imp = true -> exists sev, imp = impactName sev.
Proof.
  unfold recognised. intros H. apply existsb_exists in H as [sev [_ H]].
  exists sev. now apply str_eqb_eq.
Qed.

Lemma In_order (sev : Impact) : In sev order.
Proof. destruct sev; cbn; auto. Qed.

Lemma reportText_includes (address n : jsstring) (items : list NormalizedIssue)
    (it : NormalizedIssue) :
  In it items -> recognised (impact it) = true -> n <> [] ->
  includes (renderOne it) n = true ->
  includes (reportText address items) n = true.
Proof.
  intros Hin Hrec Hn Hit. destruct (recognised_severity _ Hrec) as [sev Hsev].
  assert (Hfind : In it (findingsOf sev items)).
  { unfold findingsOf. apply filter_In. split; [assumption|].
    rewrite Hsev. apply str_eqb_refl. }
  unfold reportText.
  match goal with |- includes (if truthy ?x then _ else _) _ = _ =>
    assert (Hs : includes x n = true) end.
  { apply includes_join
      with (p := severityHeading sev ++ NL ++ NL
                 ++ join NL (map renderOne (findingsOf sev items))).
    - apply (in_map (fun sev0 => severityHeading sev0 ++ NL ++ NL
                       ++ join NL (map renderOne (findingsOf sev0 items)))).
      apply filter_In. split; [apply In_order|].
      destruct (findingsOf sev items); [contradiction|reflexivity].
    - do 3 apply includes_app_r.
      apply includes_join with (p := renderOne it); [|assumption].
      now apply in_map. }
  match goal with |- includes (if truthy ?x then _ else _) _ = _ =>
    destruct x eqn:E end; cbn [truthy]; [|assumption].
  apply includes_nil in Hs. contradiction.
Qed.

Lemma riskOf_reentrancy (it : NormalizedIssue) :
  eqlit (check it) "reentrancy-no-eth" || eqlit (check it) "reentrancy-benign" = true ->
  includes (riskOf it) writesAfterCallSentence = true.
Proof.
  intros H. unfold riskOf.
  destruct (eqlit (check it) "controlled-delegatecall") eqn:E0.
  - apply str_eqb_eq in E0. unfold eqlit in H. rewrite E0 in H. discriminate H.
  - destruct (eqlit (check it) "reentrancy-no-eth") eqn:E1; [now vm_compute|].
    destruct (eqlit (check it) "reentrancy-benign") eqn:E2; [now vm_compute|].
    discriminate H.
Qed.

Lemma renderOne_issue_line (it : NormalizedIssue) (n : jsstring) :
  includes (riskOf it) n = true -> includes (renderOne it) n = true.
Proof.
  intros H. unfold renderOne.
  apply includes_join with (p := lit "- Issue: " ++ riskOf it).
  - apply in_or_app. right. apply in_or_app. right. cbn. auto.
  - now apply includes_app_r.
Qed.

(** X18.  When a finding of check [reentrancy-no-eth] or
    [reentrancy-benign] carries one of the four severities, the report of
    the renderer contains the sentence "A state variable is written after
    an external call.", so the validator's test for that sentence never
    fails on the renderer's own report of such a finding list. *)
Theorem render_states_write_after_call (address : jsstring)
    (items : list NormalizedIssue) (it : NormalizedIssue) :
  Forall (fun i => objectPrototypeHas (impact i) = false) items ->
  In it items ->
  recognised (impact it) = true ->
  eqlit (check it) "reentrancy-no-eth" || eqlit (check it) "reentrancy-benign" = true ->
  exists out,
    renderMarkdownDeterministic address items = Ok out
    /\ includes out writesAfterCallSentence = true
    /\ missingWritesAfterCallSentence out items = false.
Proof.
  intros Hown Hin Hrec Hcheck.
  destruct (@byImpactFill_ok items byImpactInit Hown) as [b Hb].
  exists (reportText address items).
  assert (Hinc : includes (reportText address items) writesAfterCallSentence = true).
  { apply reportText_includes with (it := it); try assumption; [discriminate|].
    now apply renderOne_issue_line, riskOf_reentrancy. }
  split; [exact (@render_reportText address items b Hb)|]. split; [assumption|].
  unfold missingWritesAfterCallSentence. rewrite Hinc. now destruct (existsb _ items).
Qed.

Lemma render_states_write_after_call_witness :
  exists out,
    renderMarkdownDeterministic (lit "0xABC") [namingIssue; reentrancyIssue] = Ok out
    /\ includes out writesAfterCallSentence = true
    /\ missingWritesAfterCallSentence out [namingIssue; reentrancyIssue] = false.
Proof.
  apply (@render_states_write_after_call (lit "0xABC") [namingIssue; reentrancyIssue]
           reentrancyIssue).
  - repeat constructor.
  - right; left; reflexivity.
  - reflexivity.
  - reflexivity.
Defined.

(* ------------------------------------------------------------------ *)
(** ** What the enricher returns, and the facts of a description *)

(** X19.  The enricher invents no entry: whatever it returns is the
    registry's own entry for one of the five identifiers SWC-112, SWC-107,
    SWC-104, SWC-101 and SWC-115, with that identifier stitched in. *)
Theorem enricher_returns_registry_entry
    (toLowerCase : jsstring -> jsstring) (swcData : jsstring -> option SWCEntry)
    (check : jsstring) (description : option jsstring) (e : EntryData) :
  enrichWithSWC toLowerCase swcData check description = Some e ->
  In (Id e) (map lit ["SWC-112"; "SWC-107"; "SWC-104"; "SWC-101"; "SWC-115"]%string)
  /\ exists entry,
       swcData (Id e) = Some entry
       /\ e = mkEntryData (Id e) (markdown entry)
                (content_Title (content entry))
                (content_Relationships (content entry))
                (content_Description (content entry))
                (content_Remediation (content entry)).
Proof.
  assert (Hget : forall id,
             getSWCEntry swcData id = Some e ->
             Id e = id
             /\ exists entry,
                  swcData (Id e) = Some entry
                  /\ e = mkEntryData (Id e) (markdown entry)
                           (content_Title (content entry))
                           (content_Relationships (content entry))
                           (content_Description (content entry))
                           (content_Remediation (content entry))).
  { intros id H. unfold getSWCEntry in H.
    destruct (swcData id) as [entry|] eqn:E; [|discriminate].
    injection H as <-. cbn [Id]. split; [reflexivity|]. now exists entry. }
  unfold enrichWithSWC, enrichWithSWCByDescription. intros H.
  repeat match type of H with
         | (if ?c then _ else _) = Some _ => destruct c
         | match ?d with Some _ => _ | None => _ end = Some _ => destruct d
         end;
    try discriminate H;
    destruct (Hget _ H) as [Hid Hentry]; (split; [|exact Hentry]);
    rewrite Hid; cbn; auto 10.
Qed.

Lemma enricher_returns_registry_entry_witness :
  exists e,
    enrichWithSWC toLowerCaseAscii sampleRegistry (lit "reentrancy-benign") None = Some e
    /\ In (Id e) (map lit ["SWC-112"; "SWC-107"; "SWC-104"; "SWC-101"; "SWC-115"]%string)
    /\ exists entry, sampleRegistry (Id e) = Some entry.
Proof.
  destruct (enrichWithSWC toLowerCaseAscii sampleRegistry (lit "reentrancy-benign") None)
    as [e|] eqn:E; [|discriminate E].
  exists e. split; [reflexivity|].
  destruct (@enricher_returns_registry_entry toLowerCaseAscii sampleRegistry
              (lit "reentrancy-benign") None e E) as [Hid [entry [Hentry _]]].
  split; [exact Hid|]. now exists entry.
Defined.

Lemma includes_trans (s a b : jsstring) :
  includes s a = true -> includes a b = true -> includes s b = true.
Proof.
  intros Hs Ha. apply includes_inv in Hs as [pre [post ->]].
  now apply includes_app_r, includes_app_l.
Qed.

(** X20.  The fact [mentionsZeroCheck] is true exactly when the lower-cased
    description contains "zero-check": the test for "lacks a zero-check"
    that precedes it never decides. *)
Theorem deriveFacts_zero_check
    (toLowerCase : jsstring -> jsstring) (desc : option jsstring) :
  mentionsZeroCheck (deriveFacts toLowerCase desc)
  = includes (toLowerCase (match desc with Some s => s | None => [] end))
      (lit "zero-check").
Proof.
  unfold deriveFacts. cbn [mentionsZeroCheck].
  destruct (includes _ (lit "lacks a zero-check")) eqn:E; [|reflexivity].
  cbn [orb]. symmetry. apply (@includes_trans _ _ _ E). now vm_compute.
Qed.

(* ------------------------------------------------------------------ *)
(** ** The findings of a run, and what a run returns *)

Lemma group_member_origin (items : list NormalizedIssue) (g : NormalizedIssue) :
  In g (groupByCheckAndElement items) ->
  exists it, In it items /\ g = set_locations it (locations g).
Proof.
  rewrite groupByCheckAndElement_spec. intros Hin.
  apply in_app_or in Hin as [Hin|Hin].
  - apply filter_In in Hin as [Hin _]. exists g. split; [assumption|now destruct g].
  - unfold mergedGroups in Hin. apply in_map_iff in Hin as [it [<- Hit]].
    apply (firstInstancesFrom_In [] _ it) in Hit as [Hit _].
    apply filter_In in Hit as [Hit _]. exists it. split; [assumption|reflexivity].
Qed.

(** X21.  Every finding that the renderer and the validator are given by a
    run is, up to its list of locations, the enriched finding of one
    detector of the Slither report: check, impact, confidence and
    description are the detector's, the title is the presentation title
    of its check, the facts are derived from its description, and the
    knowledge entry is what the enricher gives for its check and
    description. *)
Theorem enrichedIssues_origin
    (toLowerCase : jsstring -> jsstring) (swcData : jsstring -> option SWCEntry)
    (detectors : option (list DetectorResult)) (g : NormalizedIssue) :
  In g (enrichedIssuesOf toLowerCase swcData detectors) ->
  exists d,
    In d (match detectors with Some ds => ds | None => [] end)
    /\ check g = d_check d
    /\ impact g = d_impact d
    /\ confidence g = d_confidence d
    /\ description g = d_description d
    /\ title g = friendlyTitle (d_check d)
    /\ facts g = deriveFacts toLowerCase (Some (d_description d))
    /\ swc g = match enrichWithSWC toLowerCase swcData (d_check d)
                       (Some (d_description d)) with
               | Some e => Some (mkSWCMeta (Some (Id e)) (Title e) (Remediation e)
                                   (getReferences e))
               | None => None
               end.
Proof.
  unfold enrichedIssuesOf. intros Hin.
  apply group_member_origin in Hin as [it [Hit ->]].
  apply in_map_iff in Hit as [issue [<- Hissue]].
  apply in_map_iff in Hissue as [d [<- Hd]].
  exists d. split; [assumption|]. repeat split.
Qed.

Lemma enrichedIssues_origin_witness :
  exists d,
    In d [zeroCheckDetector "owner" 4; zeroCheckDetector "owner" 9]
    /\ check (mergeGroup
                (map (fun d => enrichIssue toLowerCaseAscii sampleRegistry
                                 (issueOfDetector toLowerCaseAscii d))
                   [zeroCheckDetector "owner" 4; zeroCheckDetector "owner" 9])
                (enrichIssue toLowerCaseAscii sampleRegistry
                   (issueOfDetector toLowerCaseAscii (zeroCheckDetector "owner" 4))))
       = d_check d.
Proof.
  destruct (@enrichedIssues_origin toLowerCaseAscii sampleRegistry
              (Some [zeroCheckDetector "owner" 4; zeroCheckDetector "owner" 9])
              (mergeGroup
                 (map (fun d => enrichIssue toLowerCaseAscii sampleRegistry
                                  (issueOfDetector toLowerCaseAscii d))
                    [zeroCheckDetector "owner" 4; zeroCheckDetector "owner" 9])
                 (enrichIssue toLowerCaseAscii sampleRegistry
                    (issueOfDetector toLowerCaseAscii (zeroCheckDetector "owner" 4)))))
    as [d [Hd [Hcheck _]]].
  - left. now vm_compute.
  - exists d. split; assumption.
Defined.

(** X22.  Whatever a run returns has one of three origins.  Without
    detectors it is the fixed sentence and no file is written.  Otherwise
    the file written holds the text returned, and that text is the
    report of the renderer or, in generator mode only, the text of the
    generator's reply after the validator has accepted it. *)
Theorem runAudit_returned_text
    (toLowerCase : jsstring -> jsstring) (swcData : jsstring -> option SWCEntry)
    (rendererEnv : option jsstring) (address : jsstring)
    (detectors : option (list DetectorResult)) (generator : GeneratorOutcome)
    (md : jsstring) (written : option jsstring) :
  runAudit toLowerCase swcData rendererEnv address detectors generator
  = Returned md written ->
  (match detectors with Some ds => ds | None => [] end = []
   /\ md = noVulnerabilitiesForContract address /\ written = None)
  \/ (match detectors with Some ds => ds | None => [] end <> []
      /\ written = Some md
      /\ (renderMarkdownDeterministic address
            (enrichedIssuesOf toLowerCase swcData detectors) = Ok md
          \/ (match rendererEnv with Some v => eqlit v "deterministic" | None => false end
              = false
              /\ validateOrFallback md (enrichedIssuesOf toLowerCase swcData detectors) = true
              /\ exists data, generator = FetchResolves (JsonResolves data)
                              /\ md = match response data with Some r => r | None => [] end))).
Proof.
  unfold runAudit, enrichedIssuesOf.
  set (ds := match detectors with Some ds => ds | None => [] end).
  set (items := groupByCheckAndElement
                  (map (enrichIssue toLowerCase swcData)
                     (map (issueOfDetector toLowerCase) ds))).
  destruct ds as [|d ds'] eqn:Eds.
  - cbn. intros H. injection H as <- <-. left. auto.
  - cbn [map List.length Nat.eqb]. intros H. right.
    split; [discriminate|].
    assert (Hwrite : forall r, writeAndReturn r = Returned md written ->
                               written = Some md /\ r = Ok md).
    { intros [text|e] Hr; cbn in Hr; [|discriminate].
      injection Hr as <- <-. auto. }
    destruct (match rendererEnv with Some v => eqlit v "deterministic" | None => false end)
      eqn:Emode.
    + apply Hwrite in H as [-> H]. auto.
    + destruct generator as [e| |[e|data]]; try discriminate H.
      destruct (validateOrFallback _ items) eqn:Ev; cbn [negb] in H.
      * apply Hwrite in H as [-> H]. injection H as <-.
        split; [reflexivity|]. right. split; [reflexivity|]. split; [assumption|].
        now exists data.
      * apply Hwrite in H as [-> H]. auto.
Qed.

Lemma runAudit_returned_text_witness :
  exists md,
    renderMarkdownDeterministic (lit "0xABC")
      (enrichedIssuesOf toLowerCaseAscii emptyRegistry (Some [sampleDetector])) = Ok md
    /\ runAudit toLowerCaseAscii emptyRegistry (Some (lit "deterministic")) (lit "0xABC")
         (Some [sampleDetector]) FetchNeverSettles = Returned md (Some md).
Proof.
  destruct (runAudit toLowerCaseAscii emptyRegistry (Some (lit "deterministic")) (lit "0xABC")
              (Some [sampleDetector]) FetchNeverSettles) as [md written| |] eqn:E;
    [|discriminate E|discriminate E].
  destruct (@runAudit_returned_text toLowerCaseAscii emptyRegistry
              (Some (lit "deterministic")) (lit "0xABC") (Some [sampleDetector])
              FetchNeverSettles md written E)
    as [[Hnone _]|[_ [-> [Hmd|[Hmode _]]]]].
  - discriminate Hnone.
  - exists md. split; [assumption|reflexivity].
  - discriminate Hmode.
Defined.

Lemma validateOrFallback_empty (items : list NormalizedIssue) :
  validateOrFallback [] items
  = forallb (fun sev => Nat.eqb (List.length (findingsOf sev items)) 0) order
    && negb (existsb (fun i => writesAfterCall (facts i)) items).
Proof.
  unfold validateOrFallback, missingWritesAfterCallSentence.
  assert (Hseen : forall sev, parseCountsFromMarkdown [] sev = 0) by (now intros []).
  assert (Hcounts :
            forallb (fun sev => Nat.eqb (countsByImpact (map impact items) sev)
                                  (parseCountsFromMarkdown [] sev)) order
            = forallb (fun sev => Nat.eqb (List.length (findingsOf sev items)) 0) order).
  { cbn [forallb order]. now rewrite !countsByImpact_findings, !Hseen. }
  rewrite Hcounts. change (containsForbiddenAnchors []) with false.
  change (includes [] writesAfterCallSentence) with false. cbn [negb].
  rewrite andb_true_r. f_equal.
  now destruct (existsb (fun i => writesAfterCall (facts i)) items).
Qed.

(** X23.  In generator mode, a reply of the generator without text (an
    error reply) is read as the empty text.  When no finding of the run
    carries one of the four severities and none has the fact
    [writesAfterCall], the validator accepts it: the run returns the empty
    text and writes it to the file.  As soon as a finding carries one of
    the four severities, the run gives what the renderer gives. *)
Theorem runAudit_reply_without_text
    (toLowerCase : jsstring -> jsstring) (swcData : jsstring -> option SWCEntry)
    (rendererEnv : option jsstring) (address : jsstring)
    (detectors : list DetectorResult) (data : OllamaResponse) :
  match rendererEnv with Some v => eqlit v "deterministic" | None => false end = false ->
  detectors <> [] ->
  response data = None ->
  ((forall g, In g (enrichedIssuesOf toLowerCase swcData (Some detectors)) ->
              recognised (impact g) = false /\ writesAfterCall (facts g) = false) ->
   runAudit toLowerCase swcData rendererEnv address (Some detectors)
     (FetchResolves (JsonResolves data))
   = Returned [] (Some []))
  /\ ((exists g, In g (enrichedIssuesOf toLowerCase swcData (Some detectors))
                 /\ recognised (impact g) = true) ->
      runAudit toLowerCase swcData rendererEnv address (Some detectors)
        (FetchResolves (JsonResolves data))
      = writeAndReturn
          (renderMarkdownDeterministic address
             (enrichedIssuesOf toLowerCase swcData (Some detectors)))).
Proof.
  intros Hmode Hne Hdata.
  assert (Hlen : Nat.eqb (List.length (map (issueOfDetector toLowerCase) detectors)) 0 = false).
  { destruct detectors; [contradiction|reflexivity]. }
  unfold runAudit. rewrite Hlen, Hmode, Hdata.
  fold (enrichedIssuesOf toLowerCase swcData (Some detectors)).
  rewrite validateOrFallback_empty.
  set (items := enrichedIssuesOf toLowerCase swcData (Some detectors)).
  split.
  - intros Hall.
    assert (Hcounts : forallb (fun sev => Nat.eqb (List.length (findingsOf sev items)) 0) order
                      = true).
    { apply forallb_forall. intros sev _.
      unfold findingsOf. rewrite filter_none; [reflexivity|].
      apply Forall_forall. intros g Hg. apply unrecognised_no_severity. now apply Hall. }
    assert (Hfacts : existsb (fun i => writesAfterCall (facts i)) items = false).
    { destruct (existsb _ items) eqn:E; [|reflexivity].
      apply existsb_exists in E as [g [Hg Hw]].
      destruct (Hall g Hg) as [_ Hno]. congruence. }
    rewrite Hcounts, Hfacts. reflexivity.
  - intros [g [Hg Hrec]].
    destruct (recognised_severity _ Hrec) as [sev Hsev].
    assert (Hcounts : forallb (fun sev => Nat.eqb (List.length (findingsOf sev items)) 0) order
                      = false).
    { destruct (forallb _ order) eqn:E; [|reflexivity].
      rewrite forallb_forall in E. specialize (E sev (In_order sev)).
      assert (Hfind : In g (findingsOf sev items)).
      { unfold findingsOf. apply filter_In. split; [assumption|].
        rewrite Hsev. apply str_eqb_refl. }
      destruct (findingsOf sev items); [contradiction|discriminate E]. }
    rewrite Hcounts. reflexivity.
Qed.

Lemma runAudit_reply_without_text_witness :
  runAudit toLowerCaseAscii emptyRegistry None (lit "0xABC") (Some [optimizationDetector])
    (FetchResolves (JsonResolves modelNotFound))
  = Returned [] (Some [])
  /\ runAudit toLowerCaseAscii emptyRegistry None (lit "0xABC") (Some [sampleDetector])
       (FetchResolves (JsonResolves modelNotFound))
     = writeAndReturn
         (renderMarkdownDeterministic (lit "0xABC")
            (enrichedIssuesOf toLowerCaseAscii emptyRegistry (Some [sampleDetector]))).
Proof.
  split.
  - apply (proj1 (@runAudit_reply_without_text toLowerCaseAscii emptyRegistry None
                    (lit "0xABC") [optimizationDetector] modelNotFound
                    eq_refl ltac:(discriminate) eq_refl)).
    intros g [<-|[]]. split; reflexivity.
  - apply (proj2 (@runAudit_reply_without_text toLowerCaseAscii emptyRegistry None
                    (lit "0xABC") [sampleDetector] modelNotFound
                    eq_refl ltac:(discriminate) eq_refl)).
    eexists. split; [left; reflexivity|reflexivity].
Defined.

(* ------------------------------------------------------------------ *)
(** ** The location list of a block *)

Lemma headerLinesOf_listed (it : NormalizedIssue) :
  1 < List.length (uniqueLocations (locations it)) ->
  headerLinesOf it
  = [contractLine it; locationsLine] ++ map formatRow (uniqueLocations (locations it)).
Proof.
  intros H. unfold headerLinesOf. rewrite formatLocations_map, length_map.
  apply Nat.ltb_lt in H. rewrite H. reflexivity.
Qed.

Lemma splitLines_prefix (p s : jsstring) :
  singleLine p = true ->
  splitLines (p ++ s) = (p ++ hd [] (splitLines s)) :: tl (splitLines s).
Proof.
  unfold singleLine. induction p as [|c p IH]; cbn [forallb app]; intros H.
  - pose proof (splitLines_nonempty s) as Hne.
    destruct (splitLines s); [contradiction|reflexivity].
  - apply andb_prop in H as [Hc Hp]. apply negb_true_iff in Hc.
    rewrite splitLines_char by assumption. now rewrite (IH Hp).
Qed.

Lemma noDashLine_app_both (a b : jsstring) :
  noDashLine b = true ->
  (noDashLine a = true -> noDashLine (a ++ b) = true)
  /\ (forallb (fun l => negb (startsWith (lit "-") l)) (tl (splitLines a)) = true ->
      forallb (fun l => negb (startsWith (lit "-") l)) (tl (splitLines (a ++ b))) = true).
Proof.
  intros Hb. unfold noDashLine in *.
  induction a as [|c a [IH1 IH2]].
  - split; [now intros _|]. intros _. cbn [app].
    pose proof (splitLines_nonempty b) as Hne.
    destruct (splitLines b) as [|l ls]; [contradiction|].
    cbn [forallb tl] in Hb |- *. now apply andb_prop in Hb.
  - cbn [app]. destruct (isLineTerminator c) eqn:Hc.
    + rewrite !splitLines_break by assumption. cbn [forallb tl].
      split.
      * intros H. apply andb_prop in H as [_ H]. now apply IH1.
      * exact IH1.
    + rewrite !splitLines_char by assumption. cbn [forallb tl].
      split.
      * intros H. apply andb_prop in H as [Hhead Htail].
        change (startsWith (lit "-") (c :: hd [] (splitLines (a ++ b))))
          with (startsWith (lit "-") (c :: hd [] (splitLines a))).
        rewrite Hhead. now apply IH2.
      * exact IH2.
Qed.

Lemma noDashLine_app (a b : jsstring) :
  noDashLine a = true -> noDashLine b = true -> noDashLine (a ++ b) = true.
Proof. intros Ha Hb. now apply (@noDashLine_app_both a b Hb). Qed.

Lemma noDashLine_single (s : jsstring) :
  singleLine s = true -> startsWith (lit "-") s = false -> noDashLine s = true.
Proof.
  intros Hs Hd. unfold noDashLine.
  pose proof (@splitLines_prefix s [] Hs) as H.
  cbn [splitLines hd tl] in H. rewrite !app_nil_r in H.
  rewrite H. cbn [forallb]. now rewrite Hd.
Qed.

Lemma singleLine_uint (u : Decimal.uint) :
  singleLine (lit (NilEmpty.string_of_uint u)) = true.
Proof. induction u; cbn; auto. Qed.

Lemma singleLine_numberToString (z : Z) : singleLine (numberToString z) = true.
Proof.
  unfold numberToString, NilZero.string_of_int, NilZero.string_of_uint.
  destruct (Z.to_int z) as [u|u]; destruct u; try reflexivity;
    first [ apply (singleLine_uint (Decimal.D0 _)) | apply (singleLine_uint (Decimal.D1 _))
          | apply (singleLine_uint (Decimal.D2 _)) | apply (singleLine_uint (Decimal.D3 _))
          | apply (singleLine_uint (Decimal.D4 _)) | apply (singleLine_uint (Decimal.D5 _))
          | apply (singleLine_uint (Decimal.D6 _)) | apply (singleLine_uint (Decimal.D7 _))
          | apply (singleLine_uint (Decimal.D8 _)) | apply (singleLine_uint (Decimal.D9 _)) ].
Qed.

(** A part made of a fixed prefix that does not begin the line
    [- Locations:], followed by a text none of whose lines starts with
    [-], has no line [- Locations:]. *)
Lemma prefixed_no_locationsLine (p s : jsstring) :
  singleLine p = true -> startsWith p locationsLine = false -> noDashLine s = true ->
  ~ In locationsLine (splitLines (p ++ s)).
Proof.
  intros Hp Hpre Hs. rewrite (@splitLines_prefix p s Hp). intros [E|Hin].
  - rewrite <- E, startsWith_prefix in Hpre. discriminate Hpre.
  - unfold noDashLine in Hs. rewrite forallb_forall in Hs.
    assert (Hl : In locationsLine (splitLines s))
      by (destruct (splitLines s); [contradiction|now right]).
    specialize (Hs _ Hl). discriminate Hs.
Qed.

Lemma noDashLine_friendlyTitle (check : jsstring) :
  noDashLine check = true -> noDashLine (friendlyTitle check) = true.
Proof.
  intros H. unfold friendlyTitle.
  repeat match goal with |- context [eqlit check ?s] => destruct (eqlit check s) end;
    try reflexivity; assumption.
Qed.

Lemma noDashLine_riskOf (it : NormalizedIssue) :
  noDashLine (description it) = true -> noDashLine (riskOf it) = true.
Proof.
  intros H. unfold riskOf.
  repeat match goal with |- context [eqlit (check it) ?s] => destruct (eqlit (check it) s) end;
    try reflexivity.
  now destruct (truthy (description it)).
Qed.

Lemma noDashLine_remediationOf (it : NormalizedIssue) :
  noDashLine (remediationOf it) = true.
Proof.
  unfold remediationOf.
  repeat match goal with |- context [eqlit (check it) ?s] => destruct (eqlit (check it) s) end;
    reflexivity.
Qed.

Lemma noDashLine_firstNamedElement (locs : list Location) :
  forallb noDashLocation locs = true -> noDashLine (firstNamedElement locs) = true.
Proof.
  unfold firstNamedElement. intros H.
  destruct (find _ locs) as [l|] eqn:E; [|reflexivity].
  apply find_some in E as [Hin _].
  rewrite forallb_forall in H. specialize (H l Hin).
  unfold noDashLocation in H. now apply andb_prop in H.
Qed.

Lemma headerLinesOf_unlisted (it : NormalizedIssue) :
  List.length (uniqueLocations (locations it)) <= 1 ->
  forallb noDashLocation (locations it) = true ->
  Forall (fun p => ~ In locationsLine (splitLines p)) (headerLinesOf it).
Proof.
  intros Hn Hlocs. unfold headerLinesOf. rewrite formatLocations_map, length_map.
  apply Nat.ltb_ge in Hn. rewrite Hn.
  constructor; [|constructor; [|constructor]].
  - apply prefixed_no_locationsLine; try reflexivity.
    destruct (locations it) as [|l locs]; [reflexivity|].
    cbn [nth_error]. cbn [forallb] in Hlocs. apply andb_prop in Hlocs as [Hl _].
    unfold noDashLocation in Hl. now apply andb_prop in Hl.
  - pose proof (@noDashLine_firstNamedElement (locations it) Hlocs) as Helem.
    set (elem := if truthy (firstNamedElement (locations it))
                 then firstNamedElement (locations it) else lit "N/A").
    assert (Hel : noDashLine elem = true)
      by (unfold elem; now destruct (truthy (firstNamedElement (locations it)))).
    set (info := match firstLine (locations it) with
                 | Some n => if Z.eqb n 0 then []
                             else lit " (line " ++ numberToString n ++ lit ")"
                 | None => []
                 end).
    assert (Hinfo : noDashLine (lit "`" ++ info) = true).
    { apply noDashLine_single; [|reflexivity].
      unfold info, singleLine.
      destruct (firstLine (locations it)) as [n|]; [destruct (Z.eqb n 0)|];
        try reflexivity.
      rewrite !forallb_app. fold (singleLine (numberToString n)).
      now rewrite singleLine_numberToString. }
    destruct (test functionishRegex elem || existsb _ functionChecks).
    + change (lit "- " ++ lit "Function" ++ lit ": `" ++ elem ++ lit "`" ++ info)
        with (lit "- Function: `" ++ elem ++ lit "`" ++ info).
      apply prefixed_no_locationsLine; try reflexivity. now apply noDashLine_app.
    + change (lit "- " ++ lit "Element" ++ lit ": `" ++ elem ++ lit "`" ++ info)
        with (lit "- Element: `" ++ elem ++ lit "`" ++ info).
      apply prefixed_no_locationsLine; try reflexivity. now apply noDashLine_app.
Qed.

Lemma swcParts_unlisted (it : NormalizedIssue) :
  noDashIssue it = true ->
  Forall (fun p => ~ In locationsLine (splitLines p)) (swcParts it).
Proof.
  unfold noDashIssue, swcParts. intros H. apply andb_prop in H as [_ H].
  destruct (swc it) as [s|].
  2:{ constructor; [|constructor]. cbn. intros [E|[]]. discriminate E. }
  apply andb_prop in H as [H Hrefs]. apply andb_prop in H as [H Hrem].
  apply andb_prop in H as [Hid Htitle].
  apply Forall_app. split; [|apply Forall_app; split].
  - constructor; [|constructor].
    apply prefixed_no_locationsLine; try reflexivity.
    destruct (swc_id s) as [i|]; [destruct (truthy i)|]; try assumption.
    rewrite <- app_assoc. apply noDashLine_app; [assumption|].
    now apply noDashLine_app.
  - destruct (truthy (swc_remediation s)); constructor; [|constructor].
    now apply prefixed_no_locationsLine.
  - destruct (swc_references s) as [|r refs] eqn:E; constructor.
    + cbn. intros [E'|[]]. discriminate E'.
    + rewrite <- E in *. clear E. apply Forall_forall. intros l Hl.
      apply in_map_iff in Hl as [r' [<- Hin]].
      rewrite forallb_forall in Hrefs. specialize (Hrefs r' Hin).
      now apply prefixed_no_locationsLine.
Qed.

(** X6.  The block of a finding lists its locations exactly when the
    deduplicator keeps at least two of them.  Its lines then start with
    those of the title, of the contract line, the line [- Locations:] and
    those of one row per kept location.  When at most one location is
    kept, and no line of a text of the finding starts with [-], the block
    has no line [- Locations:], however many locations the finding
    has. *)
Theorem block_location_list (it : NormalizedIssue) :
  (1 < List.length (uniqueLocations (locations it)) ->
   In locationsLine (splitLines (renderOne it))
   /\ exists rest,
        splitLines (renderOne it)
        = linesOf ([lit "## " ++ friendlyTitle (check it); contractLine it; locationsLine]
                   ++ map formatRow (uniqueLocations (locations it)))
          ++ rest)
  /\ (List.length (uniqueLocations (locations it)) <= 1 ->
      noDashIssue it = true ->
      ~ In locationsLine (splitLines (renderOne it))).
Proof.
  rewrite renderOne_parts, splitLines_join by apply blockParts_nonempty.
  unfold blockParts, blockTail. split.
  - intros H. rewrite (@headerLinesOf_listed it H).
    assert (Hsplit :
              linesOf ((lit "## " ++ friendlyTitle (check it))
                       :: ([contractLine it; locationsLine]
                           ++ map formatRow (uniqueLocations (locations it)))
                          ++ [lit "- Confidence: " ++ confidence it;
                              lit "- Issue: " ++ riskOf it;
                              lit "- Recommendation: " ++ remediationOf it]
                          ++ swcParts it ++ [[]])
              = linesOf ([lit "## " ++ friendlyTitle (check it); contractLine it;
                          locationsLine]
                         ++ map formatRow (uniqueLocations (locations it)))
                ++ linesOf ([lit "- Confidence: " ++ confidence it;
                             lit "- Issue: " ++ riskOf it;
                             lit "- Recommendation: " ++ remediationOf it]
                            ++ swcParts it ++ [[]])).
    { rewrite <- linesOf_app. reflexivity. }
    rewrite Hsplit. split; [|eexists; reflexivity].
    apply in_or_app. left. rewrite linesOf_app. apply in_or_app. left.
    rewrite !linesOf_cons. apply in_or_app. right. apply in_or_app. right.
    left. reflexivity.
  - intros Hn Hplain.
    pose proof (@swcParts_unlisted it Hplain) as Hswc.
    unfold noDashIssue in Hplain. apply andb_prop in Hplain as [Hplain _].
    apply andb_prop in Hplain as [Hplain Hlocs].
    apply andb_prop in Hplain as [Hplain Hdesc].
    apply andb_prop in Hplain as [Hcheck Hconf].
    assert (Hparts : Forall (fun p => ~ In locationsLine (splitLines p))
                       ((lit "## " ++ friendlyTitle (check it))
                        :: headerLinesOf it
                           ++ [lit "- Confidence: " ++ confidence it;
                               lit "- Issue: " ++ riskOf it;
                               lit "- Recommendation: " ++ remediationOf it]
                           ++ swcParts it ++ [[]])).
    { constructor.
      - apply prefixed_no_locationsLine; try reflexivity.
        now apply noDashLine_friendlyTitle.
      - apply Forall_app. split; [now apply headerLinesOf_unlisted|].
        apply Forall_app. split; [|apply Forall_app; split; [exact Hswc|]].
        + constructor; [|constructor; [|constructor; [|constructor]]].
          * now apply prefixed_no_locationsLine.
          * apply prefixed_no_locationsLine; try reflexivity.
            now apply noDashLine_riskOf.
          * apply prefixed_no_locationsLine; try reflexivity.
            apply noDashLine_remediationOf.
        + constructor; [|constructor]. cbn. intros [E|[]]. discriminate E. }
    unfold linesOf. intros Hin. apply in_concat in Hin as [ls [Hls Hin]].
    apply in_map_iff in Hls as [p [<- Hp]].
    rewrite Forall_forall in Hparts. exact (Hparts p Hp Hin).
Qed.

Lemma block_location_list_witness :
  In locationsLine (splitLines (renderOne highIssueTwoSites))
  /\ ~ In locationsLine (splitLines (renderOne unusedReturnTwice)).
Proof.
  split.
  - apply (proj1 (block_location_list highIssueTwoSites)). vm_compute. lia.
  - apply (proj2 (block_location_list unusedReturnTwice)).
    + vm_compute. lia.
    + reflexivity.
Defined.
